(** * The image gallery carousel of the site script

    A shallow embedding of [createImageGallery] and of the closures it
    builds ([updateCaption], [showImage] and the two click listeners), in the
    captioned version of [src/script.js] and in the caption-less version of
    [src/unnamed/part_000].

    - The DOM is reduced to what the function queries: the container, its
      [.gallery-img] elements in document order, the two arrows, the
      [#gallery-index] element and the [.gallery-caption] element.  An
      element that [querySelector] does not find is [None] (JavaScript
      [null]).
    - A [Container] holds the element each query found, one copy per
      query: this is the document when every query is answered by a node
      of its own.  Module [Shared] further down embeds the captioned
      gallery over the nodes of the document, where one node may answer
      two queries, and theorem [container_view_exact] relates the two.
    - A [classList] is the ordered token list of a [DOMTokenList].
    - The [textContent] of an element is the text the element holds
      itself: the counter and the caption region are taken to hold text
      and no element that the gallery queries.
    - JavaScript numbers that index the slides are integers, taken in [Z].
    - A statement that dereferences [null] or [undefined] throws a
      [TypeError]; what was mutated before the throw stays mutated. *)

From stdpp Require Import functions base strings list pretty gmap.

Local Open Scope Z_scope.

(** ** Elements and the queried part of the document *)

(** The click listeners this script attaches to the arrows. *)
Inductive Listener := PrevClick | NextClick.

Record Element := mkElement {
  classList : list string;
  textContent : string;
  clickListeners : list Listener
}.

(** What the five queries on the container return, each query answered by
    a node of its own. *)
Record Container := mkContainer {
  gallery_img : list Element;            (* querySelectorAll(".gallery-img") *)
  gallery_left_arrow : option Element;   (* querySelector(".gallery-left-arrow") *)
  gallery_right_arrow : option Element;  (* querySelector(".gallery-right-arrow") *)
  gallery_index : option Element;        (* querySelector("#gallery-index") *)
  gallery_caption : option Element       (* querySelector(".gallery-caption") *)
}.

(** The environment of the closures: the elements captured at construction
    and the mutable [let currentIndex]. *)
Record Gallery := mkGallery {
  dom : Container;
  currentIndex : Z
}.

(** The page after [createImageGallery] ran: either the function returned
    early and no closure exists, or the gallery is live. *)
Inductive Page :=
| Inert (document : option Container)
| Active (g : Gallery).

Inductive Control := PrevBtn | NextBtn.

(** ** DOMTokenList *)

Module DOMTokenList.

Definition contains (token : string) (l : list string) : bool :=
  bool_decide (token ∈ l).

Definition add (token : string) (l : list string) : list string :=
  if contains token l then l else l ++ [token].

Definition remove (token : string) (l : list string) : list string :=
  filter (λ t, t ≠ token) l.

(** [toggle(token, force)]: add when [force] is true, remove otherwise. *)
Definition toggle (token : string) (force : bool) (l : list string)
  : list string :=
  if force then add token l else remove token l.

End DOMTokenList.

Definition withClassList (f : list string → list string) (e : Element)
  : Element :=
  mkElement (f (classList e)) (textContent e) (clickListeners e).

Definition withTextContent (s : string) (e : Element) : Element :=
  mkElement (classList e) s (clickListeners e).

Definition withListener (l : Listener) (e : Element) : Element :=
  mkElement (classList e) (textContent e) (clickListeners e ++ [l]).

(** [img.classList.contains("hidden-img")] *)
Definition hidden (img : Element) : bool :=
  DOMTokenList.contains "hidden-img" (classList img).

Definition visible (img : Element) : bool := negb (hidden img).

(** ** Arrays *)

(** [a[i]] for an integer [i]: [None] is [undefined]. *)
Definition at_index {A} (a : list A) (i : Z) : option A :=
  if i <? 0 then None else a !! Z.to_nat i.

(** [a.findIndex(p)]: the first index whose element satisfies [p], or -1. *)
Definition findIndex {A} (p : A → bool) (a : list A) : Z :=
  match list_find (λ x, p x = true) a with
  | Some (i, _) => Z.of_nat i
  | None => -1
  end.

(** ** Completions and the monad of the closures *)

Inductive JSError := TypeError.

(** A statement either completes normally or throws; in both cases the
    state it reached is kept. *)
Inductive Outcome (S A : Type) :=
| Returned (a : A) (s : S)
| Threw (e : JSError) (s : S).
Arguments Returned {S A} a s.
Arguments Threw {S A} e s.

Definition state_of {S A} (o : Outcome S A) : S :=
  match o with Returned _ s => s | Threw _ s => s end.

Definition throws {S A} (o : Outcome S A) : bool :=
  match o with Returned _ _ => false | Threw _ _ => true end.

Definition JS (A : Type) : Type := Gallery → Outcome Gallery A.

#[export] Instance JS_ret : MRet JS := λ A a g, Returned a g.

#[export] Instance JS_bind : MBind JS := λ A B f m g,
  match m g with
  | Returned a g' => f a g'
  | Threw e g' => Threw e g'
  end.

Definition get : JS Gallery := λ g, Returned g g.

Definition throw {A} (e : JSError) : JS A := λ g, Threw e g.

Definition modify (f : Gallery → Gallery) : JS unit :=
  λ g, Returned tt (f g).

(** ** Field updates *)

Definition set_images (imgs : list Element) (g : Gallery) : Gallery :=
  let c := dom g in
  mkGallery
    (mkContainer imgs (gallery_left_arrow c) (gallery_right_arrow c)
       (gallery_index c) (gallery_caption c))
    (currentIndex g).

Definition set_left_arrow (e : Element) (g : Gallery) : Gallery :=
  let c := dom g in
  mkGallery
    (mkContainer (gallery_img c) (Some e) (gallery_right_arrow c)
       (gallery_index c) (gallery_caption c))
    (currentIndex g).

Definition set_right_arrow (e : Element) (g : Gallery) : Gallery :=
  let c := dom g in
  mkGallery
    (mkContainer (gallery_img c) (gallery_left_arrow c) (Some e)
       (gallery_index c) (gallery_caption c))
    (currentIndex g).

Definition set_index_el (e : Element) (g : Gallery) : Gallery :=
  let c := dom g in
  mkGallery
    (mkContainer (gallery_img c) (gallery_left_arrow c)
       (gallery_right_arrow c) (Some e) (gallery_caption c))
    (currentIndex g).

Definition set_caption_el (e : Element) (g : Gallery) : Gallery :=
  let c := dom g in
  mkGallery
    (mkContainer (gallery_img c) (gallery_left_arrow c)
       (gallery_right_arrow c) (gallery_index c) (Some e))
    (currentIndex g).

Definition set_currentIndex (i : Z) (g : Gallery) : Gallery :=
  mkGallery (dom g) i.

(** The bindings of the closure. *)
Definition images (g : Gallery) : list Element := gallery_img (dom g).
Definition prevBtn (g : Gallery) : option Element := gallery_left_arrow (dom g).
Definition nextBtn (g : Gallery) : option Element := gallery_right_arrow (dom g).
Definition galleryIndexEl (g : Gallery) : option Element := gallery_index (dom g).
Definition galleryCaption (g : Gallery) : option Element := gallery_caption (dom g).

(** [images.length] *)
Definition images_length (g : Gallery) : Z := Z.of_nat (length (images g)).

(** ** Statements shared by the two versions *)

(** [images[i].classList.<op>(...)]: a [TypeError] when [images[i]] is
    [undefined]. *)
Definition image_classList (i : Z) (op : list string → list string)
  : JS unit :=
  g ← get;
  match at_index (images g) i with
  | None => throw TypeError
  | Some img =>
      modify (set_images (<[Z.to_nat i := withClassList op img]> (images g)))
  end.

(** [galleryIndexEl.textContent = s]: a [TypeError] when the element is
    [null]. *)
Definition galleryIndexEl_set_textContent (s : string) : JS unit :=
  g ← get;
  match galleryIndexEl g with
  | None => throw TypeError
  | Some el => modify (set_index_el (withTextContent s el))
  end.

(** [btn.addEventListener("click", l)] *)
Definition addEventListener (c : Control) (l : Listener) : JS unit :=
  g ← get;
  match c with
  | PrevBtn =>
      match prevBtn g with
      | None => throw TypeError
      | Some btn => modify (set_left_arrow (withListener l btn))
      end
  | NextBtn =>
      match nextBtn g with
      | None => throw TypeError
      | Some btn => modify (set_right_arrow (withListener l btn))
      end
  end.

(** The template literal [`${currentIndex + 1} / ${images.length}`]. *)
Definition counter_text (g : Gallery) : string :=
  pretty (currentIndex g + 1) +:+ " / " +:+ pretty (images_length g).

(** The arrow function given to [findIndex]. *)
Definition not_hidden (img : Element) : bool :=
  negb (DOMTokenList.contains "hidden-img" (classList img)).

(** The guard [!images.length || !prevBtn || !nextBtn]. *)
Definition required_missing (container : Container) : bool :=
  (Z.of_nat (length (gallery_img container)) =? 0)
  || negb (bool_decide (is_Some (gallery_left_arrow container)))
  || negb (bool_decide (is_Some (gallery_right_arrow container))).

(** ** Dispatch of a click

    The listeners of the clicked arrow run in the order they were attached.
    An exception thrown by a listener is reported and does not stop the
    listeners after it. *)

Section Dispatch.

Variable handle : Listener → JS unit.

Fixpoint dispatchEvent (ls : list Listener) : JS unit :=
  match ls with
  | [] => mret tt
  | l :: ls =>
      λ g, match handle l g with
           | Returned _ g' => dispatchEvent ls g'
           | Threw e g' => Threw e (state_of (dispatchEvent ls g'))
           end
  end.

Definition click (c : Control) : JS unit :=
  g ← get;
  match (match c with PrevBtn => prevBtn g | NextBtn => nextBtn g end) with
  | None => mret tt
  | Some btn => dispatchEvent (clickListeners btn)
  end.

(** An activation on the page; nothing listens on an inert page. *)
Definition activate (c : Control) (p : Page) : Outcome Page unit :=
  match p with
  | Inert d => Returned tt (Inert d)
  | Active g =>
      match click c g with
      | Returned _ g' => Returned tt (Active g')
      | Threw e g' => Threw e (Active g')
      end
  end.

(** The page after a sequence of activations. *)
Fixpoint activations (cs : list Control) (p : Page) : Page :=
  match cs with
  | [] => p
  | c :: cs => activations cs (state_of (activate c p))
  end.

End Dispatch.

(** Lifts the outcome of the construction body to the page. *)
Definition activated (o : Outcome Gallery unit) : Outcome Page unit :=
  match o with
  | Returned _ g => Returned tt (Active g)
  | Threw e g => Threw e (Active g)
  end.

(** ** The captioned gallery, [src/script.js] *)

Module Captioned.

Definition catNames : list string :=
  ["Oliver"; "Zizi"; "Nancy"; "Sophia"; "Mr Onions"; "DaFu"; "Bertie"].

(** The template literal of the caption: "Meet " followed by
    [catNames[index]], or by the empty string when that is [undefined]. *)
Definition caption_text (index : Z) : string :=
  "Meet " +:+ default EmptyString (at_index catNames index).

(** [updateCaption(index = currentIndex)]; [None] is the omitted argument. *)
Definition updateCaption (index : option Z) : JS unit :=
  g ← get;
  let index := default (currentIndex g) index in
  match galleryCaption g with
  | Some el => modify (set_caption_el (withTextContent (caption_text index) el))
  | None => mret tt
  end.

Definition showImage (newIndex : Z) : JS unit :=
  g ← get;
  if (newIndex <? 0) || (newIndex >=? images_length g)
     || (newIndex =? currentIndex g)
  then mret tt
  else
    image_classList (currentIndex g) (DOMTokenList.add "hidden-img");;
    image_classList newIndex (DOMTokenList.remove "hidden-img");;
    modify (set_currentIndex newIndex);;
    g ← get;
    galleryIndexEl_set_textContent (counter_text g);;
    updateCaption None.

(** [() => currentIndex > 0 && showImage(currentIndex - 1)] *)
Definition onPrevClick : JS unit :=
  g ← get;
  if currentIndex g >? 0 then showImage (currentIndex g - 1) else mret tt.

(** [() => currentIndex < images.length - 1 && showImage(currentIndex + 1)] *)
Definition onNextClick : JS unit :=
  g ← get;
  if currentIndex g <? images_length g - 1
  then showImage (currentIndex g + 1) else mret tt.

Definition handle (l : Listener) : JS unit :=
  match l with PrevClick => onPrevClick | NextClick => onNextClick end.

(** The body of [createImageGallery] after [let currentIndex]. *)
Definition init : JS unit :=
  modify (λ g,
    set_images
      (imap (λ index img,
         withClassList
           (DOMTokenList.toggle "hidden-img"
              (negb (Z.of_nat index =? currentIndex g))) img)
         (images g)) g);;
  updateCaption None;;
  addEventListener PrevBtn PrevClick;;
  addEventListener NextBtn NextClick.

Definition createImageGallery (container : option Container)
  : Outcome Page unit :=
  match container with
  | None => Returned tt (Inert None)
  | Some container =>
      if required_missing container then Returned tt (Inert (Some container))
      else
        let currentIndex :=
          Z.max (findIndex not_hidden (gallery_img container)) 0 in
        activated (init (mkGallery container currentIndex))
  end.

End Captioned.

(** ** The caption-less gallery, [src/unnamed/part_000] *)

Module Plain.

Definition showImage (newIndex : Z) : JS unit :=
  g ← get;
  if (newIndex <? 0) || (newIndex >=? images_length g) then mret tt
  else if newIndex =? currentIndex g then mret tt
  else
    image_classList (currentIndex g) (DOMTokenList.add "hidden-img");;
    image_classList newIndex (DOMTokenList.remove "hidden-img");;
    modify (set_currentIndex newIndex);;
    g ← get;
    galleryIndexEl_set_textContent (counter_text g).

Definition onPrevClick : JS unit :=
  g ← get;
  if currentIndex g >? 0 then showImage (currentIndex g - 1) else mret tt.

Definition onNextClick : JS unit :=
  g ← get;
  if currentIndex g <? images_length g - 1
  then showImage (currentIndex g + 1) else mret tt.

Definition handle (l : Listener) : JS unit :=
  match l with PrevClick => onPrevClick | NextClick => onNextClick end.

Definition init : JS unit :=
  modify (λ g,
    set_images
      (imap (λ index img,
         if Z.of_nat index =? currentIndex g
         then withClassList (DOMTokenList.remove "hidden-img") img
         else withClassList (DOMTokenList.add "hidden-img") img)
         (images g)) g);;
  addEventListener PrevBtn PrevClick;;
  addEventListener NextBtn NextClick.

Definition createImageGallery (container : option Container)
  : Outcome Page unit :=
  match container with
  | None => Returned tt (Inert None)
  | Some container =>
      if required_missing container then Returned tt (Inert (Some container))
      else
        let currentIndex := findIndex not_hidden (gallery_img container) in
        let currentIndex :=
          if currentIndex =? -1 then 0 else currentIndex in
        activated (init (mkGallery container currentIndex))
  end.

End Plain.


(** * Observations and predicates used by the statements

    Nothing below is part of the script: these are the notions the
    properties are stated with. *)

(** Text of the counter and caption regions, when the regions exist. *)
Definition counter (g : Gallery) : option string :=
  textContent <$> galleryIndexEl g.

Definition caption (g : Gallery) : option string :=
  textContent <$> galleryCaption g.

(** Exactly the slide at [cursor] is visible. *)
Definition only_visible (cursor : Z) (imgs : list Element) : Prop :=
  ∀ (i : nat) img,
    imgs !! i = Some img → (visible img = true ↔ Z.of_nat i = cursor).

(** The state invariant: the cursor is in range, the slide at the cursor is
    visible and every other slide is hidden. *)
Definition gallery_inv (g : Gallery) : Prop :=
  0 ≤ currentIndex g < images_length g
  ∧ only_visible (currentIndex g) (images g).

(** Executable versions, for concrete states. *)
Definition only_visibleb (cursor : Z) (imgs : list Element) : bool :=
  forallb id
    (imap (λ i img, Bool.eqb (visible img) (Z.of_nat i =? cursor)) imgs).

Definition gallery_invb (g : Gallery) : bool :=
  (0 <=? currentIndex g) && (currentIndex g <? images_length g)
  && only_visibleb (currentIndex g) (images g).

(** Markup on which the script has not run yet: no listener of the gallery
    is attached to an arrow. *)
Definition pristine (c : Container) : Prop :=
  (∀ b, gallery_left_arrow c = Some b → clickListeners b = [])
  ∧ (∀ b, gallery_right_arrow c = Some b → clickListeners b = []).

(** Each arrow carries exactly the listener the construction attached. *)
Definition wired (g : Gallery) : Prop :=
  clickListeners <$> prevBtn g = Some [PrevClick]
  ∧ clickListeners <$> nextBtn g = Some [NextClick].

(** The three assignments of an effective transition, as one update of the
    state: old slide hidden, new slide shown, cursor moved. *)
Definition moved (newIndex : Z) (g : Gallery) : Gallery :=
  set_currentIndex newIndex
    (set_images
       (alter (withClassList (DOMTokenList.remove "hidden-img"))
          (Z.to_nat newIndex)
          (alter (withClassList (DOMTokenList.add "hidden-img"))
             (Z.to_nat (currentIndex g)) (images g)))
       g).

(** What every listener keeps: the invariant and the number of slides. *)
Definition stable (n : Z) (g : Gallery) : Prop :=
  gallery_inv g ∧ images_length g = n.

(** The slides after the forEach of the captioned version. *)
Definition toggled (cursor : Z) (imgs : list Element) : list Element :=
  imap (λ index img,
     withClassList
       (DOMTokenList.toggle "hidden-img" (negb (Z.of_nat index =? cursor)))
       img) imgs.


(** Two states that agree on everything but the caption region. *)
Definition same_but_caption (g1 g2 : Gallery) : Prop :=
  currentIndex g1 = currentIndex g2
  ∧ images g1 = images g2
  ∧ prevBtn g1 = prevBtn g2 ∧ nextBtn g1 = nextBtn g2
  ∧ galleryIndexEl g1 = galleryIndexEl g2.

(** Two outcomes that complete or throw alike, in such states. *)
Definition same_outcome (o1 o2 : Outcome Gallery unit) : Prop :=
  throws o1 = throws o2 ∧ same_but_caption (state_of o1) (state_of o2).

(** Two pages that are inert on the same document, or live in states that
    agree on everything but the caption region. *)
Definition same_page (p1 p2 : Page) : Prop :=
  match p1, p2 with
  | Inert d1, Inert d2 => d1 = d2
  | Active g1, Active g2 => same_but_caption g1 g2
  | _, _ => False
  end.

(** * Concrete markup *)

Definition slide (shown : bool) : Element :=
  mkElement
    (if shown then ["gallery-img"] else ["gallery-img"; "hidden-img"])
    EmptyString [].

Definition arrow (class : string) : Element := mkElement [class] EmptyString [].

Definition region (text : string) : Element := mkElement [] text [].

(** Seven slides of which only the one at index 2 is shown, a counter region
    reading "1 / 7" and an empty caption region. *)
Definition markup7 : Container :=
  mkContainer
    [slide false; slide false; slide true; slide false; slide false;
     slide false; slide false]
    (Some (arrow "gallery-left-arrow")) (Some (arrow "gallery-right-arrow"))
    (Some (region "1 / 7")) (Some (region EmptyString)).

(** Two slides, both arrows and a caption region, but no counter region. *)
Definition markup2_no_counter : Container :=
  mkContainer [slide true; slide false]
    (Some (arrow "gallery-left-arrow")) (Some (arrow "gallery-right-arrow"))
    None (Some (region EmptyString)).

(** Eight slides, one more than there are names, the one at index 6 shown;
    both arrows and a caption region, but no counter region. *)
Definition markup8_no_counter : Container :=
  mkContainer
    [slide false; slide false; slide false; slide false; slide false;
     slide false; slide true; slide false]
    (Some (arrow "gallery-left-arrow")) (Some (arrow "gallery-right-arrow"))
    None (Some (region EmptyString)).

(** The same eight slides with a counter region. *)
Definition markup8 : Container :=
  mkContainer (gallery_img markup8_no_counter)
    (Some (arrow "gallery-left-arrow")) (Some (arrow "gallery-right-arrow"))
    (Some (region "7 / 8")) (Some (region EmptyString)).

(** Seven slides and a next arrow, but no previous arrow. *)
Definition markup7_no_prev : Container :=
  mkContainer (gallery_img markup7) None
    (Some (arrow "gallery-right-arrow"))
    (Some (region "1 / 7")) (Some (region EmptyString)).

(** The live state of a page; on an inert page, the state the closures
    would start from. *)
Definition gallery_of (p : Page) : Gallery :=
  match p with
  | Active g => g
  | Inert d => mkGallery (default (mkContainer [] None None None None) d) 0
  end.

(** The gallery built over [markup7]. *)
Definition gallery7 : Gallery :=
  gallery_of (state_of (Captioned.createImageGallery (Some markup7))).

Definition gallery8 : Gallery :=
  gallery_of (state_of (Captioned.createImageGallery (Some markup8))).

(** The counter region shows the cursor: "cursor + 1 / N". *)
Definition counter_synced (g : Gallery) : Prop :=
  counter g = Some (counter_text g).

(** A live gallery over container [c] whose counter region exists: the
    state invariant holds over [n] slides, the counter shows the cursor or
    is still the text of the markup with the cursor where construction put
    it, and the caption region, if any, names the slide at the cursor. *)
Definition healthy (n : Z) (c : Container) (g : Gallery) : Prop :=
  stable n g
  ∧ is_Some (galleryIndexEl g)
  ∧ (counter_synced g
     ∨ (currentIndex g = Z.max (findIndex not_hidden (gallery_img c)) 0
        ∧ counter g = textContent <$> gallery_index c))
  ∧ caption g
    = (λ _, Captioned.caption_text (currentIndex g)) <$> gallery_caption c.

(** The tokens of a class list other than the hidden marker. *)
Definition other_classes (img : Element) : list string :=
  filter (λ t, t ≠ "hidden-img") (classList img).

(** What the gallery never changes on a slide: its other classes, its text
    and its listeners. *)
Definition slide_rest (img : Element) : list string * string * list Listener :=
  (other_classes img, textContent img, clickListeners img).

(** * The gallery over the nodes of the document

    In the program the five queries return references to nodes of one
    document: a node that answers two queries is one object, and an
    assignment through either binding is seen through the other.  A
    [Container] holds one copy of an element per query, which is exact when
    the queries are answered by different nodes (theorem
    [container_view_exact]).  Module [Shared] embeds [createImageGallery] of
    [src/script.js] over the nodes themselves: the document maps each node
    to its element, the closure holds the nodes the queries found, and an
    assignment updates the node. *)

Module Shared.

(** A node of the document. *)
Definition Node := nat.

(** The [const] bindings of [createImageGallery]: what the five queries on
    the container found. *)
Record Found := mkFound {
  images : list Node;            (* querySelectorAll(".gallery-img") *)
  prevBtn : option Node;         (* querySelector(".gallery-left-arrow") *)
  nextBtn : option Node;         (* querySelector(".gallery-right-arrow") *)
  galleryIndexEl : option Node;  (* querySelector("#gallery-index") *)
  galleryCaption : option Node   (* querySelector(".gallery-caption") *)
}.

(** The document, the bindings of the closures and [let currentIndex]. *)
Record State := mkState {
  document : Node → Element;
  found : Found;
  currentIndex : Z
}.

(** The page after [createImageGallery] ran over a document and the
    container's queries ([None]: no container): inert, or live. *)
Inductive Page :=
| Inert (document : Node → Element) (container : option Found)
| Active (s : State).

Definition JS (A : Type) : Type := State → Outcome State A.

#[global] Instance JS_ret : MRet JS := λ A a s, Returned a s.

#[global] Instance JS_bind : MBind JS := λ A B f m s,
  match m s with
  | Returned a s' => f a s'
  | Threw e s' => Threw e s'
  end.

Definition get : JS State := λ s, Returned s s.

Definition throw {A} (e : JSError) : JS A := λ s, Threw e s.

Definition modify (f : State → State) : JS unit := λ s, Returned tt (f s).

(** An assignment to a property of node [n]. *)
Definition update (n : Node) (f : Element → Element) : JS unit :=
  modify (λ s, mkState (alter f n (document s)) (found s) (currentIndex s)).

Definition set_currentIndex (i : Z) : JS unit :=
  modify (λ s, mkState (document s) (found s) i).

(** [images.length] *)
Definition images_length (s : State) : Z :=
  Z.of_nat (length (images (found s))).

(** [images[i].classList.<op>(...)] *)
Definition image_classList (i : Z) (op : list string → list string)
  : JS unit :=
  s ← get;
  match at_index (images (found s)) i with
  | None => throw TypeError
  | Some img => update img (withClassList op)
  end.

(** [galleryIndexEl.textContent = text] *)
Definition galleryIndexEl_set_textContent (text : string) : JS unit :=
  s ← get;
  match galleryIndexEl (found s) with
  | None => throw TypeError
  | Some el => update el (withTextContent text)
  end.

(** [btn.addEventListener("click", l)] *)
Definition addEventListener (c : Control) (l : Listener) : JS unit :=
  s ← get;
  match (match c with
         | PrevBtn => prevBtn (found s)
         | NextBtn => nextBtn (found s)
         end) with
  | None => throw TypeError
  | Some btn => update btn (withListener l)
  end.

(** The template literal [`${currentIndex + 1} / ${images.length}`]. *)
Definition counter_text (s : State) : string :=
  pretty (currentIndex s + 1) +:+ " / " +:+ pretty (images_length s).

(** [a.forEach(f)], with the index passed to the callback. *)
Fixpoint forEach_from {A} (index : nat) (f : A → nat → JS unit) (a : list A)
  : JS unit :=
  match a with
  | [] => mret tt
  | x :: a => f x index;; forEach_from (S index) f a
  end.

Definition forEach {A} (f : A → nat → JS unit) (a : list A) : JS unit :=
  forEach_from 0 f a.

(** [updateCaption(index = currentIndex)]; [None] is the omitted argument. *)
Definition updateCaption (index : option Z) : JS unit :=
  s ← get;
  let index := default (currentIndex s) index in
  match galleryCaption (found s) with
  | Some el => update el (withTextContent (Captioned.caption_text index))
  | None => mret tt
  end.

Definition showImage (newIndex : Z) : JS unit :=
  s ← get;
  if (newIndex <? 0) || (newIndex >=? images_length s)
     || (newIndex =? currentIndex s)
  then mret tt
  else
    image_classList (currentIndex s) (DOMTokenList.add "hidden-img");;
    image_classList newIndex (DOMTokenList.remove "hidden-img");;
    set_currentIndex newIndex;;
    s ← get;
    galleryIndexEl_set_textContent (counter_text s);;
    updateCaption None.

(** [() => currentIndex > 0 && showImage(currentIndex - 1)] *)
Definition onPrevClick : JS unit :=
  s ← get;
  if currentIndex s >? 0 then showImage (currentIndex s - 1) else mret tt.

(** [() => currentIndex < images.length - 1 && showImage(currentIndex + 1)] *)
Definition onNextClick : JS unit :=
  s ← get;
  if currentIndex s <? images_length s - 1
  then showImage (currentIndex s + 1) else mret tt.

Definition handle (l : Listener) : JS unit :=
  match l with PrevClick => onPrevClick | NextClick => onNextClick end.

(** The listeners of the clicked node run in the order they were attached;
    an exception thrown by a listener is reported and does not stop the
    listeners after it. *)
Fixpoint dispatchEvent (ls : list Listener) : JS unit :=
  match ls with
  | [] => mret tt
  | l :: ls =>
      λ s, match handle l s with
           | Returned _ s' => dispatchEvent ls s'
           | Threw e s' => Threw e (state_of (dispatchEvent ls s'))
           end
  end.

Definition click (c : Control) : JS unit :=
  s ← get;
  match (match c with
         | PrevBtn => prevBtn (found s)
         | NextBtn => nextBtn (found s)
         end) with
  | None => mret tt
  | Some btn => dispatchEvent (clickListeners (document s btn))
  end.

Definition activate (c : Control) (p : Page) : Outcome Page unit :=
  match p with
  | Inert d q => Returned tt (Inert d q)
  | Active s =>
      match click c s with
      | Returned _ s' => Returned tt (Active s')
      | Threw e s' => Threw e (Active s')
      end
  end.

Fixpoint activations (cs : list Control) (p : Page) : Page :=
  match cs with
  | [] => p
  | c :: cs => activations cs (state_of (activate c p))
  end.

(** The guard [!images.length || !prevBtn || !nextBtn]. *)
Definition required_missing (container : Found) : bool :=
  (Z.of_nat (length (images container)) =? 0)
  || negb (bool_decide (is_Some (prevBtn container)))
  || negb (bool_decide (is_Some (nextBtn container))).

(** The callback of the [forEach]:
    [img.classList.toggle("hidden-img", index !== currentIndex)]. *)
Definition toggle_hidden (img : Node) (index : nat) : JS unit :=
  s ← get;
  update img
    (withClassList
       (DOMTokenList.toggle "hidden-img"
          (negb (Z.of_nat index =? currentIndex s)))).

(** The body of [createImageGallery] after [let currentIndex]. *)
Definition init : JS unit :=
  s ← get;
  forEach toggle_hidden (images (found s));;
  updateCaption None;;
  addEventListener PrevBtn PrevClick;;
  addEventListener NextBtn NextClick.

Definition activated (o : Outcome State unit) : Outcome Page unit :=
  match o with
  | Returned _ s => Returned tt (Active s)
  | Threw e s => Threw e (Active s)
  end.

Definition createImageGallery (document : Node → Element)
    (container : option Found) : Outcome Page unit :=
  match container with
  | None => Returned tt (Inert document None)
  | Some container =>
      if required_missing container
      then Returned tt (Inert document (Some container))
      else
        let currentIndex :=
          Z.max
            (findIndex (λ img, not_hidden (document img)) (images container))
            0 in
        activated (init (mkState document container currentIndex))
  end.

End Shared.

(** The text of a node. *)
Definition text_of (s : Shared.State) (n : Shared.Node) : string :=
  textContent (Shared.document s n).

(** The live state of a page over nodes; on an inert page, the state the
    closures would start from. *)
Definition state_of_page (p : Shared.Page) : Shared.State :=
  match p with
  | Shared.Active s => s
  | Shared.Inert d q =>
      Shared.mkState d (default (Shared.mkFound [] None None None None) q) 0
  end.

(** A document on which the script has not run yet: no listener of the
    gallery is attached to an arrow. *)
Definition pristine_nodes (document : Shared.Node → Element)
    (q : Shared.Found) : Prop :=
  (∀ b, Shared.prevBtn q = Some b → clickListeners (document b) = [])
  ∧ (∀ b, Shared.nextBtn q = Some b → clickListeners (document b) = []).

(** The document after the [forEach] of the construction went over the
    slides [imgs], the first of them at position [index]. *)
Fixpoint toggled_from (index : nat) (cursor : Z) (imgs : list Shared.Node)
    (document : Shared.Node → Element) : Shared.Node → Element :=
  match imgs with
  | [] => document
  | img :: imgs =>
      toggled_from (S index) cursor imgs
        (alter
           (withClassList
              (DOMTokenList.toggle "hidden-img"
                 (negb (Z.of_nat index =? cursor))))
           img document)
  end.

(** The cursor construction starts from. *)
Definition initial_cursor (document : Shared.Node → Element)
    (q : Shared.Found) : Z :=
  Z.max (findIndex (λ img, not_hidden (document img)) (Shared.images q)) 0.

(** What the counter node [el] shows in a live state of the gallery built
    over [document] with the query results [q]: the caption when the same
    node is the caption region; otherwise the cursor, or still the text of
    the markup with the cursor where construction put it. *)
Definition counter_shown (document : Shared.Node → Element)
    (q : Shared.Found) (el : Shared.Node) (s : Shared.State) : Prop :=
  Shared.found s = q
  ∧ 0 ≤ Shared.currentIndex s < Shared.images_length s
  ∧ if decide (Shared.galleryCaption q = Some el)
    then text_of s el = Captioned.caption_text (Shared.currentIndex s)
    else text_of s el = Shared.counter_text s
         ∨ (Shared.currentIndex s = initial_cursor document q
            ∧ text_of s el = textContent (document el)).

(** An outcome seen through a view of its state. *)
Definition map_state {S T A} (f : S → T) (o : Outcome S A) : Outcome T A :=
  match o with
  | Returned a s => Returned a (f s)
  | Threw e s => Threw e (f s)
  end.

(** What a [Container] keeps of a document: the element of each node the
    queries found. *)
Definition container_of (document : Shared.Node → Element)
    (q : Shared.Found) : Container :=
  mkContainer (document <$> Shared.images q)
    (document <$> Shared.prevBtn q) (document <$> Shared.nextBtn q)
    (document <$> Shared.galleryIndexEl q)
    (document <$> Shared.galleryCaption q).

Definition gallery_view (s : Shared.State) : Gallery :=
  mkGallery (container_of (Shared.document s) (Shared.found s))
    (Shared.currentIndex s).

Definition page_view (p : Shared.Page) : Page :=
  match p with
  | Shared.Inert d q => Inert (container_of d <$> q)
  | Shared.Active s => Active (gallery_view s)
  end.

(** The nodes the queries found, in the order of the bindings. *)
Definition found_nodes (q : Shared.Found) : list Shared.Node :=
  Shared.images q ++ option_list (Shared.prevBtn q)
  ++ option_list (Shared.nextBtn q)
  ++ option_list (Shared.galleryIndexEl q)
  ++ option_list (Shared.galleryCaption q).

(** Every query is answered by a node of its own. *)
Definition separate (q : Shared.Found) : Prop := NoDup (found_nodes q).

(** ** A concrete page over nodes

    Nodes 0 to 6 are the slides, of which only node 2 is shown; node 7 is
    the previous arrow, node 8 the next arrow, node 9 the counter region,
    reading "1 / 7", and node 10 the caption region. *)
Definition page7 : Shared.Node → Element :=
  λ n,
    if (n <? 7)%nat then slide (n =? 2)%nat
    else if (n =? 7)%nat then arrow "gallery-left-arrow"
    else if (n =? 8)%nat then arrow "gallery-right-arrow"
    else if (n =? 9)%nat then region "1 / 7"
    else region EmptyString.

Definition found7 : Shared.Found :=
  Shared.mkFound [0; 1; 2; 3; 4; 5; 6]%nat (Some 7%nat) (Some 8%nat)
    (Some 9%nat) (Some 10%nat).

(** The same page when its counter region also carries the class of the
    caption: node 9 answers both queries. *)
Definition found7_shared : Shared.Found :=
  Shared.mkFound [0; 1; 2; 3; 4; 5; 6]%nat (Some 7%nat) (Some 8%nat)
    (Some 9%nat) (Some 9%nat).

(** A statement over nodes and a statement over the container do the same
    from state [s], as seen through the container: same completion, same
    container and cursor; and the statement over nodes keeps the
    bindings. *)
Definition simulates_at (s : Shared.State) (m : Shared.JS unit)
    (m' : JS unit) : Prop :=
  map_state gallery_view (m s) = m' (gallery_view s)
  ∧ Shared.found (state_of (m s)) = Shared.found s.

(** [page7] after construction and one activation of the next control,
    with the counter and the caption in two nodes and in one. *)
Definition page7_next : Shared.State :=
  state_of_page
    (Shared.activations [NextBtn]
       (state_of (Shared.createImageGallery page7 (Some found7)))).

Definition page7_shared_next : Shared.State :=
  state_of_page
    (Shared.activations [NextBtn]
       (state_of (Shared.createImageGallery page7 (Some found7_shared)))).

(** * The form fields

    The input listeners of [src/script.js] (module [FormV1]) and of the
    later [src/unnamed/part_001] (module [FormV2]).  A JavaScript string is
    the list of its UTF-16 code units; a regular expression without the
    unicode flag works on code units. *)

(** The code units of an ASCII literal. *)
Definition units (s : string) : list N :=
  Ascii.N_of_ascii <$> String.list_ascii_of_string s.

(** [\s], and the characters [trim] and [parseInt] strip: WhiteSpace and
    LineTerminator. *)
Definition isWhiteSpace (c : N) : bool :=
  ((9 <=? c) && (c <=? 13) || (c =? 32) || (c =? 160) || (c =? 5760)
   || (8192 <=? c) && (c <=? 8202) || (c =? 8232) || (c =? 8233)
   || (c =? 8239) || (c =? 8287) || (c =? 12288) || (c =? 65279))%N.

(** [\d] *)
Definition isDigit (c : N) : bool := ((48 <=? c) && (c <=? 57))%N.

(** [s.replace(/\s+/g, "")] *)
Definition remove_whitespace (s : list N) : list N :=
  filter (λ c, isWhiteSpace c = false) s.

(** [s.replace(/\D+/g, "")] *)
Definition keep_digits (s : list N) : list N :=
  filter (λ c, isDigit c = true) s.

(** A relative index of [slice], clamped to the string. *)
Definition clamp_index (len i : Z) : Z :=
  if i <? 0 then Z.max (len + i) 0 else Z.min i len.

(** [s.slice(start, end)]; [None] is the omitted [end]. *)
Definition slice (s : list N) (start : Z) (end_ : option Z) : list N :=
  let len := Z.of_nat (length s) in
  let from := clamp_index len start in
  let to := clamp_index len (default len end_) in
  take (Z.to_nat (to - from)) (drop (Z.to_nat from) s).

(** [s.trimStart()], [s.trimEnd()], [s.trim()] *)
Fixpoint trimStart (s : list N) : list N :=
  match s with
  | [] => []
  | c :: r => if isWhiteSpace c then trimStart r else s
  end.

Definition trimEnd (s : list N) : list N := reverse (trimStart (reverse s)).

Definition trim (s : list N) : list N := trimEnd (trimStart s).

(** [s.length] *)
Definition str_length (s : list N) : Z := Z.of_nat (length s).

(** [s.endsWith("@")] *)
Definition endsWith_at (s : list N) : bool :=
  bool_decide (last s = Some 64%N).

(** The value of a string of decimal digits. *)
Definition decimal (ds : list N) : Z :=
  foldl (λ acc d, 10 * acc + (Z.of_N d - 48)) 0 ds.

(** The longest prefix of decimal digits. *)
Fixpoint leading_digits (s : list N) : list N :=
  match s with
  | [] => []
  | c :: r => if isDigit c then c :: leading_digits r else []
  end.

(** [parseInt(s, 10)]: leading white space is skipped, then an optional
    sign and the longest run of decimal digits are read; [None] is [NaN].
    The integer is exact here, whereas JavaScript rounds it to a double:
    rounding is monotone and keeps 1, 3 and 99, so that the comparisons of
    the listeners with these constants come out the same. *)
Definition parseInt (s : list N) : option Z :=
  let s := trimStart s in
  let '(sign, s) :=
    match s with
    | 45%N :: r => (-1, r)
    | 43%N :: r => (1, r)
    | _ => (1, s)
    end in
  match leading_digits s with
  | [] => None
  | ds => Some (sign * decimal ds)
  end.

(** A form control: its value and its custom validity message. *)
Record Field := mkField {
  value : list N;
  customValidity : list N
}.

Definition set_value (v : list N) (el : Field) : Field :=
  mkField v (customValidity el).

Definition setCustomValidity (msg : list N) (el : Field) : Field :=
  mkField (value el) msg.

(** ** The listeners of [src/script.js] *)

Module FormV1.

(** The input listener of [#tel]. *)
Definition phoneInput_input (phoneInput : Field) : Field :=
  let value := remove_whitespace (value phoneInput) in
  let value :=
    if str_length value >? 5
    then slice value 0 (Some 5) ++ units " " ++ slice value 5 None
    else value in
  let value :=
    if str_length value >? 11 then slice value 0 (Some 12) else value in
  set_value value phoneInput.

(** The input listener of [#email]. *)
Definition emailInput_input (emailInput : Field) : Field :=
  let value := value emailInput in
  if endsWith_at value
  then set_value (value ++ units "gmail.com") emailInput
  else emailInput.

(** The input listener of [#cat-num]. *)
Definition catNumInput_input (catNumInput : Field) : Field :=
  match parseInt (value catNumInput) with
  | Some n => if n >=? 99 then set_value (units "99") catNumInput
              else catNumInput
  | None => catNumInput
  end.

(** The input listener of [#visits-per-day]. *)
Definition visitsPerDayInput_input (visitsPerDayInput : Field) : Field :=
  match parseInt (value visitsPerDayInput) with
  | Some n => if n >? 3 then set_value (units "3") visitsPerDayInput
              else visitsPerDayInput
  | None => visitsPerDayInput
  end.

End FormV1.

(** ** The listeners shared by the two files *)

(** The input listener of [#postcode].  [toUpperCase] is the built-in of
    that name, whose Unicode tables are left out: the listener is taken
    over any function in its place. *)
Definition postcodeInput_input (toUpperCase : list N → list N)
  (postcodeInput : Field) : Field :=
  let rawValue := remove_whitespace (toUpperCase (value postcodeInput)) in
  let rawValue :=
    if str_length rawValue >? 7 then slice rawValue 0 (Some 7)
    else rawValue in
  if str_length rawValue >? 4
  then
    let splitIndex := str_length rawValue - 3 in
    set_value
      (slice rawValue 0 (Some splitIndex) ++ units " "
       ++ slice rawValue splitIndex None) postcodeInput
  else set_value rawValue postcodeInput.

(** ** The listeners and helpers of [src/unnamed/part_001] *)

Module FormV2.

(** The input listener of [#tel]. *)
Definition phoneInput_input (phoneInput : Field) : Field :=
  let digits := keep_digits (value phoneInput) in
  let digits :=
    if str_length digits >? 11 then slice digits 0 (Some 11) else digits in
  let phoneInput :=
    if str_length digits >? 5
    then set_value
           (slice digits 0 (Some 5) ++ units " " ++ slice digits 5 None)
           phoneInput
    else set_value digits phoneInput in
  if str_length digits =? 0 then setCustomValidity [] phoneInput
  else if str_length digits <? 11
  then setCustomValidity
         (units "Please enter your full phone number (11 digits).")
         phoneInput
  else setCustomValidity [] phoneInput.

(** The input listener of [#email]. *)
Definition emailInput_input (emailInput : Field) : Field :=
  let value := trim (value emailInput) in
  if endsWith_at value
  then set_value (value ++ units "gmail.com") emailInput
  else set_value value emailInput.

(** The input listener of [#cat-num]. *)
Definition catNumInput_input (catNumInput : Field) : Field :=
  match parseInt (value catNumInput) with
  | None => catNumInput
  | Some n =>
      let catNumInput :=
        if n <? 1 then set_value (units "1") catNumInput else catNumInput in
      if n >=? 99 then set_value (units "99") catNumInput else catNumInput
  end.

(** The input listener of [#visits-per-day]. *)
Definition visitsPerDayInput_input (visitsPerDayInput : Field) : Field :=
  match parseInt (value visitsPerDayInput) with
  | None => visitsPerDayInput
  | Some n =>
      let visitsPerDayInput :=
        if n <? 1 then set_value (units "1") visitsPerDayInput
        else visitsPerDayInput in
      if n >? 3 then set_value (units "3") visitsPerDayInput
      else visitsPerDayInput
  end.

(** [isPhoneComplete(form)], on what [form.querySelector("#tel")] finds. *)
Definition isPhoneComplete (telInput : option Field) : bool :=
  match telInput with
  | None => true
  | Some telInput =>
      let digits := keep_digits (value telInput) in
      str_length digits =? 11
  end.

End FormV2.

(** ** The check boxes, in both files

    The document is the list of its check boxes in document order; a box is
    referred to by its position.  No listener changes an id, a name or a
    class, so that the references the script caches when it loads
    ([noneCheckbox], [timeSlots]) are the ones a lookup finds later. *)

Record Checkbox := mkCheckbox {
  box_id : string;
  box_name : string;
  box_class : list string;
  checked : bool
}.

Definition with_checked (v : bool) (cb : Checkbox) : Checkbox :=
  mkCheckbox (box_id cb) (box_name cb) (box_class cb) v.

(** [document.getElementById(id)]: the first element with that id. *)
Definition getElementById (id : string) (doc : list Checkbox) : option nat :=
  fst <$> list_find (λ cb, box_id cb = id) doc.

Definition noneCheckbox (doc : list Checkbox) : option nat :=
  getElementById "none" doc.

Definition timeSlots (doc : list Checkbox) : list (option nat) :=
  [getElementById "morning" doc; getElementById "afternoon" doc;
   getElementById "evening" doc].

(** [el.checked] *)
Definition is_checked (doc : list Checkbox) (el : nat) : bool :=
  default false (checked <$> doc !! el).

(** [el.id] *)
Definition id_of (doc : list Checkbox) (el : nat) : string :=
  default EmptyString (box_id <$> doc !! el).

(** [el.checked = v] *)
Definition set_checked (el : nat) (v : bool) (doc : list Checkbox)
  : list Checkbox :=
  alter (with_checked v) el doc.

Definition Dom (A : Type) : Type :=
  list Checkbox → Outcome (list Checkbox) A.

#[export] Instance Dom_ret : MRet Dom := λ A a doc, Returned a doc.

#[export] Instance Dom_bind : MBind Dom := λ A B f m doc,
  match m doc with
  | Returned a doc' => f a doc'
  | Threw e doc' => Threw e doc'
  end.

(** [el.checked = v] where [el] may be [null]. *)
Definition assign_checked (el : option nat) (v : bool) : Dom unit :=
  λ doc, match el with
         | None => Threw TypeError doc
         | Some el => Returned tt (set_checked el v doc)
         end.

(** [slots.every((slot) => slot.checked)]: stops at the first unchecked
    slot, throws at a [null] slot it reaches. *)
Fixpoint every_checked (slots : list (option nat)) : Dom bool :=
  match slots with
  | [] => mret true
  | None :: _ => λ doc, Threw TypeError doc
  | Some slot :: slots =>
      λ doc, if is_checked doc slot then every_checked slots doc
             else Returned false doc
  end.

(** [slots.forEach((slot) => (slot.checked = false))] *)
Fixpoint uncheck_each (slots : list (option nat)) : Dom unit :=
  match slots with
  | [] => mret tt
  | slot :: slots => assign_checked slot false;; uncheck_each slots
  end.

(** The change listener of the [.only-one] boxes. *)
Definition onlyOne_change (this : nat) : Dom unit :=
  λ doc,
    if is_checked doc this
    then Returned tt
           (imap (λ cb box,
              if bool_decide ("only-one" ∈ box_class box)
                 && bool_decide (cb ≠ this)
              then with_checked false box else box) doc)
    else Returned tt doc.

(** The state of the document, for a listener to read. *)
Definition read : Dom (list Checkbox) := λ doc, Returned doc doc.

(** The change listener of the [input[name="time-slot"]] boxes. *)
Definition timeSlot_change (this : nat) : Dom unit :=
  doc ← read;
  (if is_checked doc this && negb (String.eqb (id_of doc this) "none")
   then assign_checked (noneCheckbox doc) false
   else mret tt);;
  doc ← read;
  all ← every_checked (timeSlots doc);
  if all : bool
  then uncheck_each (timeSlots doc);;
       assign_checked (noneCheckbox doc) true
  else mret tt.

(** The change listener of [noneCheckbox]. *)
Definition none_change (this : nat) : Dom unit :=
  λ doc,
    if is_checked doc this then uncheck_each (timeSlots doc) doc
    else Returned tt doc.

Inductive ChangeListener := OnlyOneChange | TimeSlotChange | NoneChange.

Definition run_change (l : ChangeListener) (this : nat) : Dom unit :=
  match l with
  | OnlyOneChange => onlyOne_change this
  | TimeSlotChange => timeSlot_change this
  | NoneChange => none_change this
  end.

(** The change listeners the script has attached to a box, in the order of
    its statements.  When [#none] is missing the script stops at
    [noneCheckbox.addEventListener], after the first two were attached. *)
Definition change_listeners (doc : list Checkbox) (el : nat)
  : list ChangeListener :=
  match doc !! el with
  | None => []
  | Some box =>
      (if bool_decide ("only-one" ∈ box_class box)
       then [OnlyOneChange] else [])
      ++ (if String.eqb (box_name box) "time-slot"
          then [TimeSlotChange] else [])
      ++ (if bool_decide (noneCheckbox doc = Some el)
          then [NoneChange] else [])
  end.

(** The listeners run in order; one that throws does not stop the next. *)
Fixpoint dispatch_change (ls : list ChangeListener) (this : nat) : Dom unit :=
  match ls with
  | [] => mret tt
  | l :: ls =>
      λ doc, match run_change l this doc with
             | Returned _ doc' => dispatch_change ls this doc'
             | Threw e doc' =>
                 Threw e (state_of (dispatch_change ls this doc'))
             end
  end.

(** The user clicks a box: its state flips, then its change listeners
    run. *)
Definition user_change (el : nat) : Dom unit :=
  λ doc,
    dispatch_change (change_listeners doc el) el
      (alter (λ box, with_checked (negb (checked box)) box) el doc).

(** ** The helpers of the submit listener, [src/unnamed/part_001] *)

(** The controls of a form that have a string value, by id: what
    [form.querySelector(`#${id}`)] finds and the [typeof el.value] test
    lets through. *)
Definition fieldsToTrim : list string :=
  ["full-name"; "email"; "postcode"; "how-hear"; "message"].

(** [sanitizeTextInputs(form)] *)
Definition sanitizeTextInputs (form : gmap string Field)
  : gmap string Field :=
  foldl (λ form id,
           match form !! id with
           | Some el => <[id := set_value (trim (value el)) el]> form
           | None => form
           end) form fieldsToTrim.

(** ** The menu button, in both files *)

(** [classList.toggle(token)], without the force argument. *)
Definition classList_toggle (token : string) (l : list string)
  : list string :=
  if DOMTokenList.contains token l then DOMTokenList.remove token l
  else DOMTokenList.add token l.

(** The click listener of [#hamburger], on [#hamburger-menu]. *)
Definition hamburgerBtn_click (hamburgerMenu : Element) : Element :=
  withClassList (classList_toggle "display-none-hamburger") hamburgerMenu.

(** * Notions for the statements about the form fields *)

(** A phone number laid out in the UK style: a space after the first five
    characters, when there are more. *)
Definition uk_layout (s : list N) : list N :=
  if (5 <? length s)%nat then take 5 s ++ [32%N] ++ drop 5 s else s.

(** The ASCII part of [toUpperCase], to run the postcode listener with. *)
Definition ascii_upper (s : list N) : list N :=
  (λ c, if ((97 <=? c) && (c <=? 122))%N then (c - 32)%N else c) <$> s.

(** The box is in the [.only-one] group. *)
Definition only_one (doc : list Checkbox) (el : nat) : bool :=
  default false
    ((λ box, bool_decide ("only-one" ∈ box_class box)) <$> doc !! el).

(** The box is a [name="time-slot"] input. *)
Definition named_time_slot (doc : list Checkbox) (el : nat) : bool :=
  default false ((λ box, String.eqb (box_name box) "time-slot") <$> doc !! el).

(** The four boxes of the time slot group are in the document and the
    three slots are [name="time-slot"] inputs. *)
Definition time_slot_group (doc : list Checkbox) (m a e n : nat) : Prop :=
  getElementById "morning" doc = Some m
  ∧ getElementById "afternoon" doc = Some a
  ∧ getElementById "evening" doc = Some e
  ∧ getElementById "none" doc = Some n
  ∧ named_time_slot doc m = true
  ∧ named_time_slot doc a = true
  ∧ named_time_slot doc e = true.

(** The selection makes sense: "No Preference" is not checked together
    with a slot, and the three slots are not all checked. *)
Definition selection_ok (doc : list Checkbox) (m a e n : nat) : bool :=
  negb (is_checked doc n
        && (is_checked doc m || is_checked doc a || is_checked doc e))
  && negb (is_checked doc m && is_checked doc a && is_checked doc e).

(** What a listener cannot change on a box. *)
Definition box_static (box : Checkbox) : string * string * list string :=
  (box_id box, box_name box, box_class box).

(** A form with the three slots, "No Preference" and one more box. *)
Definition slot_form (m a e n : bool) : list Checkbox :=
  [mkCheckbox "morning" "time-slot" [] m;
   mkCheckbox "afternoon" "time-slot" [] a;
   mkCheckbox "evening" "time-slot" [] e;
   mkCheckbox "none" "time-slot" [] n;
   mkCheckbox "terms" "terms" [] false].


(** A boolean function holds of both booleans. *)
Definition all2 (p : bool → bool) : bool := p true && p false.

(** A form with two boxes of the [.only-one] group and one outside it. *)
Definition choice_form : list Checkbox :=
  [mkCheckbox "yes" "answer" ["only-one"] true;
   mkCheckbox "no" "answer" ["only-one"] false;
   mkCheckbox "terms" "terms" [] true].
(** * Properties *)

(** ** Tokens *)

Lemma contains_add token l :
  DOMTokenList.contains token (DOMTokenList.add token l) = true.
Proof.
  unfold DOMTokenList.add.
  destruct (DOMTokenList.contains token l) eqn:E; [exact E|].
  unfold DOMTokenList.contains. apply bool_decide_eq_true.
  apply elem_of_app. right. apply list_elem_of_singleton. reflexivity.
Qed.

Lemma contains_remove token l :
  DOMTokenList.contains token (DOMTokenList.remove token l) = false.
Proof.
  unfold DOMTokenList.contains, DOMTokenList.remove.
  apply bool_decide_eq_false. intros [H _]%list_elem_of_filter. now apply H.
Qed.

Lemma hidden_add img :
  hidden (withClassList (DOMTokenList.add "hidden-img") img) = true.
Proof. apply contains_add. Qed.

Lemma hidden_remove img :
  hidden (withClassList (DOMTokenList.remove "hidden-img") img) = false.
Proof. apply contains_remove. Qed.

Lemma visible_add img :
  visible (withClassList (DOMTokenList.add "hidden-img") img) = false.
Proof. unfold visible. now rewrite hidden_add. Qed.

Lemma visible_remove img :
  visible (withClassList (DOMTokenList.remove "hidden-img") img) = true.
Proof. unfold visible. now rewrite hidden_remove. Qed.

(** ** Arrays *)

Lemma at_index_Some {A} (a : list A) i x :
  at_index a i = Some x ↔ 0 ≤ i ∧ a !! Z.to_nat i = Some x.
Proof.
  unfold at_index. destruct (Z.ltb_spec i 0); split.
  - discriminate.
  - intros [? _]. lia.
  - auto.
  - intros [_ ?]. assumption.
Qed.

Lemma at_index_in_range {A} (a : list A) i :
  0 ≤ i < Z.of_nat (length a) → is_Some (at_index a i).
Proof.
  intros [H0 H1]. unfold at_index.
  destruct (Z.ltb_spec i 0); [lia|]. apply lookup_lt_is_Some. lia.
Qed.

Lemma findIndex_found {A} (p : A → bool) (a : list A) (i : nat) :
  findIndex p a = Z.of_nat i ↔
  ∃ x, a !! i = Some x ∧ p x = true
       ∧ ∀ (j : nat) y, a !! j = Some y → (j < i)%nat → p y = false.
Proof.
  unfold findIndex. split.
  - destruct (list_find _ a) as [[k x]|] eqn:E; [|lia].
    intros Hk. apply Nat2Z.inj in Hk. subst k.
    apply list_find_Some in E as (Hx & Hp & Hlt).
    exists x. split_and!; [done..|]. intros j y Hy Hj.
    apply not_true_is_false. eauto.
  - intros (x & Hx & Hp & Hlt).
    assert (list_find (λ x, p x = true) a = Some (i, x)) as ->; [|done].
    apply list_find_Some. split_and!; [done..|].
    intros j y Hy Hj. rewrite (Hlt j y Hy Hj). discriminate.
Qed.

Lemma findIndex_none {A} (p : A → bool) (a : list A) :
  findIndex p a = -1 ↔ ∀ x, x ∈ a → p x = false.
Proof.
  unfold findIndex. split.
  - destruct (list_find _ a) as [[k x]|] eqn:E; [lia|]. intros _.
    apply list_find_None in E. rewrite Forall_forall in E.
    intros x Hx. apply not_true_is_false. auto.
  - intros H.
    assert (list_find (λ x, p x = true) a = None) as ->; [|done].
    apply list_find_None, Forall_forall. intros x Hx. rewrite (H x Hx).
    discriminate.
Qed.

Lemma findIndex_range {A} (p : A → bool) (a : list A) :
  -1 ≤ findIndex p a < Z.of_nat (length a).
Proof.
  unfold findIndex.
  destruct (list_find _ a) as [[k x]|] eqn:E.
  - apply list_find_Some in E as (Hx & _). apply lookup_lt_Some in Hx. lia.
  - lia.
Qed.

Lemma insert_as_alter {A} (f : A → A) (l : list A) (i : nat) x :
  l !! i = Some x → <[i := f x]> l = alter f i l.
Proof.
  intros Hx. apply list_eq. intros j.
  destruct (decide (i = j)) as [->|Hne].
  - rewrite list_lookup_insert_eq by (by eapply lookup_lt_Some).
    rewrite list_lookup_alter_eq, Hx. done.
  - rewrite list_lookup_insert_ne, list_lookup_alter_ne; done.
Qed.

(** ** The invariant, executably *)

Lemma only_visibleb_spec cursor imgs :
  only_visibleb cursor imgs = true ↔ only_visible cursor imgs.
Proof.
  unfold only_visibleb, only_visible. rewrite forallb_forall. split.
  - intros H i img Hi.
    assert (Hin : In (Bool.eqb (visible img) (Z.of_nat i =? cursor))
                    (imap (λ i img, Bool.eqb (visible img)
                                      (Z.of_nat i =? cursor)) imgs)).
    { apply list_elem_of_In, list_elem_of_lookup. exists i.
      rewrite list_lookup_imap, Hi. done. }
    apply H in Hin. unfold id in Hin. apply Bool.eqb_prop in Hin.
    rewrite Hin. apply Z.eqb_eq.
  - intros H b [i Hb]%list_elem_of_In%list_elem_of_lookup.
    rewrite list_lookup_imap in Hb.
    destruct (imgs !! i) as [img|] eqn:Hi; [|done].
    simpl in Hb. injection Hb as <-. unfold id.
    specialize (H i img Hi). apply Bool.eqb_true_iff.
    destruct (visible img), (Z.eqb_spec (Z.of_nat i) cursor);
      try done; intuition congruence.
Qed.

Lemma gallery_invb_spec g : gallery_invb g = true ↔ gallery_inv g.
Proof.
  unfold gallery_invb, gallery_inv.
  rewrite !andb_true_iff, Z.leb_le, Z.ltb_lt, only_visibleb_spec. tauto.
Qed.

(** ** The transition *)

(** Requests out of range or for the current slide return at once. *)
Lemma showImage_skip g newIndex :
  newIndex < 0 ∨ images_length g ≤ newIndex ∨ newIndex = currentIndex g →
  Captioned.showImage newIndex g = Returned tt g.
Proof.
  intros H. unfold Captioned.showImage, mbind, JS_bind, get.
  assert ((newIndex <? 0) || (newIndex >=? images_length g)
          || (newIndex =? currentIndex g) = true) as ->; [|done].
  rewrite !orb_true_iff, Z.ltb_lt, Z.geb_le, Z.eqb_eq. lia.
Qed.

(** An effective transition: the three assignments always happen; the
    counter write throws when the counter element is missing, and only
    after it is the caption rendered. *)
Lemma showImage_move g newIndex :
  0 ≤ currentIndex g < images_length g →
  0 ≤ newIndex < images_length g →
  newIndex ≠ currentIndex g →
  Captioned.showImage newIndex g =
  match galleryIndexEl g with
  | None => Threw TypeError (moved newIndex g)
  | Some el =>
      Captioned.updateCaption None
        (set_index_el
           (withTextContent (counter_text (moved newIndex g)) el)
           (moved newIndex g))
  end.
Proof.
  intros Hc Hn Hne. unfold Captioned.showImage, mbind, JS_bind, get.
  assert ((newIndex <? 0) || (newIndex >=? images_length g)
          || (newIndex =? currentIndex g) = false) as ->.
  { rewrite !orb_false_iff, Z.ltb_ge, Z.geb_leb, Z.leb_gt, Z.eqb_neq. lia. }
  destruct (at_index_in_range (images g) (currentIndex g) Hc) as [old Hold].
  destruct (at_index_in_range (images g) newIndex Hn) as [new Hnew].
  unfold image_classList, mbind, JS_bind, get. rewrite Hold.
  unfold modify at 1. cbn [images set_images dom gallery_img].
  apply at_index_Some in Hold as [_ Hold].
  apply at_index_Some in Hnew as [_ Hnew].
  rewrite (insert_as_alter _ _ _ _ Hold).
  assert (Hnew' : at_index
            (alter (withClassList (DOMTokenList.add "hidden-img"))
               (Z.to_nat (currentIndex g)) (images g)) newIndex
            = Some new).
  { apply at_index_Some. split; [lia|].
    rewrite list_lookup_alter_ne by lia. exact Hnew. }
  rewrite Hnew'. unfold modify.
  cbn [images set_images dom gallery_img].
  rewrite (insert_as_alter _ _ _ new)
    by (rewrite list_lookup_alter_ne by lia; exact Hnew).
  unfold galleryIndexEl_set_textContent, mbind, JS_bind, get, galleryIndexEl.
  cbn [set_currentIndex set_images dom gallery_index].
  fold (images g).
  destruct (gallery_index (dom g)) as [el|] eqn:Hel; reflexivity.
Qed.

(** The caption update never throws, and touches the caption only. *)
Lemma updateCaption_spec index g :
  Captioned.updateCaption index g =
  Returned tt
    match galleryCaption g with
    | Some el =>
        set_caption_el
          (withTextContent
             (Captioned.caption_text (default (currentIndex g) index)) el) g
    | None => g
    end.
Proof.
  unfold Captioned.updateCaption, mbind, JS_bind, get.
  destruct (galleryCaption g); reflexivity.
Qed.

Lemma updateCaption_frame index g :
  let g' := state_of (Captioned.updateCaption index g) in
  images g' = images g ∧ currentIndex g' = currentIndex g
  ∧ prevBtn g' = prevBtn g ∧ nextBtn g' = nextBtn g
  ∧ galleryIndexEl g' = galleryIndexEl g.
Proof.
  rewrite updateCaption_spec. destruct (galleryCaption g); done.
Qed.

(** What an effective transition leaves in the state, thrown or not. *)
Lemma showImage_move_state g newIndex :
  0 ≤ currentIndex g < images_length g →
  0 ≤ newIndex < images_length g →
  newIndex ≠ currentIndex g →
  let g' := state_of (Captioned.showImage newIndex g) in
  images g' = images (moved newIndex g) ∧ currentIndex g' = newIndex
  ∧ prevBtn g' = prevBtn g ∧ nextBtn g' = nextBtn g.
Proof.
  intros Hc Hn Hne. rewrite showImage_move by done.
  destruct (galleryIndexEl g) as [el|]; [|done].
  rewrite updateCaption_spec. cbn [state_of].
  match goal with |- context [galleryCaption ?x] =>
    destruct (galleryCaption x) end; done.
Qed.

(** ** Preservation of the invariant *)

Lemma gallery_inv_ext g g' :
  images g' = images g → currentIndex g' = currentIndex g →
  gallery_inv g → gallery_inv g'.
Proof.
  unfold gallery_inv, images_length. intros -> ->. done.
Qed.

Lemma length_moved newIndex g :
  length (images (moved newIndex g)) = length (images g).
Proof. cbn. now rewrite !length_alter. Qed.

Lemma moved_only_visible g newIndex :
  gallery_inv g →
  0 ≤ newIndex < images_length g →
  only_visible newIndex (images (moved newIndex g)).
Proof.
  intros [Hc Hvis] Hn i img. cbn [moved images set_currentIndex set_images
    dom gallery_img]. fold (images g).
  destruct (decide (i = Z.to_nat newIndex)) as [->|Hin].
  - rewrite list_lookup_alter_eq.
    intros [y [_ ->]]%fmap_Some. rewrite visible_remove. split; [lia|done].
  - rewrite list_lookup_alter_ne by done.
    destruct (decide (i = Z.to_nat (currentIndex g))) as [->|Hic].
    + rewrite list_lookup_alter_eq.
      intros [y [_ ->]]%fmap_Some. rewrite visible_add. split; [done|lia].
    + rewrite list_lookup_alter_ne by done. intros Hi.
      rewrite (Hvis i img Hi). lia.
Qed.

Lemma moved_inv g newIndex :
  gallery_inv g → 0 ≤ newIndex < images_length g →
  gallery_inv (moved newIndex g).
Proof.
  intros Hinv Hn. split.
  - unfold images_length. rewrite length_moved. exact Hn.
  - now apply moved_only_visible.
Qed.

Lemma showImage_inv g newIndex :
  gallery_inv g → gallery_inv (state_of (Captioned.showImage newIndex g)).
Proof.
  intros Hinv.
  destruct (decide (0 ≤ newIndex < images_length g
                    ∧ newIndex ≠ currentIndex g)) as [[Hn Hne]|Hskip].
  - destruct (showImage_move_state g newIndex (proj1 Hinv) Hn Hne)
      as (Hi & Hc & _).
    eapply gallery_inv_ext; [exact Hi|..]; [|now apply moved_inv].
    rewrite Hc. reflexivity.
  - rewrite showImage_skip by lia. exact Hinv.
Qed.

Lemma showImage_wired g newIndex :
  0 ≤ currentIndex g < images_length g →
  wired g → wired (state_of (Captioned.showImage newIndex g)).
Proof.
  intros Hc Hw.
  destruct (decide (0 ≤ newIndex < images_length g
                    ∧ newIndex ≠ currentIndex g)) as [[Hn Hne]|Hskip].
  - destruct (showImage_move_state g newIndex Hc Hn Hne)
      as (_ & _ & Hp & Hx).
    unfold wired. now rewrite Hp, Hx.
  - rewrite showImage_skip by lia. exact Hw.
Qed.

Lemma showImage_length g newIndex :
  0 ≤ currentIndex g < images_length g →
  images_length (state_of (Captioned.showImage newIndex g))
  = images_length g.
Proof.
  intros Hc.
  destruct (decide (0 ≤ newIndex < images_length g
                    ∧ newIndex ≠ currentIndex g)) as [[Hn Hne]|Hskip].
  - destruct (showImage_move_state g newIndex Hc Hn Hne) as (Hi & _).
    unfold images_length. now rewrite Hi, length_moved.
  - now rewrite showImage_skip by lia.
Qed.

(** ** The listeners *)

Lemma onPrevClick_spec g :
  Captioned.onPrevClick g =
  if decide (0 < currentIndex g)
  then Captioned.showImage (currentIndex g - 1) g else Returned tt g.
Proof.
  unfold Captioned.onPrevClick, mbind, JS_bind, get.
  destruct (Z.gtb_spec (currentIndex g) 0), (decide (0 < currentIndex g));
    try lia; reflexivity.
Qed.

Lemma onNextClick_spec g :
  Captioned.onNextClick g =
  if decide (currentIndex g < images_length g - 1)
  then Captioned.showImage (currentIndex g + 1) g else Returned tt g.
Proof.
  unfold Captioned.onNextClick, mbind, JS_bind, get.
  destruct (Z.ltb_spec (currentIndex g) (images_length g - 1)),
    (decide (currentIndex g < images_length g - 1)); try lia; reflexivity.
Qed.

(** Whatever every listener preserves is preserved by a click and by a
    sequence of activations, thrown exceptions included. *)
Section Preservation.

Variable handle : Listener → JS unit.
Variable P : Gallery → Prop.
Hypothesis handle_preserves : ∀ l g, P g → P (state_of (handle l g)).

Lemma dispatchEvent_preserves ls g :
  P g → P (state_of (dispatchEvent handle ls g)).
Proof.
  revert g. induction ls as [|l ls IH]; intros g Hg; [exact Hg|].
  cbn [dispatchEvent]. pose proof (handle_preserves l g Hg) as Hl.
  destruct (handle l g) as [[] g'|e g']; cbn [state_of] in *; now apply IH.
Qed.

Lemma click_preserves c g : P g → P (state_of (click handle c g)).
Proof.
  intros Hg. unfold click, mbind, JS_bind, get.
  destruct (match c with PrevBtn => prevBtn g | NextBtn => nextBtn g end);
    [now apply dispatchEvent_preserves | exact Hg].
Qed.

Lemma activations_preserves cs g :
  P g → ∃ g', activations handle cs (Active g) = Active g' ∧ P g'.
Proof.
  revert g. induction cs as [|c cs IH]; intros g Hg; [by exists g|].
  cbn [activations activate]. pose proof (click_preserves c g Hg) as Hc.
  destruct (click handle c g) as [[] g'|e g']; cbn [state_of] in *;
    now apply IH.
Qed.

End Preservation.

Lemma handle_stable n l g :
  stable n g → stable n (state_of (Captioned.handle l g)).
Proof.
  intros (Hinv & Hlen). pose proof (proj1 Hinv) as Hc.
  destruct l; cbn [Captioned.handle];
    rewrite ?onPrevClick_spec, ?onNextClick_spec; case_decide;
    try (split; done);
    (split; [now apply showImage_inv | now rewrite showImage_length]).
Qed.

Lemma handle_wired n l g :
  stable n g ∧ wired g →
  stable n (state_of (Captioned.handle l g))
  ∧ wired (state_of (Captioned.handle l g)).
Proof.
  intros [Hs Hw]. split; [now apply handle_stable|].
  pose proof (proj1 (proj1 Hs)) as Hc.
  destruct l; cbn [Captioned.handle];
    rewrite ?onPrevClick_spec, ?onNextClick_spec; case_decide;
    try done; now apply showImage_wired.
Qed.

(** ** Construction *)

Lemma required_missing_false c :
  required_missing c = false ↔
  gallery_img c ≠ [] ∧ is_Some (gallery_left_arrow c)
  ∧ is_Some (gallery_right_arrow c).
Proof.
  unfold required_missing.
  rewrite !orb_false_iff, !negb_false_iff, !bool_decide_eq_true, Z.eqb_neq.
  destruct (gallery_img c); cbn [length]; split.
  - intros [[H _] _]. lia.
  - intros (H & _). done.
  - intros [[_ ?] ?]. done.
  - intros (_ & ? & ?). split_and!; [lia|done..].
Qed.

Lemma required_missing_true c :
  required_missing c = true ↔
  gallery_img c = [] ∨ gallery_left_arrow c = None
  ∨ gallery_right_arrow c = None.
Proof.
  destruct (required_missing c) eqn:E.
  - split; [intros _|done].
    destruct (gallery_img c) eqn:Hi; [by left|].
    destruct (gallery_left_arrow c) eqn:Hl; [|by right; left].
    destruct (gallery_right_arrow c) eqn:Hr; [|by right; right].
    assert (required_missing c = false); [|congruence].
    apply required_missing_false. rewrite Hi, Hl, Hr. split_and!; done.
  - split; [done|]. apply required_missing_false in E as (Hi & [? Hl] & [? Hr]).
    rewrite Hl, Hr. intros [?|[?|?]]; done.
Qed.

(** When the required elements are there, construction completes and
    leaves this state. *)
Lemma createImageGallery_active c :
  required_missing c = false →
  ∃ g prev next,
    Captioned.createImageGallery (Some c) = Returned tt (Active g)
    ∧ gallery_left_arrow c = Some prev ∧ gallery_right_arrow c = Some next
    ∧ currentIndex g = Z.max (findIndex not_hidden (gallery_img c)) 0
    ∧ images g = toggled (currentIndex g) (gallery_img c)
    ∧ prevBtn g = Some (withListener PrevClick prev)
    ∧ nextBtn g = Some (withListener NextClick next)
    ∧ galleryIndexEl g = gallery_index c
    ∧ caption g
      = (λ _, Captioned.caption_text (currentIndex g)) <$> gallery_caption c.
Proof.
  intros Hreq. pose proof Hreq as Hreq'.
  apply required_missing_false in Hreq' as (_ & [prev Hp] & [next Hx]).
  unfold Captioned.createImageGallery. rewrite Hreq.
  unfold Captioned.init, mbind, JS_bind, modify.
  rewrite updateCaption_spec.
  unfold addEventListener, mbind, JS_bind, get, modify, throw, prevBtn,
    nextBtn, galleryCaption.
  destruct c as [imgs l r idx cap]. cbn in Hp, Hx. subst l r.
  destruct cap as [el|]; cbn; eexists _, prev, next; split_and!; reflexivity.
Qed.

Lemma toggled_only_visible cursor imgs :
  only_visible cursor (toggled cursor imgs).
Proof.
  intros i img. unfold toggled. rewrite list_lookup_imap.
  intros [y [_ ->]]%fmap_Some. unfold DOMTokenList.toggle.
  destruct (Z.eqb_spec (Z.of_nat i) cursor); cbn [negb].
  - now rewrite visible_remove.
  - rewrite visible_add. split; [discriminate|done].
Qed.

Lemma createImageGallery_stable c g :
  Captioned.createImageGallery (Some c) = Returned tt (Active g) →
  stable (Z.of_nat (length (gallery_img c))) g.
Proof.
  intros Hg. destruct (required_missing c) eqn:Hreq.
  { unfold Captioned.createImageGallery in Hg. now rewrite Hreq in Hg. }
  destruct (createImageGallery_active c Hreq)
    as (g' & prev & next & Hg' & _ & _ & Hcur & Himg & _).
  rewrite Hg' in Hg. injection Hg as ->.
  apply required_missing_false in Hreq as (Hne & _).
  assert (Hlen : images_length g = Z.of_nat (length (gallery_img c))).
  { unfold images_length. rewrite Himg. unfold toggled.
    now rewrite length_imap. }
  split; [split|exact Hlen].
  - rewrite Hlen, Hcur.
    pose proof (findIndex_range not_hidden (gallery_img c)).
    destruct (gallery_img c); [done|]. cbn [length] in *. lia.
  - rewrite Himg. apply toggled_only_visible.
Qed.

Lemma createImageGallery_wired c g :
  pristine c →
  Captioned.createImageGallery (Some c) = Returned tt (Active g) →
  wired g.
Proof.
  intros [Hl Hr] Hg. destruct (required_missing c) eqn:Hreq.
  { unfold Captioned.createImageGallery in Hg. now rewrite Hreq in Hg. }
  destruct (createImageGallery_active c Hreq)
    as (g' & prev & next & Hg' & Hp & Hx & _ & _ & Hpb & Hnb & _).
  rewrite Hg' in Hg. injection Hg as ->.
  unfold wired. rewrite Hpb, Hnb. cbn.
  now rewrite (Hl prev Hp), (Hr next Hx).
Qed.

(** ** The two versions side by side *)

Lemma same_but_caption_refl g : same_but_caption g g.
Proof. unfold same_but_caption. done. Qed.

Lemma same_showImage newIndex g1 g2 :
  same_but_caption g1 g2 →
  same_outcome (Plain.showImage newIndex g1)
    (Captioned.showImage newIndex g2).
Proof.
  destruct g1 as [[imgs l r idx cap1] cur1], g2 as [[imgs2 l2 r2 idx2 cap2] cur2].
  unfold same_but_caption, images, prevBtn, nextBtn, galleryIndexEl.
  cbn. intros (<- & <- & <- & <- & <-).
  unfold Plain.showImage, Captioned.showImage, mbind, JS_bind, get,
    images_length, images. cbn [dom gallery_img currentIndex].
  destruct ((newIndex <? 0) || (newIndex >=? Z.of_nat (length imgs))) eqn:Hr;
    cbn [orb].
  { split; done. }
  destruct (newIndex =? cur1) eqn:Hc.
  { split; done. }
  unfold image_classList, mbind, JS_bind, get, images, throw, modify.
  cbn [dom gallery_img currentIndex set_images].
  destruct (at_index imgs cur1) as [old|]; [|split; done].
  cbn [dom gallery_img currentIndex set_images].
  destruct (at_index _ newIndex) as [new|]; [|split; done].
  unfold galleryIndexEl_set_textContent, mbind, JS_bind, get, galleryIndexEl,
    throw, modify.
  cbn [dom gallery_index set_currentIndex set_images].
  destruct idx as [el|]; [|split; done].
  rewrite updateCaption_spec. unfold galleryCaption. cbn.
  destruct cap2; split; done.
Qed.

Lemma same_handle l g1 g2 :
  same_but_caption g1 g2 →
  same_outcome (Plain.handle l g1) (Captioned.handle l g2).
Proof.
  intros Hs. pose proof Hs as (Hc & Hi & _).
  destruct l; cbn [Plain.handle Captioned.handle];
    unfold Plain.onPrevClick, Captioned.onPrevClick, Plain.onNextClick,
      Captioned.onNextClick, mbind, JS_bind, get, images_length;
    rewrite ?Hc, ?Hi.
  - destruct (currentIndex g2 >? 0); [now apply same_showImage|].
    split; done.
  - destruct (currentIndex g2 <? Z.of_nat (length (images g2)) - 1);
      [now apply same_showImage|]. split; done.
Qed.

Lemma same_dispatchEvent ls g1 g2 :
  same_but_caption g1 g2 →
  same_outcome (dispatchEvent Plain.handle ls g1)
    (dispatchEvent Captioned.handle ls g2).
Proof.
  revert g1 g2. induction ls as [|l ls IH]; intros g1 g2 Hs.
  { split; done. }
  cbn [dispatchEvent]. destruct (same_handle l g1 g2 Hs) as [Ht Hs'].
  destruct (Plain.handle l g1) as [[] g1'|e1 g1'],
    (Captioned.handle l g2) as [[] g2'|e2 g2']; cbn in Ht, Hs'; try done.
  - now apply IH.
  - split; [done|]. cbn [state_of]. now apply IH.
Qed.

Lemma same_click c g1 g2 :
  same_but_caption g1 g2 →
  same_outcome (click Plain.handle c g1) (click Captioned.handle c g2).
Proof.
  intros Hs. pose proof Hs as (_ & _ & Hp & Hn & _).
  unfold click, mbind, JS_bind, get. rewrite Hp, Hn.
  destruct (match c with PrevBtn => prevBtn g2 | NextBtn => nextBtn g2 end);
    [now apply same_dispatchEvent | split; done].
Qed.

Lemma same_activate c p1 p2 :
  same_page p1 p2 →
  throws (activate Plain.handle c p1) = throws (activate Captioned.handle c p2)
  ∧ same_page (state_of (activate Plain.handle c p1))
      (state_of (activate Captioned.handle c p2)).
Proof.
  destruct p1 as [d1|g1], p2 as [d2|g2]; cbn [same_page]; try done.
  intros Hs. cbn [activate]. destruct (same_click c g1 g2 Hs) as [Ht Hs'].
  destruct (click Plain.handle c g1) as [[] g1'|e1 g1'],
    (click Captioned.handle c g2) as [[] g2'|e2 g2']; done.
Qed.

Lemma same_activations cs p1 p2 :
  same_page p1 p2 →
  same_page (activations Plain.handle cs p1)
    (activations Captioned.handle cs p2).
Proof.
  revert p1 p2. induction cs as [|c cs IH]; intros p1 p2 Hs; [exact Hs|].
  cbn [activations]. apply IH. now apply same_activate.
Qed.

(** The two forEach bodies do the same to every slide. *)
Lemma toggled_plain cursor imgs :
  imap (λ index img,
     if Z.of_nat index =? cursor
     then withClassList (DOMTokenList.remove "hidden-img") img
     else withClassList (DOMTokenList.add "hidden-img") img) imgs
  = toggled cursor imgs.
Proof.
  unfold toggled. apply imap_ext. intros i img _.
  unfold DOMTokenList.toggle. now destruct (Z.of_nat i =? cursor).
Qed.

(** The two ways of defaulting the initial cursor agree. *)
Lemma initial_cursor_plain imgs :
  (if findIndex not_hidden imgs =? -1 then 0 else findIndex not_hidden imgs)
  = Z.max (findIndex not_hidden imgs) 0.
Proof.
  pose proof (findIndex_range not_hidden imgs).
  destruct (Z.eqb_spec (findIndex not_hidden imgs) (-1)); lia.
Qed.

Lemma same_createImageGallery d :
  throws (Plain.createImageGallery d) = throws (Captioned.createImageGallery d)
  ∧ same_page (state_of (Plain.createImageGallery d))
      (state_of (Captioned.createImageGallery d)).
Proof.
  destruct d as [c|]; [|done].
  unfold Plain.createImageGallery, Captioned.createImageGallery.
  destruct (required_missing c) eqn:Hreq; [done|].
  apply required_missing_false in Hreq as (_ & [prev Hp] & [next Hx]).
  cbv zeta. rewrite initial_cursor_plain.
  unfold Plain.init, Captioned.init, mbind, JS_bind, modify.
  rewrite toggled_plain. fold (toggled (Z.max (findIndex not_hidden (gallery_img c)) 0) (gallery_img c)).
  rewrite updateCaption_spec.
  unfold addEventListener, mbind, JS_bind, get, modify, throw, prevBtn,
    nextBtn, galleryCaption.
  destruct c as [imgs l r idx cap]. cbn in Hp, Hx. subst l r.
  destruct cap; cbn; unfold same_but_caption; done.
Qed.

(** * The properties of the specification *)

(** C1.  In a state that satisfies the invariant, [showImage] at a valid
    index other than the cursor leaves exactly one slide visible, the one
    at that index; the slide that was at the cursor is hidden.  This holds
    of the state the call leaves whether or not the counter write threw. *)
Theorem showImage_shows_target g targetIndex :
  gallery_inv g →
  0 ≤ targetIndex < images_length g →
  targetIndex ≠ currentIndex g →
  let g' := state_of (Captioned.showImage targetIndex g) in
  only_visible targetIndex (images g')
  ∧ (∃ img, at_index (images g') targetIndex = Some img ∧ visible img = true)
  ∧ (∃ img, at_index (images g') (currentIndex g) = Some img
            ∧ hidden img = true)
  ∧ images_length g' = images_length g
  ∧ currentIndex g' = targetIndex.
Proof.
  intros Hinv Hn Hne g'. pose proof (proj1 Hinv) as Hc.
  destruct (showImage_move_state g targetIndex Hc Hn Hne) as (Hi & Hcur & _).
  fold g' in Hi, Hcur.
  assert (Hlen : images_length g' = images_length g).
  { unfold images_length. now rewrite Hi, length_moved. }
  assert (Hvis : only_visible targetIndex (images g')).
  { rewrite Hi. now apply moved_only_visible. }
  split_and!; [done| | |done..].
  - destruct (at_index_in_range (images g') targetIndex) as [img Himg].
    { fold (images_length g'). lia. }
    exists img. split; [done|]. apply at_index_Some in Himg as [? Himg].
    apply (Hvis _ _ Himg). lia.
  - destruct (at_index_in_range (images g') (currentIndex g))
      as [img Himg].
    { fold (images_length g'). lia. }
    exists img. split; [done|]. apply at_index_Some in Himg as [? Himg].
    pose proof (Hvis _ _ Himg) as Hiff. unfold visible in Hiff.
    destruct (hidden img); [done|]. cbn in Hiff.
    assert (Z.of_nat (Z.to_nat (currentIndex g)) = targetIndex)
      by now apply Hiff.
    lia.
Qed.

Lemma showImage_shows_target_witness :
  let g' := state_of (Captioned.showImage 4 gallery7) in
  only_visible 4 (images g')
  ∧ (∃ img, at_index (images g') 4 = Some img ∧ visible img = true)
  ∧ (∃ img, at_index (images g') (currentIndex gallery7) = Some img
            ∧ hidden img = true)
  ∧ images_length g' = images_length gallery7
  ∧ currentIndex g' = 4.
Proof.
  apply (showImage_shows_target gallery7 4).
  - apply gallery_invb_spec. vm_compute. reflexivity.
  - vm_compute. split; [discriminate|reflexivity].
  - vm_compute. discriminate.
Defined.

(** C2.  Over markup with at least one slide and both arrows, construction
    completes in a state where the cursor is in [0, N-1], the slide at the
    cursor is visible and every other slide is hidden; every sequence of
    activations of the previous and next controls leads to such a state
    again, with the same number of slides. *)
Theorem gallery_invariant c :
  gallery_img c ≠ [] →
  is_Some (gallery_left_arrow c) →
  is_Some (gallery_right_arrow c) →
  ∃ g,
    Captioned.createImageGallery (Some c) = Returned tt (Active g)
    ∧ gallery_inv g
    ∧ images_length g = Z.of_nat (length (gallery_img c))
    ∧ ∀ cs, ∃ g',
        activations Captioned.handle cs (Active g) = Active g'
        ∧ gallery_inv g'
        ∧ images_length g' = images_length g.
Proof.
  intros Hi Hl Hr.
  assert (Hreq : required_missing c = false)
    by now apply required_missing_false.
  destruct (createImageGallery_active c Hreq) as (g & _ & _ & Hg & _).
  pose proof (createImageGallery_stable c g Hg) as Hs.
  exists g. destruct Hs as [Hinv Hlen]. split_and!; [done..|].
  intros cs.
  destruct (activations_preserves Captioned.handle
              (stable (images_length g)) (handle_stable _) cs g)
    as (g' & Hg' & Hinv' & Hlen'); [done|].
  exists g'. done.
Qed.

Lemma gallery_invariant_witness :
  ∃ g,
    Captioned.createImageGallery (Some markup7) = Returned tt (Active g)
    ∧ gallery_inv g
    ∧ images_length g = Z.of_nat (length (gallery_img markup7))
    ∧ ∀ cs, ∃ g',
        activations Captioned.handle cs (Active g) = Active g'
        ∧ gallery_inv g'
        ∧ images_length g' = images_length g.
Proof.
  apply (gallery_invariant markup7).
  - discriminate.
  - eexists. reflexivity.
  - eexists. reflexivity.
Defined.

(** C3.  [showImage] at an index below 0, at or above N, or equal to the
    cursor returns normally and leaves the whole state as it was: cursor,
    hidden markers, counter text and caption text. *)
Theorem showImage_noop g targetIndex :
  targetIndex < 0 ∨ images_length g ≤ targetIndex
  ∨ targetIndex = currentIndex g →
  Captioned.showImage targetIndex g = Returned tt g
  ∧ let g' := state_of (Captioned.showImage targetIndex g) in
    currentIndex g' = currentIndex g
    ∧ hidden <$> images g' = hidden <$> images g
    ∧ counter g' = counter g
    ∧ caption g' = caption g.
Proof.
  intros H. rewrite showImage_skip by exact H. done.
Qed.

Lemma showImage_noop_witness :
  (Captioned.showImage 7 gallery7 = Returned tt gallery7
   ∧ let g' := state_of (Captioned.showImage 7 gallery7) in
     currentIndex g' = currentIndex gallery7
     ∧ hidden <$> images g' = hidden <$> images gallery7
     ∧ counter g' = counter gallery7
     ∧ caption g' = caption gallery7)
  ∧ (Captioned.showImage 2 gallery7 = Returned tt gallery7
     ∧ let g' := state_of (Captioned.showImage 2 gallery7) in
       currentIndex g' = currentIndex gallery7
       ∧ hidden <$> images g' = hidden <$> images gallery7
       ∧ counter g' = counter gallery7
       ∧ caption g' = caption gallery7).
Proof.
  split.
  - apply (showImage_noop gallery7 7). right. left. vm_compute. discriminate.
  - apply (showImage_noop gallery7 2). right. right. reflexivity.
Defined.

(** The first visible slide decides the initial cursor. *)
Lemma findIndex_only_visible cursor imgs :
  0 ≤ cursor < Z.of_nat (length imgs) →
  only_visible cursor imgs →
  findIndex not_hidden imgs = cursor.
Proof.
  intros Hc Hvis.
  destruct (lookup_lt_is_Some_2 imgs (Z.to_nat cursor)) as [img Himg]; [lia|].
  rewrite <- (Z2Nat.id cursor) by lia.
  apply findIndex_found. exists img. split_and!; [done| |].
  - apply (Hvis _ _ Himg). lia.
  - intros j y Hy Hj.
    pose proof (Hvis _ _ Hy) as Hiff. change (visible y = false).
    destruct (visible y); [|done].
    assert (Z.of_nat j = cursor) by now apply Hiff. lia.
Qed.

(** Without a counter element an effective transition throws, after the
    slides and the cursor changed and before the caption is rendered. *)
Lemma showImage_without_counter g newIndex :
  0 ≤ currentIndex g < images_length g →
  0 ≤ newIndex < images_length g →
  newIndex ≠ currentIndex g →
  galleryIndexEl g = None →
  Captioned.showImage newIndex g = Threw TypeError (moved newIndex g).
Proof.
  intros Hc Hn Hne Hel. rewrite showImage_move by done. now rewrite Hel.
Qed.

(** With a counter element an effective transition completes, and renders
    the caption of the new cursor. *)
Lemma showImage_with_counter g newIndex el :
  0 ≤ currentIndex g < images_length g →
  0 ≤ newIndex < images_length g →
  newIndex ≠ currentIndex g →
  galleryIndexEl g = Some el →
  ∃ g', Captioned.showImage newIndex g = Returned tt g'
        ∧ counter g'
          = Some (pretty (newIndex + 1) +:+ " / "
                  +:+ pretty (images_length g))
        ∧ caption g'
          = (λ _, Captioned.caption_text newIndex) <$> galleryCaption g.
Proof.
  intros Hc Hn Hne Hel. rewrite showImage_move, Hel, updateCaption_spec by done.
  eexists. split; [reflexivity|].
  unfold counter_text, images_length. rewrite length_moved.
  destruct g as [[imgs l r idx cap] cur]. destruct cap; split; reflexivity.
Qed.

(** Past the end of the caption table the rendered name is empty. *)
Lemma caption_text_beyond index :
  Z.of_nat (length Captioned.catNames) ≤ index →
  Captioned.caption_text index = "Meet ".
Proof.
  intros H. unfold Captioned.caption_text, at_index.
  destruct (Z.ltb_spec index 0); [done|].
  rewrite lookup_ge_None_2 by lia. reflexivity.
Qed.

(** With both the counter and the caption regions present, a transition to
    an index past the caption table completes and renders "Meet ". *)
Lemma showImage_beyond_catNames g newIndex :
  0 ≤ currentIndex g < images_length g →
  Z.of_nat (length Captioned.catNames) ≤ newIndex < images_length g →
  newIndex ≠ currentIndex g →
  is_Some (galleryIndexEl g) →
  is_Some (galleryCaption g) →
  ∃ g', Captioned.showImage newIndex g = Returned tt g'
        ∧ caption g' = Some "Meet ".
Proof.
  intros Hc Hn Hne [el Hel] [cap Hcap].
  destruct (showImage_with_counter g newIndex el) as (g' & Hg' & _ & Hcap');
    [done|lia|done..|].
  exists g'. split; [done|].
  rewrite Hcap', Hcap. cbn. now rewrite caption_text_beyond by lia.
Qed.

(** C5, at the failing input.  Over [markup2_no_counter] (two slides, both
    arrows, a caption region, no counter region) construction completes
    with the cursor at 0, and the first activation of the next control
    throws a TypeError: the cursor is then 1 and the caption region still
    shows the name of slide 0. *)
Theorem missing_counter_throws :
  ∃ g g',
    Captioned.createImageGallery (Some markup2_no_counter)
    = Returned tt (Active g)
    ∧ currentIndex g = 0
    ∧ caption g = Some "Meet Oliver"
    ∧ click Captioned.handle NextBtn g = Threw TypeError g'
    ∧ currentIndex g' = 1
    ∧ hidden <$> images g' = [true; false]
    ∧ caption g' = Some "Meet Oliver".
Proof.
  eexists _, _. split; [vm_compute; reflexivity|].
  split; [reflexivity|]. split; [reflexivity|].
  split; [vm_compute; reflexivity|]. split_and!; reflexivity.
Qed.

(** C8, at the failing input.  Over [markup8_no_counter] (eight slides, a
    caption region, no counter region) the cursor starts at 6; the
    activation of the next control moves it to 7, past the seven names, and
    throws a TypeError before the caption is rendered, so that the caption
    region keeps the name of slide 6 instead of showing "Meet ". *)
Theorem caption_beyond_names_without_counter :
  ∃ g g',
    Captioned.createImageGallery (Some markup8_no_counter)
    = Returned tt (Active g)
    ∧ currentIndex g = 6
    ∧ Z.of_nat (length Captioned.catNames) < images_length g
    ∧ click Captioned.handle NextBtn g = Threw TypeError g'
    ∧ currentIndex g' = 7
    ∧ caption g' = Some "Meet Bertie"
    ∧ caption g' ≠ Some "Meet ".
Proof.
  eexists _, _. split; [vm_compute; reflexivity|].
  split; [reflexivity|]. split; [reflexivity|].
  split; [vm_compute; reflexivity|].
  split; [reflexivity|]. split; [reflexivity|]. discriminate.
Qed.

(** C9.  When the previous arrow, the next arrow or every slide is missing
    from the container, construction returns normally, the page is inert
    and the container is the one it was given: no class list, no text and
    no listener list has changed.  Both versions do so. *)
Theorem createImageGallery_inert c :
  gallery_left_arrow c = None ∨ gallery_right_arrow c = None
  ∨ gallery_img c = [] →
  Captioned.createImageGallery (Some c) = Returned tt (Inert (Some c))
  ∧ Plain.createImageGallery (Some c) = Returned tt (Inert (Some c)).
Proof.
  intros H.
  assert (Hreq : required_missing c = true)
    by (apply required_missing_true; tauto).
  unfold Captioned.createImageGallery, Plain.createImageGallery.
  now rewrite Hreq.
Qed.

Lemma createImageGallery_inert_witness :
  Captioned.createImageGallery (Some markup7_no_prev)
  = Returned tt (Inert (Some markup7_no_prev))
  ∧ Plain.createImageGallery (Some markup7_no_prev)
    = Returned tt (Inert (Some markup7_no_prev)).
Proof.
  apply (createImageGallery_inert markup7_no_prev). left. reflexivity.
Defined.

(** The caption-less construction completes whenever the captioned one
    does, with the same cursor and the same slides. *)
Lemma plain_createImageGallery_active c g :
  Captioned.createImageGallery (Some c) = Returned tt (Active g) →
  ∃ g0, Plain.createImageGallery (Some c) = Returned tt (Active g0)
        ∧ same_but_caption g0 g.
Proof.
  intros Hg. destruct (same_createImageGallery (Some c)) as [Ht Hs].
  rewrite Hg in Ht, Hs.
  destruct (Plain.createImageGallery (Some c)) as [[] [d|g0]|e p];
    cbn in Ht, Hs; try done.
  by exists g0.
Qed.

(** C6.  When construction goes through, the initial cursor is the index of
    the first slide in document order that does not carry the hidden
    marker, and 0 when every slide carries it; the two versions compute the
    same cursor. *)
Theorem initial_cursor_first_visible c :
  gallery_img c ≠ [] →
  is_Some (gallery_left_arrow c) →
  is_Some (gallery_right_arrow c) →
  ∃ g g0,
    Captioned.createImageGallery (Some c) = Returned tt (Active g)
    ∧ Plain.createImageGallery (Some c) = Returned tt (Active g0)
    ∧ currentIndex g0 = currentIndex g
    ∧ (∀ (i : nat) img,
         gallery_img c !! i = Some img → hidden img = false →
         (∀ (j : nat) img', gallery_img c !! j = Some img' → (j < i)%nat →
                            hidden img' = true) →
         currentIndex g = Z.of_nat i)
    ∧ ((∀ img, img ∈ gallery_img c → hidden img = true) →
       currentIndex g = 0).
Proof.
  intros Hi Hl Hr.
  assert (Hreq : required_missing c = false)
    by now apply required_missing_false.
  destruct (createImageGallery_active c Hreq)
    as (g & _ & _ & Hg & _ & _ & Hcur & _).
  destruct (plain_createImageGallery_active c g Hg) as (g0 & Hg0 & Hc0 & _).
  exists g, g0. split_and!; [done..| |].
  - intros i img Himg Hvis Hfirst. rewrite Hcur.
    assert (findIndex not_hidden (gallery_img c) = Z.of_nat i) as ->; [|lia].
    apply findIndex_found. exists img. split_and!; [done| |].
    + unfold not_hidden. fold (hidden img). now rewrite Hvis.
    + intros j y Hy Hj. unfold not_hidden. fold (hidden y).
      now rewrite (Hfirst j y Hy Hj).
  - intros Hall. rewrite Hcur.
    assert (findIndex not_hidden (gallery_img c) = -1) as ->; [|done].
    apply findIndex_none. intros x Hx. unfold not_hidden. fold (hidden x).
    now rewrite (Hall x Hx).
Qed.

Lemma initial_cursor_first_visible_witness :
  ∃ g g0,
    Captioned.createImageGallery (Some markup7) = Returned tt (Active g)
    ∧ Plain.createImageGallery (Some markup7) = Returned tt (Active g0)
    ∧ currentIndex g0 = currentIndex g
    ∧ (∀ (i : nat) img,
         gallery_img markup7 !! i = Some img → hidden img = false →
         (∀ (j : nat) img', gallery_img markup7 !! j = Some img' →
                            (j < i)%nat → hidden img' = true) →
         currentIndex g = Z.of_nat i)
    ∧ ((∀ img, img ∈ gallery_img markup7 → hidden img = true) →
       currentIndex g = 0).
Proof.
  apply (initial_cursor_first_visible markup7).
  - discriminate.
  - eexists. reflexivity.
  - eexists. reflexivity.
Defined.

(** A click on an arrow that carries exactly its own listener runs that
    listener once. *)
Lemma click_wired g :
  wired g →
  click Captioned.handle PrevBtn g = Captioned.onPrevClick g
  ∧ click Captioned.handle NextBtn g = Captioned.onNextClick g.
Proof.
  intros [Hp Hn]. unfold click, mbind, JS_bind, get.
  destruct (prevBtn g) as [p|]; [|done]. destruct (nextBtn g) as [n|]; [|done].
  cbn in Hp, Hn. injection Hp as ->. injection Hn as ->.
  cbn [dispatchEvent Captioned.handle mret JS_ret].
  split.
  - destruct (Captioned.onPrevClick g) as [[] ?|? ?]; reflexivity.
  - destruct (Captioned.onNextClick g) as [[] ?|? ?]; reflexivity.
Qed.

(** C7.  In every state reached from the construction over markup that had
    no listener yet: at cursor 0 the previous control changes nothing, at
    cursor N-1 the next control changes nothing; elsewhere the previous
    control moves the cursor to cursor - 1 and the next control to
    cursor + 1. *)
Theorem arrows_stop_at_ends c cs g :
  pristine c →
  activations Captioned.handle cs
    (state_of (Captioned.createImageGallery (Some c))) = Active g →
  (currentIndex g = 0 → click Captioned.handle PrevBtn g = Returned tt g)
  ∧ (currentIndex g = images_length g - 1 →
     click Captioned.handle NextBtn g = Returned tt g)
  ∧ (0 < currentIndex g →
     currentIndex (state_of (click Captioned.handle PrevBtn g))
     = currentIndex g - 1)
  ∧ (currentIndex g < images_length g - 1 →
     currentIndex (state_of (click Captioned.handle NextBtn g))
     = currentIndex g + 1).
Proof.
  intros Hpr Hreach.
  assert (Hg : (gallery_inv g ∧ images_length g = images_length g)
               ∧ wired g).
  { destruct (required_missing c) eqn:Hreq.
    - unfold Captioned.createImageGallery in Hreach. rewrite Hreq in Hreach.
      cbn [state_of] in Hreach.
      assert (∀ cs d, activations Captioned.handle cs (Inert d) = Inert d)
        as Hin by (intros cs'; induction cs'; done).
      now rewrite Hin in Hreach.
    - destruct (createImageGallery_active c Hreq) as (g0 & _ & _ & Hg0 & _).
      rewrite Hg0 in Hreach. cbn [state_of] in Hreach.
      pose proof (createImageGallery_stable c g0 Hg0) as Hs0.
      pose proof (createImageGallery_wired c g0 Hpr Hg0) as Hw0.
      destruct (activations_preserves Captioned.handle
                  (λ g, stable (Z.of_nat (length (gallery_img c))) g
                        ∧ wired g)
                  (handle_wired _) cs g0) as (g' & Hg' & Hs' & Hw');
        [done|].
      rewrite Hg' in Hreach. injection Hreach as ->.
      split; [|done]. split; [apply Hs'|done]. }
  destruct Hg as [[Hinv _] Hw]. pose proof (proj1 Hinv) as Hc.
  destruct (click_wired g Hw) as [-> ->].
  rewrite onPrevClick_spec, onNextClick_spec. split_and!; intros H.
  - case_decide; [lia|done].
  - case_decide; [lia|done].
  - case_decide; [|lia].
    apply showImage_move_state; [done|lia|lia].
  - case_decide; [|lia].
    apply showImage_move_state; [done|lia|lia].
Qed.

Lemma arrows_stop_at_ends_witness :
  (currentIndex gallery7 = 0 →
   click Captioned.handle PrevBtn gallery7 = Returned tt gallery7)
  ∧ (currentIndex gallery7 = images_length gallery7 - 1 →
     click Captioned.handle NextBtn gallery7 = Returned tt gallery7)
  ∧ (0 < currentIndex gallery7 →
     currentIndex (state_of (click Captioned.handle PrevBtn gallery7))
     = currentIndex gallery7 - 1)
  ∧ (currentIndex gallery7 < images_length gallery7 - 1 →
     currentIndex (state_of (click Captioned.handle NextBtn gallery7))
     = currentIndex gallery7 + 1).
Proof.
  apply (arrows_stop_at_ends markup7 []).
  - split; intros b Hb; vm_compute in Hb; injection Hb as <-; reflexivity.
  - vm_compute. reflexivity.
Defined.

(** C10.  From the same container and under the same sequence of
    activations, the caption-less and the captioned version are inert
    together or live together, with the same cursor and the same hidden
    marker on every slide; the slides, the arrows and the counter region are
    equal as a whole, and construction throws in neither or in both. *)
Theorem versions_agree container cs :
  let plain :=
    activations Plain.handle cs
      (state_of (Plain.createImageGallery container)) in
  let captioned :=
    activations Captioned.handle cs
      (state_of (Captioned.createImageGallery container)) in
  same_page plain captioned
  ∧ match plain, captioned with
    | Inert d1, Inert d2 => d1 = d2
    | Active g1, Active g2 =>
        currentIndex g1 = currentIndex g2
        ∧ hidden <$> images g1 = hidden <$> images g2
        ∧ counter g1 = counter g2
    | _, _ => False
    end.
Proof.
  intros plain captioned.
  assert (Hs : same_page plain captioned).
  { apply same_activations, same_createImageGallery. }
  split; [exact Hs|].
  destruct plain as [d1|g1], captioned as [d2|g2]; cbn in Hs; try done.
  destruct Hs as (Hc & Hi & _ & _ & Hx). unfold counter.
  now rewrite Hc, Hi, Hx.
Qed.

(** Over [markup8], which has the counter region, the same activation
    completes and the caption region shows "Meet " with no name. *)
Example caption_beyond_names_with_counter :
  ∃ g',
    click Captioned.handle NextBtn gallery8 = Returned tt g'
    ∧ currentIndex g' = 7
    ∧ counter g' = Some "8 / 8"
    ∧ caption g' = Some "Meet ".
Proof.
  eexists. split; [vm_compute; reflexivity|]. split_and!; reflexivity.
Qed.

(** The caption scenario of the specification: a transition to index 4
    shows "Meet Mr Onions" and the counter "5 / 7". *)
Example caption_scenario :
  ∃ g',
    Captioned.showImage 4 gallery7 = Returned tt g'
    ∧ counter g' = Some "5 / 7"
    ∧ caption g' = Some "Meet Mr Onions".
Proof.
  eexists. split; [vm_compute; reflexivity|]. split; reflexivity.
Qed.

(** * Further properties of the gallery *)

(** Every state reached from the construction over pristine markup keeps the
    invariant, the number of slides and the wiring of the arrows. *)
Lemma reachable_stable_wired c cs g :
  pristine c →
  activations Captioned.handle cs
    (state_of (Captioned.createImageGallery (Some c))) = Active g →
  stable (Z.of_nat (length (gallery_img c))) g ∧ wired g.
Proof.
  intros Hpr Hreach. destruct (required_missing c) eqn:Hreq.
  - unfold Captioned.createImageGallery in Hreach. rewrite Hreq in Hreach.
    cbn [state_of] in Hreach.
    assert (∀ cs d, activations Captioned.handle cs (Inert d) = Inert d)
      as Hin by (intros cs'; induction cs'; done).
    now rewrite Hin in Hreach.
  - destruct (createImageGallery_active c Hreq) as (g0 & _ & _ & Hg0 & _).
    rewrite Hg0 in Hreach. cbn [state_of] in Hreach.
    pose proof (createImageGallery_stable c g0 Hg0) as Hs0.
    pose proof (createImageGallery_wired c g0 Hpr Hg0) as Hw0.
    destruct (activations_preserves Captioned.handle
                (λ g, stable (Z.of_nat (length (gallery_img c))) g ∧ wired g)
                (handle_wired _) cs g0) as (g' & Hg' & Hs'); [done|].
    rewrite Hg' in Hreach. now injection Hreach as ->.
Qed.

(** Without pristine markup the invariant still holds. *)
Lemma reachable_stable c cs g :
  activations Captioned.handle cs
    (state_of (Captioned.createImageGallery (Some c))) = Active g →
  stable (Z.of_nat (length (gallery_img c))) g.
Proof.
  intros Hreach. destruct (required_missing c) eqn:Hreq.
  - unfold Captioned.createImageGallery in Hreach. rewrite Hreq in Hreach.
    cbn [state_of] in Hreach.
    assert (∀ cs d, activations Captioned.handle cs (Inert d) = Inert d)
      as Hin by (intros cs'; induction cs'; done).
    now rewrite Hin in Hreach.
  - destruct (createImageGallery_active c Hreq) as (g0 & _ & _ & Hg0 & _).
    rewrite Hg0 in Hreach. cbn [state_of] in Hreach.
    pose proof (createImageGallery_stable c g0 Hg0) as Hs0.
    destruct (activations_preserves Captioned.handle
                (stable (Z.of_nat (length (gallery_img c))))
                (handle_stable _) cs g0) as (g' & Hg' & Hs'); [done|].
    rewrite Hg' in Hreach. now injection Hreach as ->.
Qed.

(** Under the invariant the hidden markers are a function of the cursor. *)
Lemma hidden_determined g g' :
  gallery_inv g → gallery_inv g' →
  currentIndex g' = currentIndex g →
  images_length g' = images_length g →
  hidden <$> images g' = hidden <$> images g.
Proof.
  intros [_ Hv] [_ Hv'] Hc Hlen. apply list_eq. intros i.
  rewrite !list_lookup_fmap.
  unfold images_length in Hlen. apply Nat2Z.inj in Hlen.
  destruct (images g !! i) as [x|] eqn:Hx.
  - destruct (lookup_lt_is_Some_2 (images g') i) as [y Hy].
    { rewrite Hlen. by eapply lookup_lt_Some. }
    rewrite Hy. cbn. f_equal.
    pose proof (Hv i x Hx) as H1. pose proof (Hv' i y Hy) as H2.
    rewrite Hc in H2. unfold visible in H1, H2.
    destruct (hidden x), (hidden y); cbn in *; try done; intuition congruence.
  - apply lookup_ge_None in Hx. rewrite lookup_ge_None_2; [done|lia].
Qed.

(** X1.  In a state reached from the construction over pristine markup,
    with the cursor not on the last slide, activating next and then
    previous brings back the cursor and the hidden marker of every slide;
    with the cursor not on the first slide, so does previous then next. *)
Theorem next_prev_round_trip c cs g :
  pristine c →
  activations Captioned.handle cs
    (state_of (Captioned.createImageGallery (Some c))) = Active g →
  (currentIndex g < images_length g - 1 →
   let g' := gallery_of (activations Captioned.handle [NextBtn; PrevBtn]
                           (Active g)) in
   currentIndex g' = currentIndex g
   ∧ hidden <$> images g' = hidden <$> images g)
  ∧ (0 < currentIndex g →
     let g' := gallery_of (activations Captioned.handle [PrevBtn; NextBtn]
                             (Active g)) in
     currentIndex g' = currentIndex g
     ∧ hidden <$> images g' = hidden <$> images g).
Proof.
  intros Hpr Hreach.
  destruct (reachable_stable_wired c cs g Hpr Hreach) as [Hs Hw].
  set (n := Z.of_nat (length (gallery_img c))) in *.
  assert (Hstep : ∀ ctl h, stable n h ∧ wired h →
            (stable n (state_of (click Captioned.handle ctl h))
             ∧ wired (state_of (click Captioned.handle ctl h)))).
  { intros ctl h Hh.
    apply (click_preserves Captioned.handle
             (λ g, stable n g ∧ wired g) (handle_wired n) ctl h Hh). }
  assert (Hmove : ∀ h, stable n h → wired h →
            (0 < currentIndex h →
             currentIndex (state_of (click Captioned.handle PrevBtn h))
             = currentIndex h - 1)
            ∧ (currentIndex h < n - 1 →
               currentIndex (state_of (click Captioned.handle NextBtn h))
               = currentIndex h + 1)).
  { intros h [Hinv Hlen] Hwh. pose proof (proj1 Hinv) as Hc.
    destruct (click_wired h Hwh) as [-> ->].
    rewrite onPrevClick_spec, onNextClick_spec. split; intros H.
    - case_decide; [|lia]. apply showImage_move_state; [done|lia|lia].
    - case_decide; [|lia]. apply showImage_move_state; [done|lia|lia]. }
  assert (Hfin : ∀ a b, currentIndex
                   (state_of (click Captioned.handle b
                      (state_of (click Captioned.handle a g))))
                 = currentIndex g →
            let g' := gallery_of (activations Captioned.handle [a; b]
                                    (Active g)) in
            currentIndex g' = currentIndex g
            ∧ hidden <$> images g' = hidden <$> images g).
  { intros a b Hcur g'.
    assert (Hg' : g' = state_of (click Captioned.handle b
                         (state_of (click Captioned.handle a g)))).
    { unfold g'. cbn [activations activate].
      destruct (click Captioned.handle a g) as [[] g1|e g1]; cbn [state_of];
      cbn [activate];
      destruct (click Captioned.handle b g1) as [[] g2|e2 g2]; done. }
    rewrite Hg'. split; [done|].
    destruct (Hstep a g (conj Hs Hw)) as [Hs1 Hw1].
    destruct (Hstep b _ (conj Hs1 Hw1)) as [[Hinv2 Hlen2] _].
    apply hidden_determined; [apply Hs|done|done|].
    rewrite Hlen2. symmetry. apply Hs. }
  destruct Hs as [Hinv Hlen]. pose proof (proj1 Hinv) as Hc.
  split; intros H; apply Hfin.
  - destruct (Hstep NextBtn g (conj (conj Hinv Hlen) Hw)) as [Hs1 Hw1].
    destruct (Hmove g (conj Hinv Hlen) Hw) as [_ Hn].
    destruct (Hmove _ Hs1 Hw1) as [Hp _].
    rewrite Hp; rewrite Hn; lia.
  - destruct (Hstep PrevBtn g (conj (conj Hinv Hlen) Hw)) as [Hs1 Hw1].
    destruct (Hmove g (conj Hinv Hlen) Hw) as [Hp _].
    destruct (Hmove _ Hs1 Hw1) as [_ Hn].
    rewrite Hn; rewrite Hp; lia.
Qed.

Lemma next_prev_round_trip_witness :
  (currentIndex gallery7 < images_length gallery7 - 1 →
   let g' := gallery_of (activations Captioned.handle [NextBtn; PrevBtn]
                           (Active gallery7)) in
   currentIndex g' = currentIndex gallery7
   ∧ hidden <$> images g' = hidden <$> images gallery7)
  ∧ (0 < currentIndex gallery7 →
     let g' := gallery_of (activations Captioned.handle [PrevBtn; NextBtn]
                             (Active gallery7)) in
     currentIndex g' = currentIndex gallery7
     ∧ hidden <$> images g' = hidden <$> images gallery7).
Proof.
  apply (next_prev_round_trip markup7 []).
  - split; intros b Hb; vm_compute in Hb; injection Hb as <-; reflexivity.
  - vm_compute. reflexivity.
Defined.

Lemma state_of_activate handle ctl g :
  state_of (activate handle ctl (Active g))
  = Active (state_of (click handle ctl g)).
Proof.
  cbn [activate]. destruct (click handle ctl g) as [[] g'|e g']; reflexivity.
Qed.

(** One click on a wired arrow, on the cursor. *)
Lemma click_cursor n g :
  stable n g → wired g →
  currentIndex (state_of (click Captioned.handle PrevBtn g))
  = Z.max (currentIndex g - 1) 0
  ∧ currentIndex (state_of (click Captioned.handle NextBtn g))
    = Z.min (currentIndex g + 1) (n - 1).
Proof.
  intros [Hinv Hlen] Hw. pose proof (proj1 Hinv) as Hc.
  destruct (click_wired g Hw) as [-> ->].
  rewrite onPrevClick_spec, onNextClick_spec. split; case_decide.
  - destruct (showImage_move_state g (currentIndex g - 1))
      as (_ & -> & _); lia.
  - cbn [state_of]. lia.
  - destruct (showImage_move_state g (currentIndex g + 1))
      as (_ & -> & _); lia.
  - cbn [state_of]. lia.
Qed.

Lemma repeated_clicks n k g :
  stable n g ∧ wired g →
  (∃ g', activations Captioned.handle (replicate k NextBtn) (Active g)
         = Active g'
         ∧ currentIndex g' = Z.min (currentIndex g + Z.of_nat k) (n - 1))
  ∧ (∃ g', activations Captioned.handle (replicate k PrevBtn) (Active g)
           = Active g'
           ∧ currentIndex g' = Z.max (currentIndex g - Z.of_nat k) 0).
Proof.
  revert g. induction k as [|k IH]; intros g [Hs Hw].
  - pose proof (proj1 (proj1 Hs)) as Hc. destruct Hs as [_ Hlen].
    split; exists g; (split; [done|]); lia.
  - destruct (click_cursor n g Hs Hw) as [Hp Hn].
    cbn [replicate activations]. rewrite !state_of_activate. split.
    + destruct (IH (state_of (click Captioned.handle NextBtn g)))
        as [(g' & Hg' & Hc') _].
      { apply (click_preserves Captioned.handle
                 (λ g, stable n g ∧ wired g) (handle_wired n)). done. }
      exists g'. split; [done|]. rewrite Hc', Hn. lia.
    + destruct (IH (state_of (click Captioned.handle PrevBtn g)))
        as [_ (g' & Hg' & Hc')].
      { apply (click_preserves Captioned.handle
                 (λ g, stable n g ∧ wired g) (handle_wired n)). done. }
      exists g'. split; [done|]. rewrite Hc', Hp. lia.
Qed.

(** X2.  In a state reached from the construction over pristine markup, k
    activations of next move the cursor to min(cursor + k, N - 1), and k
    activations of previous to max(cursor - k, 0): the arrows saturate at
    the ends and never wrap. *)
Theorem arrows_saturate c cs g k :
  pristine c →
  activations Captioned.handle cs
    (state_of (Captioned.createImageGallery (Some c))) = Active g →
  (∃ g', activations Captioned.handle (replicate k NextBtn) (Active g)
         = Active g'
         ∧ currentIndex g'
           = Z.min (currentIndex g + Z.of_nat k) (images_length g - 1))
  ∧ (∃ g', activations Captioned.handle (replicate k PrevBtn) (Active g)
           = Active g'
           ∧ currentIndex g' = Z.max (currentIndex g - Z.of_nat k) 0).
Proof.
  intros Hpr Hreach.
  destruct (reachable_stable_wired c cs g Hpr Hreach) as [Hs Hw].
  rewrite (proj2 Hs). now apply repeated_clicks.
Qed.

Lemma arrows_saturate_witness :
  (∃ g', activations Captioned.handle (replicate 9 NextBtn) (Active gallery7)
         = Active g'
         ∧ currentIndex g'
           = Z.min (currentIndex gallery7 + Z.of_nat 9)
               (images_length gallery7 - 1))
  ∧ (∃ g', activations Captioned.handle (replicate 9 PrevBtn)
             (Active gallery7) = Active g'
           ∧ currentIndex g'
             = Z.max (currentIndex gallery7 - Z.of_nat 9) 0).
Proof.
  apply (arrows_saturate markup7 [] gallery7 9).
  - split; intros b Hb; vm_compute in Hb; injection Hb as <-; reflexivity.
  - vm_compute. reflexivity.
Defined.

(** An effective transition with the counter element present. *)
Lemma showImage_effective g newIndex el :
  0 ≤ currentIndex g < images_length g →
  0 ≤ newIndex < images_length g →
  newIndex ≠ currentIndex g →
  galleryIndexEl g = Some el →
  ∃ g', Captioned.showImage newIndex g = Returned tt g'
        ∧ images g' = images (moved newIndex g)
        ∧ currentIndex g' = newIndex
        ∧ is_Some (galleryIndexEl g')
        ∧ counter_synced g'
        ∧ caption g'
          = (λ _, Captioned.caption_text newIndex) <$> galleryCaption g.
Proof.
  intros Hc Hn Hne Hel.
  rewrite showImage_move, Hel, updateCaption_spec by done.
  eexists. split; [reflexivity|].
  destruct g as [[imgs l r idx cap] cur].
  destruct cap; split_and!; try reflexivity; by eexists.
Qed.

Lemma handle_healthy n c l g :
  healthy n c g →
  healthy n c (state_of (Captioned.handle l g))
  ∧ throws (Captioned.handle l g) = false.
Proof.
  intros Hh. pose proof Hh as (Hs & [el Hel] & Hcnt & Hcap).
  pose proof (proj1 (proj1 Hs)) as Hc.
  assert (Hgo : ∀ newIndex,
            0 ≤ newIndex < images_length g → newIndex ≠ currentIndex g →
            Captioned.handle l g = Captioned.showImage newIndex g →
            healthy n c (state_of (Captioned.handle l g))
            ∧ throws (Captioned.handle l g) = false).
  { intros newIndex Hn Hne Heq.
    pose proof (handle_stable n l g Hs) as Hs'. rewrite Heq in *.
    destruct (showImage_effective g newIndex el Hc Hn Hne Hel)
      as (g' & Hg' & _ & Hcur' & Hel' & Hsync' & Hcap').
    rewrite Hg' in *. cbn [state_of throws] in *.
    split; [|done]. split_and!; [done|done|by left|].
    rewrite Hcap', Hcur'. unfold caption in Hcap.
    destruct (galleryCaption g), (gallery_caption c); done. }
  destruct l; cbn [Captioned.handle] in *.
  - rewrite onPrevClick_spec in *. case_decide; [|done].
    apply (Hgo (currentIndex g - 1)); [lia|lia|done].
  - rewrite onNextClick_spec in *. case_decide; [|done].
    apply (Hgo (currentIndex g + 1)); [lia|lia|done].
Qed.

(** When every listener preserves a property and does not throw under it,
    no click throws under it. *)
Section NoThrow.

Variable handle : Listener → JS unit.
Variable P : Gallery → Prop.
Hypothesis handle_ok :
  ∀ l g, P g → P (state_of (handle l g)) ∧ throws (handle l g) = false.

Lemma dispatchEvent_no_throw ls g :
  P g → throws (dispatchEvent handle ls g) = false.
Proof.
  revert g. induction ls as [|l ls IH]; intros g Hg; [done|].
  cbn [dispatchEvent]. destruct (handle_ok l g Hg) as [Hp Ht].
  destruct (handle l g) as [[] g'|e g']; [|done]. now apply IH.
Qed.

Lemma activate_no_throw ctl g :
  P g → throws (activate handle ctl (Active g)) = false.
Proof.
  intros Hg. cbn [activate].
  assert (Hc : throws (click handle ctl g) = false).
  { unfold click, mbind, JS_bind, get.
    destruct (match ctl with PrevBtn => prevBtn g | NextBtn => nextBtn g end);
      [now apply dispatchEvent_no_throw | done]. }
  destruct (click handle ctl g); done.
Qed.

End NoThrow.

Lemma createImageGallery_healthy c g :
  is_Some (gallery_index c) →
  Captioned.createImageGallery (Some c) = Returned tt (Active g) →
  healthy (Z.of_nat (length (gallery_img c))) c g.
Proof.
  intros Hidx Hg. pose proof (createImageGallery_stable c g Hg) as Hs.
  destruct (required_missing c) eqn:Hreq.
  { unfold Captioned.createImageGallery in Hg. now rewrite Hreq in Hg. }
  destruct (createImageGallery_active c Hreq)
    as (g' & _ & _ & Hg' & _ & _ & Hcur & _ & _ & _ & Hel & Hcap).
  rewrite Hg' in Hg. injection Hg as ->.
  split_and!; [done| |right|done].
  - now rewrite Hel.
  - split; [done|]. unfold counter. now rewrite Hel.
Qed.

Lemma reachable_healthy c cs g :
  is_Some (gallery_index c) →
  activations Captioned.handle cs
    (state_of (Captioned.createImageGallery (Some c))) = Active g →
  healthy (Z.of_nat (length (gallery_img c))) c g.
Proof.
  intros Hidx Hreach. destruct (required_missing c) eqn:Hreq.
  - unfold Captioned.createImageGallery in Hreach. rewrite Hreq in Hreach.
    cbn [state_of] in Hreach.
    assert (∀ cs d, activations Captioned.handle cs (Inert d) = Inert d)
      as Hin by (intros cs'; induction cs'; done).
    now rewrite Hin in Hreach.
  - destruct (createImageGallery_active c Hreq) as (g0 & _ & _ & Hg0 & _).
    rewrite Hg0 in Hreach. cbn [state_of] in Hreach.
    pose proof (createImageGallery_healthy c g0 Hidx Hg0) as Hh0.
    destruct (activations_preserves Captioned.handle
                (healthy (Z.of_nat (length (gallery_img c))) c)
                (λ l g H, proj1 (handle_healthy _ c l g H)) cs g0)
      as (g' & Hg' & Hh'); [done|].
    rewrite Hg' in Hreach. now injection Hreach as ->.
Qed.

(** X4.  Over a container with a counter region and a caption region, in
    every state reached from the construction the caption region reads
    "Meet " followed by the name at the cursor, or by nothing when the
    cursor is past the names. *)
Theorem caption_follows_cursor c cs g :
  is_Some (gallery_index c) →
  is_Some (gallery_caption c) →
  activations Captioned.handle cs
    (state_of (Captioned.createImageGallery (Some c))) = Active g →
  caption g
  = Some ("Meet "
          +:+ default EmptyString
                (at_index Captioned.catNames (currentIndex g))).
Proof.
  intros Hidx [cap Hc] Hreach.
  destruct (reachable_healthy c cs g Hidx Hreach) as (_ & _ & _ & Hcap).
  now rewrite Hcap, Hc.
Qed.

Lemma caption_follows_cursor_witness :
  caption gallery7
  = Some ("Meet "
          +:+ default EmptyString
                (at_index Captioned.catNames (currentIndex gallery7))).
Proof.
  apply (caption_follows_cursor markup7 []).
  - eexists. reflexivity.
  - eexists. reflexivity.
  - vm_compute. reflexivity.
Defined.

(** The construction never throws, whatever the container. *)
Lemma createImageGallery_no_throw d :
  throws (Captioned.createImageGallery d) = false.
Proof.
  destruct d as [c|]; [|done]. destruct (required_missing c) eqn:Hreq.
  - unfold Captioned.createImageGallery. now rewrite Hreq.
  - destruct (createImageGallery_active c Hreq) as (g & _ & _ & -> & _).
    done.
Qed.

(** X5.  Over a container with a counter region the construction does not
    throw, and no activation of an arrow throws, in
    any state reached from the construction. *)
Theorem no_throw_with_counter c cs g ctl :
  is_Some (gallery_index c) →
  activations Captioned.handle cs
    (state_of (Captioned.createImageGallery (Some c))) = Active g →
  throws (Captioned.createImageGallery (Some c)) = false
  ∧ throws (activate Captioned.handle ctl (Active g)) = false.
Proof.
  intros Hidx Hreach. split; [apply createImageGallery_no_throw|].
  apply (activate_no_throw Captioned.handle
           (healthy (Z.of_nat (length (gallery_img c))) c)
           (handle_healthy _ c)).
  now apply (reachable_healthy c cs).
Qed.

Lemma no_throw_with_counter_witness :
  throws (Captioned.createImageGallery (Some markup7)) = false
  ∧ throws (activate Captioned.handle NextBtn (Active gallery7)) = false.
Proof.
  apply (no_throw_with_counter markup7 []).
  - eexists. reflexivity.
  - vm_compute. reflexivity.
Defined.

(** ** What the gallery leaves alone *)

Lemma filter_other_add (token : string) l :
  filter (λ t, t ≠ token) (DOMTokenList.add token l)
  = filter (λ t, t ≠ token) l.
Proof.
  unfold DOMTokenList.add. destruct (DOMTokenList.contains token l); [done|].
  rewrite filter_app. cbn. rewrite decide_False by (intros H; now apply H).
  apply app_nil_r.
Qed.

Lemma filter_other_remove (token : string) l :
  filter (λ t, t ≠ token) (DOMTokenList.remove token l)
  = filter (λ t, t ≠ token) l.
Proof.
  unfold DOMTokenList.remove. induction l as [|x l IH]; [done|].
  rewrite !filter_cons. case_decide; [|done].
  rewrite filter_cons, decide_True by done. now rewrite IH.
Qed.

Lemma slide_rest_add img :
  slide_rest (withClassList (DOMTokenList.add "hidden-img") img)
  = slide_rest img.
Proof.
  unfold slide_rest, other_classes. cbn. now rewrite filter_other_add.
Qed.

Lemma slide_rest_remove img :
  slide_rest (withClassList (DOMTokenList.remove "hidden-img") img)
  = slide_rest img.
Proof.
  unfold slide_rest, other_classes. cbn. now rewrite filter_other_remove.
Qed.

Lemma fmap_alter_same {A B} (f : A → B) (h : A → A) (i : nat) (l : list A) :
  (∀ x, f (h x) = f x) → f <$> alter h i l = f <$> l.
Proof.
  intros Hf. apply list_eq. intros j. rewrite !list_lookup_fmap.
  destruct (decide (i = j)) as [->|Hne].
  - rewrite list_lookup_alter_eq. destruct (l !! j); cbn; [|done].
    now rewrite Hf.
  - now rewrite list_lookup_alter_ne.
Qed.

Lemma slide_rest_moved newIndex g :
  slide_rest <$> images (moved newIndex g) = slide_rest <$> images g.
Proof.
  cbn [moved images set_currentIndex set_images dom gallery_img].
  fold (images g).
  rewrite fmap_alter_same by apply slide_rest_remove.
  now rewrite fmap_alter_same by apply slide_rest_add.
Qed.

Lemma slide_rest_toggled cursor imgs :
  slide_rest <$> toggled cursor imgs = slide_rest <$> imgs.
Proof.
  apply list_eq. intros i. unfold toggled.
  rewrite !list_lookup_fmap, list_lookup_imap.
  destruct (imgs !! i) as [img|]; cbn; [|done]. f_equal.
  unfold DOMTokenList.toggle.
  destruct (negb (Z.of_nat i =? cursor));
    [apply slide_rest_add | apply slide_rest_remove].
Qed.

Lemma handle_slide_rest n r l g :
  stable n g ∧ slide_rest <$> images g = r →
  stable n (state_of (Captioned.handle l g))
  ∧ slide_rest <$> images (state_of (Captioned.handle l g)) = r.
Proof.
  intros [Hs Hr]. split; [now apply handle_stable|].
  pose proof (proj1 (proj1 Hs)) as Hc.
  destruct l; cbn [Captioned.handle];
    rewrite ?onPrevClick_spec, ?onNextClick_spec; case_decide; try done.
  - destruct (showImage_move_state g (currentIndex g - 1)) as (-> & _);
      [lia..|]. now rewrite slide_rest_moved.
  - destruct (showImage_move_state g (currentIndex g + 1)) as (-> & _);
      [lia..|]. now rewrite slide_rest_moved.
Qed.

(** X6.  In every state reached from the construction, every slide has the
    classes other than the hidden marker, in their order, the text and the
    listeners it had in the markup, and there are as many slides: the
    gallery changes nothing on a slide but its hidden marker. *)
Theorem slides_otherwise_untouched c cs g :
  activations Captioned.handle cs
    (state_of (Captioned.createImageGallery (Some c))) = Active g →
  length (images g) = length (gallery_img c)
  ∧ ∀ (i : nat) img0,
      gallery_img c !! i = Some img0 →
      ∃ img, images g !! i = Some img
             ∧ other_classes img = other_classes img0
             ∧ textContent img = textContent img0
             ∧ clickListeners img = clickListeners img0.
Proof.
  intros Hreach.
  assert (Hr : slide_rest <$> images g = slide_rest <$> gallery_img c).
  { destruct (required_missing c) eqn:Hreq.
    - unfold Captioned.createImageGallery in Hreach. rewrite Hreq in Hreach.
      cbn [state_of] in Hreach.
      assert (∀ cs d, activations Captioned.handle cs (Inert d) = Inert d)
        as Hin by (intros cs'; induction cs'; done).
      now rewrite Hin in Hreach.
    - destruct (createImageGallery_active c Hreq)
        as (g0 & _ & _ & Hg0 & _ & _ & _ & Himg & _).
      rewrite Hg0 in Hreach. cbn [state_of] in Hreach.
      pose proof (createImageGallery_stable c g0 Hg0) as Hs0.
      destruct (activations_preserves Captioned.handle
                  (λ g, stable (Z.of_nat (length (gallery_img c))) g
                        ∧ slide_rest <$> images g
                          = slide_rest <$> gallery_img c)
                  (handle_slide_rest _ _) cs g0) as (g' & Hg' & _ & Hr').
      { split; [done|]. rewrite Himg. apply slide_rest_toggled. }
      rewrite Hg' in Hreach. now injection Hreach as ->. }
  split.
  - rewrite <- (length_fmap slide_rest (images g)), Hr. apply length_fmap.
  - intros i img0 Hi.
    assert (Hl : (slide_rest <$> images g) !! i = Some (slide_rest img0)).
    { rewrite Hr, list_lookup_fmap, Hi. done. }
    rewrite list_lookup_fmap in Hl.
    destruct (images g !! i) as [img|]; [|done].
    exists img. cbn in Hl. injection Hl as H1 H2 H3. done.
Qed.

Lemma slides_otherwise_untouched_witness :
  length (images gallery7) = length (gallery_img markup7)
  ∧ ∀ (i : nat) img0,
      gallery_img markup7 !! i = Some img0 →
      ∃ img, images gallery7 !! i = Some img
             ∧ other_classes img = other_classes img0
             ∧ textContent img = textContent img0
             ∧ clickListeners img = clickListeners img0.
Proof.
  apply (slides_otherwise_untouched markup7 []). vm_compute. reflexivity.
Defined.

(** X7.  Running the construction again over the document of a state
    reached from the construction over pristine markup gives the same
    cursor and the same hidden marker on every slide: the normalisation of
    the construction does not shift a state the gallery itself produced. *)
Theorem construction_rederives_cursor c cs g :
  pristine c →
  activations Captioned.handle cs
    (state_of (Captioned.createImageGallery (Some c))) = Active g →
  ∃ g',
    Captioned.createImageGallery (Some (dom g)) = Returned tt (Active g')
    ∧ currentIndex g' = currentIndex g
    ∧ hidden <$> images g' = hidden <$> images g.
Proof.
  intros Hpr Hreach.
  destruct (reachable_stable_wired c cs g Hpr Hreach)
    as [[Hinv Hlen] [Hwp Hwn]].
  pose proof Hinv as [Hc Hvis].
  assert (Hreq : required_missing (dom g) = false).
  { apply required_missing_false. unfold prevBtn, nextBtn in Hwp, Hwn.
    split_and!.
    - intros E. unfold images_length, images in Hc. rewrite E in Hc.
      cbn in Hc. lia.
    - destruct (gallery_left_arrow (dom g)); [by eexists|done].
    - destruct (gallery_right_arrow (dom g)); [by eexists|done]. }
  destruct (createImageGallery_active (dom g) Hreq)
    as (g' & _ & _ & Hg' & _ & _ & Hcur & _).
  destruct (createImageGallery_stable (dom g) g' Hg') as [Hinv' Hlen'].
  fold (images g) in Hcur.
  rewrite (findIndex_only_visible (currentIndex g)) in Hcur by done.
  exists g'. split; [done|].
  assert (Hcur' : currentIndex g' = currentIndex g) by lia.
  split; [done|]. now apply hidden_determined.
Qed.

Lemma construction_rederives_cursor_witness :
  ∃ g',
    Captioned.createImageGallery (Some (dom gallery7))
    = Returned tt (Active g')
    ∧ currentIndex g' = currentIndex gallery7
    ∧ hidden <$> images g' = hidden <$> images gallery7.
Proof.
  apply (construction_rederives_cursor markup7 []).
  - split; intros b Hb; vm_compute in Hb; injection Hb as <-; reflexivity.
  - vm_compute. reflexivity.
Defined.

(** X8.  The caption-less version keeps the state invariant too: in every
    state reached from its construction the cursor is in [0, N-1], the
    slide at the cursor is the only visible one and N is the number of
    slides of the markup. *)
Theorem plain_invariant c cs g :
  activations Plain.handle cs
    (state_of (Plain.createImageGallery (Some c))) = Active g →
  gallery_inv g
  ∧ images_length g = Z.of_nat (length (gallery_img c)).
Proof.
  intros Hreach.
  pose proof (same_activations cs _ _
                (proj2 (same_createImageGallery (Some c)))) as Hs.
  rewrite Hreach in Hs.
  destruct (activations Captioned.handle cs
              (state_of (Captioned.createImageGallery (Some c))))
    as [d|g2] eqn:Hreach2; [done|].
  cbn in Hs. destruct Hs as (Hc & Hi & _).
  destruct (reachable_stable c cs g2 Hreach2) as [Hinv Hlen].
  split.
  - now apply (gallery_inv_ext g2 g).
  - unfold images_length in *. now rewrite Hi.
Qed.

Lemma plain_invariant_witness :
  gallery_inv
    (gallery_of (activations Plain.handle [NextBtn]
                   (state_of (Plain.createImageGallery (Some markup7)))))
  ∧ images_length
      (gallery_of (activations Plain.handle [NextBtn]
                     (state_of (Plain.createImageGallery (Some markup7)))))
    = Z.of_nat (length (gallery_img markup7)).
Proof.
  apply (plain_invariant markup7 [NextBtn]). vm_compute. reflexivity.
Defined.

(** * The gallery over the nodes of the document *)

(** ** What an assignment to a node changes *)

Lemma text_alter_classList op m (d : Shared.Node → Element) n :
  textContent (alter (withClassList op) m d n) = textContent (d n).
Proof.
  destruct (decide (m = n)) as [->|Hne].
  - now rewrite fn_lookup_alter.
  - now rewrite fn_lookup_alter_ne.
Qed.

Lemma text_alter_listener l m (d : Shared.Node → Element) n :
  textContent (alter (withListener l) m d n) = textContent (d n).
Proof.
  destruct (decide (m = n)) as [->|Hne].
  - now rewrite fn_lookup_alter.
  - now rewrite fn_lookup_alter_ne.
Qed.

Lemma text_alter_text t m (d : Shared.Node → Element) n :
  textContent (alter (withTextContent t) m d n)
  = if decide (m = n) then t else textContent (d n).
Proof.
  destruct (decide (m = n)) as [->|Hne].
  - now rewrite fn_lookup_alter.
  - now rewrite fn_lookup_alter_ne.
Qed.

Lemma text_toggled_from k cursor imgs (d : Shared.Node → Element) n :
  textContent (toggled_from k cursor imgs d n) = textContent (d n).
Proof.
  revert k d. induction imgs as [|img imgs IH]; intros k d; [done|].
  cbn [toggled_from]. rewrite IH. apply text_alter_classList.
Qed.

(** ** The transitions *)

Lemma shared_updateCaption_spec index s :
  Shared.updateCaption index s =
  Returned tt
    match Shared.galleryCaption (Shared.found s) with
    | Some el =>
        Shared.mkState
          (alter
             (withTextContent
                (Captioned.caption_text
                   (default (Shared.currentIndex s) index)))
             el (Shared.document s))
          (Shared.found s) (Shared.currentIndex s)
    | None => s
    end.
Proof.
  unfold Shared.updateCaption, mbind, Shared.JS_bind, Shared.get.
  destruct (Shared.galleryCaption (Shared.found s)); reflexivity.
Qed.

Lemma shared_showImage_skip s newIndex :
  newIndex < 0 ∨ Shared.images_length s ≤ newIndex
  ∨ newIndex = Shared.currentIndex s →
  Shared.showImage newIndex s = Returned tt s.
Proof.
  intros H. unfold Shared.showImage, mbind, Shared.JS_bind, Shared.get.
  assert ((newIndex <? 0) || (newIndex >=? Shared.images_length s)
          || (newIndex =? Shared.currentIndex s) = true) as ->; [|done].
  rewrite !orb_true_iff, Z.ltb_lt, Z.geb_le, Z.eqb_eq. lia.
Qed.

(** An effective transition: the class lists of the old and of the new
    slide, the cursor, then the counter, where a missing counter element
    throws, then the caption. *)
Lemma shared_showImage_move s newIndex :
  0 ≤ Shared.currentIndex s < Shared.images_length s →
  0 ≤ newIndex < Shared.images_length s →
  newIndex ≠ Shared.currentIndex s →
  ∃ old new,
    Shared.images (Shared.found s) !! Z.to_nat (Shared.currentIndex s)
    = Some old
    ∧ Shared.images (Shared.found s) !! Z.to_nat newIndex = Some new
    ∧ Shared.showImage newIndex s =
      let d :=
        alter (withClassList (DOMTokenList.remove "hidden-img")) new
          (alter (withClassList (DOMTokenList.add "hidden-img")) old
             (Shared.document s)) in
      let s' := Shared.mkState d (Shared.found s) newIndex in
      match Shared.galleryIndexEl (Shared.found s) with
      | None => Threw TypeError s'
      | Some el =>
          Shared.updateCaption None
            (Shared.mkState
               (alter (withTextContent (Shared.counter_text s')) el d)
               (Shared.found s) newIndex)
      end.
Proof.
  intros Hc Hn Hne.
  destruct (at_index_in_range (Shared.images (Shared.found s))
              (Shared.currentIndex s) Hc) as [old Hold].
  destruct (at_index_in_range (Shared.images (Shared.found s))
              newIndex Hn) as [new Hnew].
  exists old, new.
  pose proof (proj1 (at_index_Some _ _ _) Hold) as [_ Hold'].
  pose proof (proj1 (at_index_Some _ _ _) Hnew) as [_ Hnew'].
  split_and!; [done..|].
  unfold Shared.showImage, mbind, Shared.JS_bind, Shared.get.
  assert ((newIndex <? 0) || (newIndex >=? Shared.images_length s)
          || (newIndex =? Shared.currentIndex s) = false) as ->.
  { rewrite !orb_false_iff, Z.ltb_ge, Z.geb_leb, Z.leb_gt, Z.eqb_neq. lia. }
  unfold Shared.image_classList, mbind, Shared.JS_bind, Shared.get.
  rewrite Hold. unfold Shared.update at 1, Shared.modify at 1.
  cbn [Shared.found]. rewrite Hnew.
  unfold Shared.update at 1, Shared.modify at 1.
  unfold Shared.set_currentIndex, Shared.modify at 1.
  cbn [Shared.found Shared.document Shared.currentIndex].
  unfold Shared.galleryIndexEl_set_textContent, mbind, Shared.JS_bind,
    Shared.get.
  cbn [Shared.found].
  destruct (Shared.galleryIndexEl (Shared.found s)) as [el|]; reflexivity.
Qed.

Lemma shared_onPrevClick_spec s :
  Shared.onPrevClick s =
  if decide (0 < Shared.currentIndex s)
  then Shared.showImage (Shared.currentIndex s - 1) s else Returned tt s.
Proof.
  unfold Shared.onPrevClick, mbind, Shared.JS_bind, Shared.get.
  destruct (Z.gtb_spec (Shared.currentIndex s) 0),
    (decide (0 < Shared.currentIndex s)); try lia; reflexivity.
Qed.

Lemma shared_onNextClick_spec s :
  Shared.onNextClick s =
  if decide (Shared.currentIndex s < Shared.images_length s - 1)
  then Shared.showImage (Shared.currentIndex s + 1) s else Returned tt s.
Proof.
  unfold Shared.onNextClick, mbind, Shared.JS_bind, Shared.get.
  destruct (Z.ltb_spec (Shared.currentIndex s) (Shared.images_length s - 1)),
    (decide (Shared.currentIndex s < Shared.images_length s - 1));
    try lia; reflexivity.
Qed.

(** ** What every listener keeps *)

Section SharedPreservation.

Variable P : Shared.State → Prop.
Hypothesis handle_preserves : ∀ l s, P s → P (state_of (Shared.handle l s)).

Lemma shared_dispatchEvent_preserves ls s :
  P s → P (state_of (Shared.dispatchEvent ls s)).
Proof.
  revert s. induction ls as [|l ls IH]; intros s Hs; [exact Hs|].
  cbn [Shared.dispatchEvent]. pose proof (handle_preserves l s Hs) as Hl.
  destruct (Shared.handle l s) as [[] s'|e s']; cbn [state_of] in *;
    now apply IH.
Qed.

Lemma shared_click_preserves c s : P s → P (state_of (Shared.click c s)).
Proof.
  intros Hs. unfold Shared.click, mbind, Shared.JS_bind, Shared.get.
  destruct (match c with
            | PrevBtn => Shared.prevBtn (Shared.found s)
            | NextBtn => Shared.nextBtn (Shared.found s)
            end); [now apply shared_dispatchEvent_preserves | exact Hs].
Qed.

Lemma shared_activations_preserves cs s :
  P s →
  ∃ s', Shared.activations cs (Shared.Active s) = Shared.Active s' ∧ P s'.
Proof.
  revert s. induction cs as [|c cs IH]; intros s Hs; [by exists s|].
  cbn [Shared.activations Shared.activate].
  pose proof (shared_click_preserves c s Hs) as Hc.
  destruct (Shared.click c s) as [[] s'|e s']; cbn [state_of] in *;
    now apply IH.
Qed.

End SharedPreservation.

Lemma shared_activations_inert cs d q :
  Shared.activations cs (Shared.Inert d q) = Shared.Inert d q.
Proof. induction cs; done. Qed.

(** ** The counter node *)

Lemma shared_showImage_counter d q el s newIndex :
  Shared.galleryIndexEl q = Some el →
  counter_shown d q el s →
  0 ≤ newIndex < Shared.images_length s →
  newIndex ≠ Shared.currentIndex s →
  counter_shown d q el (state_of (Shared.showImage newIndex s))
  ∧ throws (Shared.showImage newIndex s) = false
  ∧ Shared.currentIndex (state_of (Shared.showImage newIndex s)) = newIndex.
Proof.
  intros Hel (Hq & Hc & Htext) Hn Hne.
  destruct (shared_showImage_move s newIndex Hc Hn Hne)
    as (old & new & _ & _ & ->).
  cbn zeta. rewrite Hq, Hel, shared_updateCaption_spec.
  cbn [Shared.found Shared.currentIndex Shared.document default state_of
       throws].
  split; [|split; [done|]].
  - unfold counter_shown, text_of, Shared.images_length in *.
    destruct (Shared.galleryCaption q) as [cap|] eqn:Hcap;
      cbn [Shared.found Shared.currentIndex Shared.document];
      rewrite ?Hq in *; (split; [done|]); (split; [lia|]).
    + rewrite !text_alter_text. case_decide as Hd.
      * injection Hd as ->. now rewrite decide_True.
      * rewrite decide_False by congruence. rewrite decide_True by done.
        left. unfold Shared.counter_text, Shared.images_length.
        cbn [Shared.found Shared.currentIndex]. done.
    + rewrite decide_False by done. rewrite text_alter_text.
      rewrite decide_True by done.
      left. unfold Shared.counter_text, Shared.images_length.
      cbn [Shared.found Shared.currentIndex]. done.
  - destruct (Shared.galleryCaption q); reflexivity.
Qed.

Lemma shared_handle_counter d q el l s :
  Shared.galleryIndexEl q = Some el →
  counter_shown d q el s →
  counter_shown d q el (state_of (Shared.handle l s))
  ∧ throws (Shared.handle l s) = false.
Proof.
  intros Hel Hs. pose proof Hs as (_ & Hc & _).
  destruct l; cbn [Shared.handle].
  - rewrite shared_onPrevClick_spec. case_decide; [|done].
    destruct (shared_showImage_counter d q el s (Shared.currentIndex s - 1))
      as (? & ? & _); [done|done|lia|lia|done].
  - rewrite shared_onNextClick_spec. case_decide; [|done].
    destruct (shared_showImage_counter d q el s (Shared.currentIndex s + 1))
      as (? & ? & _); [done|done|lia|lia|done].
Qed.

(** ** The construction *)

Lemma shared_required_missing_false q :
  Shared.required_missing q = false ↔
  Shared.images q ≠ [] ∧ is_Some (Shared.prevBtn q)
  ∧ is_Some (Shared.nextBtn q).
Proof.
  unfold Shared.required_missing.
  rewrite !orb_false_iff, !negb_false_iff, !bool_decide_eq_true, Z.eqb_neq.
  split.
  - intros [[Hl Hp] Hn]. split_and!; [|done..].
    intros E. rewrite E in Hl. now apply Hl.
  - intros (Hl & Hp & Hn). split_and!; [|done..].
    destruct (Shared.images q); [done|]. cbn [length]. lia.
Qed.

Lemma shared_forEach_toggle k imgs s :
  Shared.forEach_from k Shared.toggle_hidden imgs s =
  Returned tt
    (Shared.mkState
       (toggled_from k (Shared.currentIndex s) imgs (Shared.document s))
       (Shared.found s) (Shared.currentIndex s)).
Proof.
  revert k s. induction imgs as [|img imgs IH]; intros k s.
  - destruct s; reflexivity.
  - cbn [Shared.forEach_from toggled_from].
    unfold mbind at 1, Shared.JS_bind at 1.
    unfold Shared.toggle_hidden, mbind, Shared.JS_bind, Shared.get,
      Shared.update, Shared.modify.
    rewrite IH. reflexivity.
Qed.

(** The document construction leaves: the hidden markers set by the
    [forEach], the caption rendered when its region exists, and one
    listener added to each arrow. *)
Lemma shared_createImageGallery_active d q :
  Shared.required_missing q = false →
  ∃ prev next,
    Shared.prevBtn q = Some prev ∧ Shared.nextBtn q = Some next
    ∧ Shared.createImageGallery d (Some q) =
      Returned tt
        (Shared.Active
           (Shared.mkState
              (alter (withListener NextClick) next
                 (alter (withListener PrevClick) prev
                    (match Shared.galleryCaption q with
                     | Some cap =>
                         alter
                           (withTextContent
                              (Captioned.caption_text (initial_cursor d q)))
                           cap
                     | None => id
                     end (toggled_from 0 (initial_cursor d q)
                            (Shared.images q) d))))
              q (initial_cursor d q))).
Proof.
  intros Hreq. pose proof Hreq as Hreq'.
  apply shared_required_missing_false in Hreq' as (_ & [prev Hp] & [next Hx]).
  exists prev, next. split_and!; [done..|].
  unfold Shared.createImageGallery. rewrite Hreq.
  unfold Shared.init, Shared.forEach.
  unfold mbind at 1, Shared.JS_bind at 1, Shared.get at 1.
  unfold mbind at 1, Shared.JS_bind at 1.
  rewrite shared_forEach_toggle.
  unfold mbind at 1, Shared.JS_bind at 1.
  rewrite shared_updateCaption_spec.
  cbn [Shared.found Shared.currentIndex Shared.document default].
  unfold Shared.addEventListener, mbind, Shared.JS_bind, Shared.get,
    Shared.update, Shared.modify.
  fold (initial_cursor d q).
  destruct (Shared.galleryCaption q);
    cbn [Shared.found Shared.currentIndex Shared.document];
    rewrite Hp; cbn [Shared.found Shared.currentIndex Shared.document];
    rewrite Hx; reflexivity.
Qed.

(** Construction writes the text of the caption region and of no other
    node: the counter node keeps the text of the markup unless it is the
    caption region itself. *)
Lemma counter_after_construction d q el s :
  Shared.createImageGallery d (Some q) = Returned tt (Shared.Active s) →
  Shared.found s = q
  ∧ Shared.currentIndex s = initial_cursor d q
  ∧ text_of s el
    = if decide (Shared.galleryCaption q = Some el)
      then Captioned.caption_text (Shared.currentIndex s)
      else textContent (d el).
Proof.
  intros Hs. destruct (Shared.required_missing q) eqn:Hreq.
  { unfold Shared.createImageGallery in Hs. now rewrite Hreq in Hs. }
  destruct (shared_createImageGallery_active d q Hreq)
    as (prev & next & _ & _ & Hs').
  rewrite Hs' in Hs. injection Hs as <-.
  cbn [Shared.found Shared.currentIndex]. split_and!; [done..|].
  unfold text_of. cbn [Shared.document]. rewrite !text_alter_listener.
  destruct (Shared.galleryCaption q) as [cap|].
  - rewrite text_alter_text, text_toggled_from.
    destruct (decide (cap = el)) as [->|Hne].
    + now rewrite decide_True.
    + rewrite decide_False by congruence. done.
  - rewrite decide_False by done. cbn. apply text_toggled_from.
Qed.

Lemma initial_cursor_in_range d q :
  Shared.images q ≠ [] →
  0 ≤ initial_cursor d q < Z.of_nat (length (Shared.images q)).
Proof.
  intros Hne. unfold initial_cursor, findIndex.
  destruct (list_find _ (Shared.images q)) as [[i x]|] eqn:E.
  - apply list_find_Some in E as (Hi & _). apply lookup_lt_Some in Hi. lia.
  - destruct (Shared.images q); [done|]. cbn [length]. lia.
Qed.

Lemma shared_reachable_counter d q el cs s :
  Shared.galleryIndexEl q = Some el →
  Shared.activations cs (state_of (Shared.createImageGallery d (Some q)))
  = Shared.Active s →
  counter_shown d q el s.
Proof.
  intros Hel Hreach. destruct (Shared.required_missing q) eqn:Hreq.
  { unfold Shared.createImageGallery in Hreach. rewrite Hreq in Hreach.
    cbn [state_of] in Hreach. now rewrite shared_activations_inert in Hreach. }
  destruct (shared_createImageGallery_active d q Hreq)
    as (prev & next & _ & _ & Hs0).
  pose proof Hreq as (Himgs & _)%shared_required_missing_false.
  rewrite Hs0 in Hreach. cbn [state_of] in Hreach.
  match type of Hreach with
  | Shared.activations _ (Shared.Active ?s0) = _ => set (s0' := s0) in *
  end.
  destruct (counter_after_construction d q el s0' Hs0)
    as (Hq & Hcur & Htext).
  assert (H0 : counter_shown d q el s0').
  { split; [done|]. split.
    - rewrite Hcur. unfold Shared.images_length. rewrite Hq.
      now apply initial_cursor_in_range.
    - case_decide; [done|]. right. done. }
  destruct (shared_activations_preserves (counter_shown d q el)
              (λ l s H, proj1 (shared_handle_counter d q el l s Hel H))
              cs s0' H0) as (s' & Hs' & HP).
  rewrite Hs' in Hreach. now injection Hreach as <-.
Qed.

(** ** The counter region *)

(** C4, at the failing input.  [page7] has seven slides of which only the
    one at index 2 is visible, both arrows, a counter region (node 9)
    reading "1 / 7" and a caption region (node 10).  Construction completes
    with the cursor at 2, leaves the slide at index 2 the only visible one
    and renders the caption, "Meet Nancy", but does not write the counter,
    which still reads "1 / 7" and not "3 / 7".  The counter is written by
    the transitions only: once the next and then the previous control have
    been activated, the cursor is at 2 again and the counter reads
    "3 / 7". *)
Theorem counter_not_initialised :
  length (Shared.images found7) = 7%nat
  ∧ (λ img, visible (page7 img)) <$> Shared.images found7
    = [false; false; true; false; false; false; false]
  ∧ Shared.galleryIndexEl found7 = Some 9%nat
  ∧ Shared.galleryCaption found7 = Some 10%nat
  ∧ ∃ s s',
      Shared.createImageGallery page7 (Some found7)
      = Returned tt (Shared.Active s)
      ∧ Shared.currentIndex s = 2
      ∧ (λ img, visible (Shared.document s img)) <$> Shared.images found7
        = [false; false; true; false; false; false; false]
      ∧ text_of s 10%nat = "Meet Nancy"
      ∧ text_of s 9%nat = "1 / 7"
      ∧ text_of s 9%nat ≠ "3 / 7"
      ∧ Shared.activations [NextBtn; PrevBtn] (Shared.Active s)
        = Shared.Active s'
      ∧ Shared.currentIndex s' = 2
      ∧ text_of s' 9%nat = "3 / 7".
Proof.
  split_and!; [reflexivity..|].
  eexists _, _. split; [vm_compute; reflexivity|].
  split; [reflexivity|]. split; [vm_compute; reflexivity|].
  split; [vm_compute; reflexivity|]. split; [vm_compute; reflexivity|].
  split; [vm_compute; discriminate|].
  split; [vm_compute; reflexivity|].
  split; [reflexivity|]. vm_compute. reflexivity.
Qed.

(** The same page when node 9 is both the counter and the caption region:
    the caption, written last, is what the node shows. *)
Example shared_counter_shows_caption :
  ∃ s s',
    Shared.createImageGallery page7 (Some found7_shared)
    = Returned tt (Shared.Active s)
    ∧ text_of s 9%nat = "Meet Nancy"
    ∧ Shared.activate NextBtn (Shared.Active s)
      = Returned tt (Shared.Active s')
    ∧ Shared.currentIndex s' = 3
    ∧ text_of s' 9%nat = "Meet Sophia".
Proof.
  eexists _, _. split; [vm_compute; reflexivity|].
  split; [vm_compute; reflexivity|]. split; [vm_compute; reflexivity|].
  split; [reflexivity|]. vm_compute. reflexivity.
Qed.

(** X3.  Over a document on which the script has not run and whose
    container has a counter region, in every state reached from the
    construction the counter region reads as follows.  When the same node
    is the caption region, it reads the caption, "Meet " followed by the
    name at the cursor: the caption is written after the counter.
    Otherwise it reads "cursor + 1 / N", unless the cursor is where
    construction put it and the counter still holds the text of the
    markup. *)
Theorem counter_follows_cursor d q el cs s :
  pristine_nodes d q →
  Shared.galleryIndexEl q = Some el →
  Shared.activations cs (state_of (Shared.createImageGallery d (Some q)))
  = Shared.Active s →
  if decide (Shared.galleryCaption q = Some el)
  then text_of s el
       = "Meet "
         +:+ default EmptyString
               (at_index Captioned.catNames (Shared.currentIndex s))
  else text_of s el
       = pretty (Shared.currentIndex s + 1) +:+ " / "
         +:+ pretty (Z.of_nat (length (Shared.images q)))
       ∨ (Shared.currentIndex s = initial_cursor d q
          ∧ text_of s el = textContent (d el)).
Proof.
  intros _ Hel Hreach.
  destruct (shared_reachable_counter d q el cs s Hel Hreach)
    as (Hq & _ & Htext).
  case_decide; [exact Htext|].
  destruct Htext as [Htext|Htext]; [left|by right].
  rewrite Htext. unfold Shared.counter_text, Shared.images_length.
  now rewrite Hq.
Qed.

Lemma counter_follows_cursor_witness :
  (if decide (Shared.galleryCaption found7 = Some 9%nat)
   then text_of page7_next 9%nat
        = "Meet "
          +:+ default EmptyString
                (at_index Captioned.catNames
                   (Shared.currentIndex page7_next))
   else text_of page7_next 9%nat
        = pretty (Shared.currentIndex page7_next + 1) +:+ " / "
          +:+ pretty (Z.of_nat (length (Shared.images found7)))
        ∨ (Shared.currentIndex page7_next = initial_cursor page7 found7
           ∧ text_of page7_next 9%nat = textContent (page7 9%nat)))
  ∧ text_of page7_next 9%nat = "4 / 7"
  ∧ (if decide (Shared.galleryCaption found7_shared = Some 9%nat)
     then text_of page7_shared_next 9%nat
          = "Meet "
            +:+ default EmptyString
                  (at_index Captioned.catNames
                     (Shared.currentIndex page7_shared_next))
     else text_of page7_shared_next 9%nat
          = pretty (Shared.currentIndex page7_shared_next + 1) +:+ " / "
            +:+ pretty (Z.of_nat (length (Shared.images found7_shared)))
          ∨ (Shared.currentIndex page7_shared_next
             = initial_cursor page7 found7_shared
             ∧ text_of page7_shared_next 9%nat = textContent (page7 9%nat)))
  ∧ text_of page7_shared_next 9%nat = "Meet Sophia".
Proof.
  split_and!.
  - apply (counter_follows_cursor page7 found7 9%nat [NextBtn]).
    + split; intros b [= <-]; reflexivity.
    + reflexivity.
    + vm_compute. reflexivity.
  - vm_compute. reflexivity.
  - apply (counter_follows_cursor page7 found7_shared 9%nat [NextBtn]).
    + split; intros b [= <-]; reflexivity.
    + reflexivity.
    + vm_compute. reflexivity.
  - vm_compute. reflexivity.
Defined.

(** ** The container as a view of the nodes

    When every query is answered by a node of its own, the gallery over a
    [Container] does what the gallery over the nodes does. *)

Lemma fmap_alter_notin f (n : Shared.Node) (d : Shared.Node → Element)
    (l : list Shared.Node) :
  n ∉ l → alter f n d <$> l = d <$> l.
Proof.
  intros Hn. apply list_fmap_ext. intros i x Hx.
  apply fn_lookup_alter_ne. intros ->. apply Hn. eapply list_elem_of_lookup_2.
  exact Hx.
Qed.

Lemma fmap_alter_option f (n : Shared.Node) (d : Shared.Node → Element)
    (o : option Shared.Node) :
  o ≠ Some n → alter f n d <$> o = d <$> o.
Proof.
  intros Hn. destruct o as [m|]; [|done]. cbn.
  rewrite fn_lookup_alter_ne; [done|]. congruence.
Qed.

Lemma fmap_alter_nodup f (n : Shared.Node) (d : Shared.Node → Element)
    (l : list Shared.Node) (i : nat) :
  NoDup l → l !! i = Some n →
  alter f n d <$> l = <[i := f (d n)]> (d <$> l).
Proof.
  intros Hnd Hi. apply list_eq. intros j.
  rewrite list_lookup_fmap. destruct (decide (i = j)) as [<-|Hij].
  - rewrite Hi. cbn. rewrite fn_lookup_alter.
    rewrite list_lookup_insert_eq; [done|].
    rewrite length_fmap. now apply lookup_lt_Some in Hi.
  - rewrite list_lookup_insert_ne by done. rewrite list_lookup_fmap.
    destruct (l !! j) as [m|] eqn:Hj; [|done]. cbn.
    rewrite fn_lookup_alter_ne; [done|].
    intros ->. apply Hij. eapply NoDup_lookup; eauto.
Qed.

Lemma separate_image q i n :
  separate q → Shared.images q !! i = Some n →
  NoDup (Shared.images q)
  ∧ Shared.prevBtn q ≠ Some n ∧ Shared.nextBtn q ≠ Some n
  ∧ Shared.galleryIndexEl q ≠ Some n ∧ Shared.galleryCaption q ≠ Some n.
Proof.
  unfold separate, found_nodes. intros Hs Hi.
  apply list_elem_of_lookup_2 in Hi.
  apply list.NoDup_app in Hs as (Hnd & Hdis & _).
  specialize (Hdis n Hi). rewrite !elem_of_app in Hdis.
  split; [done|].
  split_and!; intros E; rewrite E in Hdis; apply Hdis; cbn; set_solver.
Qed.

Lemma separate_option q n :
  separate q →
  (Shared.prevBtn q = Some n →
   (n ∉ Shared.images q) ∧ Shared.nextBtn q ≠ Some n
   ∧ Shared.galleryIndexEl q ≠ Some n ∧ Shared.galleryCaption q ≠ Some n)
  ∧ (Shared.nextBtn q = Some n →
     (n ∉ Shared.images q) ∧ Shared.prevBtn q ≠ Some n
     ∧ Shared.galleryIndexEl q ≠ Some n ∧ Shared.galleryCaption q ≠ Some n)
  ∧ (Shared.galleryIndexEl q = Some n →
     (n ∉ Shared.images q) ∧ Shared.prevBtn q ≠ Some n
     ∧ Shared.nextBtn q ≠ Some n ∧ Shared.galleryCaption q ≠ Some n)
  ∧ (Shared.galleryCaption q = Some n →
     (n ∉ Shared.images q) ∧ Shared.prevBtn q ≠ Some n
     ∧ Shared.nextBtn q ≠ Some n ∧ Shared.galleryIndexEl q ≠ Some n).
Proof.
  unfold separate, found_nodes. destruct q as [imgs p x i c]. cbn.
  rewrite !list.NoDup_app. intros (_ & H1 & _ & H2 & _ & H3 & _ & H4 & _).
  split_and!; intros ->; cbn in *; split_and!;
    try (intros Hin; specialize (H1 _ Hin); set_solver);
    intros ->; cbn in *; set_solver.
Qed.

Lemma at_index_fmap {A B} (f : A → B) (a : list A) i :
  at_index (f <$> a) i = f <$> at_index a i.
Proof.
  unfold at_index. destruct (i <? 0); [done|]. apply list_lookup_fmap.
Qed.

Lemma findIndex_fmap {A B} (f : A → B) (p : B → bool) (a : list A) :
  findIndex p (f <$> a) = findIndex (λ x, p (f x)) a.
Proof.
  unfold findIndex.
  rewrite (list_find_fmap f (λ y, p y = true) a).
  change ((λ y, p y = true) ∘ f) with (λ x, p (f x) = true).
  destruct (list_find (λ x, p (f x) = true) a) as [[i x]|]; reflexivity.
Qed.

Lemma images_length_view s :
  images_length (gallery_view s) = Shared.images_length s.
Proof.
  unfold images_length, Shared.images_length, images. cbn.
  now rewrite length_fmap.
Qed.

Lemma counter_text_view s :
  counter_text (gallery_view s) = Shared.counter_text s.
Proof.
  unfold counter_text, Shared.counter_text.
  now rewrite images_length_view.
Qed.

(** *** Statements *)

Lemma simulates_ret s : simulates_at s (mret tt) (mret tt).
Proof. split; reflexivity. Qed.

Lemma simulates_bind s m m' k k' :
  simulates_at s m m' →
  (∀ s', Shared.found s' = Shared.found s → simulates_at s' k k') →
  simulates_at s (m;; k) (m';; k').
Proof.
  intros [Hm Hf] Hk. unfold simulates_at, mbind, Shared.JS_bind, JS_bind.
  rewrite <- Hm. destruct (m s) as [[] s1|e s1]; cbn [map_state state_of] in *.
  - destruct (Hk s1 Hf) as [Hk1 Hk2]. split; [exact Hk1|congruence].
  - done.
Qed.

Lemma simulates_get s (k : Shared.State → Shared.JS unit)
    (k' : Gallery → JS unit) :
  simulates_at s (k s) (k' (gallery_view s)) →
  simulates_at s (x ← Shared.get; k x) (g ← get; k' g).
Proof. intros H. exact H. Qed.

Lemma simulates_image_classList s i op :
  separate (Shared.found s) →
  simulates_at s (Shared.image_classList i op) (image_classList i op).
Proof.
  intros Hsep. apply simulates_get.
  unfold images. cbn [gallery_view dom container_of gallery_img].
  rewrite at_index_fmap.
  destruct (at_index (Shared.images (Shared.found s)) i) as [n|] eqn:Hn;
    [|split; reflexivity].
  apply at_index_Some in Hn as [Hi Hn].
  destruct (separate_image _ _ _ Hsep Hn) as (Hnd & Hp & Hx & Hc & Hcap).
  split; [|reflexivity].
  cbn. unfold gallery_view, container_of, set_images. cbn.
  rewrite (fmap_alter_nodup _ _ _ _ _ Hnd Hn).
  rewrite !fmap_alter_option by done. reflexivity.
Qed.

Lemma simulates_counter s text :
  separate (Shared.found s) →
  simulates_at s (Shared.galleryIndexEl_set_textContent text)
    (galleryIndexEl_set_textContent text).
Proof.
  intros Hsep. apply simulates_get.
  unfold galleryIndexEl. cbn [gallery_view dom container_of gallery_index].
  destruct (Shared.galleryIndexEl (Shared.found s)) as [n|] eqn:Hn;
    [|split; reflexivity].
  destruct (proj1 (proj2 (proj2 (separate_option _ n Hsep))) Hn)
    as (Hi & Hp & Hx & Hcap).
  split; [|reflexivity].
  cbn. unfold gallery_view, container_of, set_index_el. cbn.
  rewrite Hn. cbn. rewrite fn_lookup_alter.
  rewrite fmap_alter_notin by done.
  rewrite !fmap_alter_option by done. reflexivity.
Qed.

Lemma simulates_updateCaption s index :
  separate (Shared.found s) →
  simulates_at s (Shared.updateCaption index) (Captioned.updateCaption index).
Proof.
  intros Hsep. apply simulates_get.
  unfold galleryCaption. cbn [gallery_view dom container_of gallery_caption].
  destruct (Shared.galleryCaption (Shared.found s)) as [n|] eqn:Hn;
    [|split; reflexivity].
  destruct (proj2 (proj2 (proj2 (separate_option _ n Hsep))) Hn)
    as (Hi & Hp & Hx & Hc).
  split; [|reflexivity].
  cbn. unfold gallery_view, container_of, set_caption_el. cbn.
  rewrite Hn. cbn. rewrite fn_lookup_alter.
  rewrite fmap_alter_notin by done.
  rewrite !fmap_alter_option by done. reflexivity.
Qed.

Lemma simulates_addEventListener s c l :
  separate (Shared.found s) →
  simulates_at s (Shared.addEventListener c l) (addEventListener c l).
Proof.
  intros Hsep. apply simulates_get. destruct c.
  - unfold prevBtn.
    cbn [gallery_view dom container_of gallery_left_arrow].
    destruct (Shared.prevBtn (Shared.found s)) as [n|] eqn:Hn;
      [|split; reflexivity].
    destruct (proj1 (separate_option _ n Hsep) Hn) as (Hi & Hx & Hc & Hcap).
    split; [|reflexivity].
    cbn. unfold gallery_view, container_of, set_left_arrow. cbn.
    rewrite Hn. cbn. rewrite fn_lookup_alter.
    rewrite fmap_alter_notin by done.
    rewrite !fmap_alter_option by done. reflexivity.
  - unfold nextBtn.
    cbn [gallery_view dom container_of gallery_right_arrow].
    destruct (Shared.nextBtn (Shared.found s)) as [n|] eqn:Hn;
      [|split; reflexivity].
    destruct (proj1 (proj2 (separate_option _ n Hsep)) Hn)
      as (Hi & Hp & Hc & Hcap).
    split; [|reflexivity].
    cbn. unfold gallery_view, container_of, set_right_arrow. cbn.
    rewrite Hn. cbn. rewrite fn_lookup_alter.
    rewrite fmap_alter_notin by done.
    rewrite !fmap_alter_option by done. reflexivity.
Qed.

Lemma simulates_set_currentIndex s i :
  simulates_at s (Shared.set_currentIndex i) (modify (set_currentIndex i)).
Proof. split; reflexivity. Qed.

(** *** The closures *)

Lemma simulates_showImage s newIndex :
  separate (Shared.found s) →
  simulates_at s (Shared.showImage newIndex) (Captioned.showImage newIndex).
Proof.
  intros Hsep. apply simulates_get. rewrite images_length_view.
  change (currentIndex (gallery_view s)) with (Shared.currentIndex s).
  destruct ((newIndex <? 0) || (newIndex >=? Shared.images_length s)
            || (newIndex =? Shared.currentIndex s));
    [apply simulates_ret|].
  apply simulates_bind; [now apply simulates_image_classList|].
  intros s1 H1. apply simulates_bind.
  { apply simulates_image_classList. now rewrite H1. }
  intros s2 H2. apply simulates_bind; [apply simulates_set_currentIndex|].
  intros s3 H3. apply simulates_get. rewrite counter_text_view.
  apply simulates_bind.
  { apply simulates_counter. now rewrite H3, H2, H1. }
  intros s4 H4. apply simulates_updateCaption. now rewrite H4, H3, H2, H1.
Qed.

Lemma simulates_handle s l :
  separate (Shared.found s) →
  simulates_at s (Shared.handle l) (Captioned.handle l).
Proof.
  intros Hsep. destruct l; cbn [Shared.handle Captioned.handle];
    apply simulates_get; rewrite ?images_length_view;
    change (currentIndex (gallery_view s)) with (Shared.currentIndex s).
  - destruct (Shared.currentIndex s >? 0);
      [now apply simulates_showImage | apply simulates_ret].
  - destruct (Shared.currentIndex s <? Shared.images_length s - 1);
      [now apply simulates_showImage | apply simulates_ret].
Qed.

Lemma simulates_dispatchEvent ls s :
  separate (Shared.found s) →
  simulates_at s (Shared.dispatchEvent ls)
    (dispatchEvent Captioned.handle ls).
Proof.
  revert s. induction ls as [|l ls IH]; intros s Hsep;
    [apply simulates_ret|].
  destruct (simulates_handle s l Hsep) as [Hh Hf].
  unfold simulates_at. cbn [Shared.dispatchEvent dispatchEvent].
  rewrite <- Hh.
  destruct (Shared.handle l s) as [[] s1|e s1]; cbn [map_state state_of] in *.
  - destruct (IH s1) as [H1 H2]; [now rewrite Hf|].
    split; [exact H1|congruence].
  - destruct (IH s1) as [H1 H2]; [now rewrite Hf|].
    split; [|congruence]. f_equal. rewrite <- H1.
    destruct (Shared.dispatchEvent ls s1); reflexivity.
Qed.

Lemma simulates_click c s :
  separate (Shared.found s) →
  simulates_at s (Shared.click c) (click Captioned.handle c).
Proof.
  intros Hsep. apply simulates_get.
  assert (match c with
          | PrevBtn => prevBtn (gallery_view s)
          | NextBtn => nextBtn (gallery_view s)
          end
          = Shared.document s
            <$> match c with
                | PrevBtn => Shared.prevBtn (Shared.found s)
                | NextBtn => Shared.nextBtn (Shared.found s)
                end) as -> by (destruct c; reflexivity).
  destruct (match c with
            | PrevBtn => Shared.prevBtn (Shared.found s)
            | NextBtn => Shared.nextBtn (Shared.found s)
            end) as [btn|]; [|apply simulates_ret].
  cbn [fmap option_fmap option_map]. now apply simulates_dispatchEvent.
Qed.

(** Pages whose bindings, if any, are separate. *)
Lemma simulates_activate c p :
  (∀ s, p = Shared.Active s → separate (Shared.found s)) →
  map_state page_view (Shared.activate c p)
  = activate Captioned.handle c (page_view p)
  ∧ ∀ s', state_of (Shared.activate c p) = Shared.Active s' →
          separate (Shared.found s').
Proof.
  intros Hsep. destruct p as [d q|s]; [split; [done|]; intros s'; done|].
  specialize (Hsep s eq_refl).
  destruct (simulates_click c s Hsep) as [Hc Hf].
  cbn [Shared.activate activate page_view]. rewrite <- Hc.
  destruct (Shared.click c s) as [[] s1|e s1]; cbn [map_state state_of] in *;
    (split; [reflexivity|]); intros s' [= <-]; now rewrite Hf.
Qed.

Lemma simulates_activations cs p :
  (∀ s, p = Shared.Active s → separate (Shared.found s)) →
  page_view (Shared.activations cs p)
  = activations Captioned.handle cs (page_view p)
  ∧ ∀ s', Shared.activations cs p = Shared.Active s' →
          separate (Shared.found s').
Proof.
  revert p. induction cs as [|c cs IH]; intros p Hsep; [by split|].
  cbn [Shared.activations activations].
  destruct (simulates_activate c p Hsep) as [Ha Hs].
  destruct (IH (state_of (Shared.activate c p)) Hs) as [IH1 IH2].
  split; [|exact IH2]. rewrite IH1. f_equal. rewrite <- Ha.
  destruct (Shared.activate c p); reflexivity.
Qed.

(** *** The construction *)

Lemma toggled_from_notin k cursor imgs (d : Shared.Node → Element) n :
  n ∉ imgs → toggled_from k cursor imgs d n = d n.
Proof.
  revert k d. induction imgs as [|img imgs IH]; intros k d Hn; [done|].
  apply not_elem_of_cons in Hn as [Hne Hn]. cbn [toggled_from].
  rewrite IH by done. now apply fn_lookup_alter_ne.
Qed.

Lemma toggled_from_fmap k cursor imgs (d : Shared.Node → Element) :
  NoDup imgs →
  toggled_from k cursor imgs d <$> imgs =
  imap (λ index img,
     withClassList
       (DOMTokenList.toggle "hidden-img"
          (negb (Z.of_nat (k + index) =? cursor))) img) (d <$> imgs).
Proof.
  revert k d. induction imgs as [|img imgs IH]; intros k d Hnd; [done|].
  apply list.NoDup_cons in Hnd as [Hn Hnd].
  cbn [toggled_from fmap list_fmap imap]. f_equal.
  - rewrite toggled_from_notin by done. rewrite fn_lookup_alter.
    now rewrite Nat.add_0_r.
  - rewrite IH by done. rewrite fmap_alter_notin by done.
    apply imap_ext. intros i x _. cbn. now rewrite Nat.add_succ_r.
Qed.

Lemma simulates_forEach s :
  separate (Shared.found s) →
  simulates_at s
    (Shared.forEach Shared.toggle_hidden (Shared.images (Shared.found s)))
    (modify (λ g,
       set_images
         (imap (λ index img,
            withClassList
              (DOMTokenList.toggle "hidden-img"
                 (negb (Z.of_nat index =? currentIndex g))) img)
            (images g)) g)).
Proof.
  intros Hsep. unfold simulates_at, Shared.forEach.
  rewrite shared_forEach_toggle. split; [|reflexivity].
  cbn [map_state]. unfold modify. f_equal.
  unfold gallery_view, container_of, set_images, images. cbn.
  assert (Hnd : NoDup (Shared.images (Shared.found s))).
  { unfold separate, found_nodes in Hsep.
    now apply list.NoDup_app in Hsep as [? _]. }
  rewrite (toggled_from_fmap 0) by done.
  assert (Hopt : ∀ o : option Shared.Node,
            (∀ n, o = Some n → n ∉ Shared.images (Shared.found s)) →
            toggled_from 0 (Shared.currentIndex s)
              (Shared.images (Shared.found s)) (Shared.document s) <$> o
            = Shared.document s <$> o).
  { intros [n|] Ho; [|done]. cbn. f_equal.
    apply toggled_from_notin. now apply Ho. }
  pose proof (separate_option (Shared.found s)) as Hso.
  rewrite !Hopt; [reflexivity|..]; intros n Hn;
    destruct (Hso n Hsep) as (H1 & H2 & H3 & H4).
  - now apply H4.
  - now apply H3.
  - now apply H2.
  - now apply H1.
Qed.

Lemma simulates_init s :
  separate (Shared.found s) →
  simulates_at s Shared.init Captioned.init.
Proof.
  intros Hsep. unfold Shared.init, Captioned.init.
  change (simulates_at s
    (Shared.forEach Shared.toggle_hidden (Shared.images (Shared.found s));;
     Shared.updateCaption None;;
     Shared.addEventListener PrevBtn PrevClick;;
     Shared.addEventListener NextBtn NextClick)
    (modify (λ g,
       set_images
         (imap (λ index img,
            withClassList
              (DOMTokenList.toggle "hidden-img"
                 (negb (Z.of_nat index =? currentIndex g))) img)
            (images g)) g);;
     Captioned.updateCaption None;;
     addEventListener PrevBtn PrevClick;;
     addEventListener NextBtn NextClick)).
  apply simulates_bind; [now apply simulates_forEach|].
  intros s1 H1. apply simulates_bind.
  { apply simulates_updateCaption. now rewrite H1. }
  intros s2 H2. apply simulates_bind.
  { apply simulates_addEventListener. now rewrite H2, H1. }
  intros s3 H3. apply simulates_addEventListener. now rewrite H3, H2, H1.
Qed.

Lemma required_missing_view d q :
  required_missing (container_of d q) = Shared.required_missing q.
Proof.
  unfold required_missing, Shared.required_missing, container_of. cbn.
  rewrite length_fmap.
  destruct (Shared.prevBtn q), (Shared.nextBtn q); reflexivity.
Qed.

Lemma simulates_createImageGallery d q :
  separate q →
  map_state page_view (Shared.createImageGallery d (Some q))
  = Captioned.createImageGallery (Some (container_of d q))
  ∧ ∀ s, state_of (Shared.createImageGallery d (Some q)) = Shared.Active s →
         separate (Shared.found s).
Proof.
  intros Hsep. unfold Shared.createImageGallery, Captioned.createImageGallery.
  rewrite required_missing_view.
  destruct (Shared.required_missing q); [split; [done|]; intros s; done|].
  cbn zeta.
  destruct (simulates_init
              (Shared.mkState d q
                 (Z.max
                    (findIndex (λ img, not_hidden (d img)) (Shared.images q))
                    0)) Hsep) as [Hi Hf].
  cbn [container_of gallery_img].
  rewrite (findIndex_fmap d not_hidden).
  change (mkGallery _ _) with
    (gallery_view
       (Shared.mkState d q
          (Z.max
             (findIndex (λ img, not_hidden (d img)) (Shared.images q)) 0))).
  rewrite <- Hi.
  destruct (Shared.init _) as [[] s1|e s1]; cbn in *;
    (split; [reflexivity|]); intros s [= <-]; now rewrite Hf.
Qed.

(** The gallery over a [Container] is exact for a document whose queries
    are answered by separate nodes: construction, and every activation
    after any sequence of activations, complete or throw alike and leave
    the container and the cursor that the gallery over the nodes leaves. *)
Theorem container_view_exact d q cs c :
  separate q →
  let p := Shared.activations cs
             (state_of (Shared.createImageGallery d (Some q))) in
  let p' := activations Captioned.handle cs
              (state_of
                 (Captioned.createImageGallery (Some (container_of d q)))) in
  map_state page_view (Shared.createImageGallery d (Some q))
  = Captioned.createImageGallery (Some (container_of d q))
  ∧ page_view p = p'
  ∧ map_state page_view (Shared.activate c p)
    = activate Captioned.handle c p'.
Proof.
  intros Hsep p p'.
  destruct (simulates_createImageGallery d q Hsep) as [H0 Hs0].
  destruct (simulates_activations cs _ Hs0) as [Hcs Hs].
  assert (Hp : page_view p = p').
  { unfold p, p'. rewrite Hcs. f_equal. rewrite <- H0.
    destruct (Shared.createImageGallery d (Some q)); reflexivity. }
  split_and!; [done..|].
  rewrite <- Hp. now apply simulates_activate.
Qed.

Lemma container_view_exact_witness :
  let p := Shared.activations [NextBtn; NextBtn; PrevBtn]
             (state_of (Shared.createImageGallery page7 (Some found7))) in
  let p' := activations Captioned.handle [NextBtn; NextBtn; PrevBtn]
              (state_of
                 (Captioned.createImageGallery
                    (Some (container_of page7 found7)))) in
  map_state page_view (Shared.createImageGallery page7 (Some found7))
  = Captioned.createImageGallery (Some (container_of page7 found7))
  ∧ page_view p = p'
  ∧ map_state page_view (Shared.activate NextBtn p)
    = activate Captioned.handle NextBtn p'.
Proof.
  apply (container_view_exact page7 found7 [NextBtn; NextBtn; PrevBtn]
           NextBtn).
  apply (bool_decide_unpack (NoDup (found_nodes found7))). vm_compute.
  exact I.
Defined.

(** * The form fields *)

(** ** Strings *)

Lemma slice_prefix s n : 0 ≤ n → slice s 0 (Some n) = take (Z.to_nat n) s.
Proof.
  intros Hn. unfold slice, clamp_index.
  change (default (Z.of_nat (length s)) (Some n)) with n.
  destruct (Z.ltb_spec 0 0); [lia|]. destruct (Z.ltb_spec n 0); [lia|].
  rewrite (Z.min_l 0) by lia. change (Z.to_nat 0) with 0%nat.
  rewrite drop_0, Z.sub_0_r.
  destruct (Z.le_ge_cases n (Z.of_nat (length s))).
  - now rewrite Z.min_l by lia.
  - rewrite Z.min_r by lia. rewrite Nat2Z.id.
    now rewrite !take_ge by lia.
Qed.

Lemma slice_suffix s n : 0 ≤ n → slice s n None = drop (Z.to_nat n) s.
Proof.
  intros Hn. unfold slice, clamp_index.
  change (default (Z.of_nat (length s)) None) with (Z.of_nat (length s)).
  destruct (Z.ltb_spec n 0); [lia|].
  destruct (Z.ltb_spec (Z.of_nat (length s)) 0); [lia|].
  rewrite (Z.min_l (Z.of_nat (length s))) by lia.
  destruct (Z.le_ge_cases n (Z.of_nat (length s))).
  - rewrite Z.min_l by lia. apply take_ge. rewrite length_drop. lia.
  - rewrite Z.min_r by lia. rewrite Nat2Z.id.
    rewrite (drop_ge s (length s)), (drop_ge s (Z.to_nat n)) by lia.
    apply take_nil.
Qed.

Lemma filter_all {A} (P : A → Prop) `{!∀ x, Decision (P x)} (l : list A) :
  Forall P l → filter P l = l.
Proof.
  induction 1 as [|x l Hx _ IH]; [done|].
  rewrite filter_cons, decide_True by done. now rewrite IH.
Qed.

Lemma Forall_filter_self {A} (P : A → Prop) `{!∀ x, Decision (P x)}
  (l : list A) : Forall P (filter P l).
Proof.
  apply Forall_forall. now intros x [? _]%list_elem_of_filter.
Qed.

(** Filtering out the space of the layout gives back the characters. *)
Lemma filter_uk_layout (P : N → Prop) `{!∀ x, Decision (P x)} s :
  ¬ P 32%N → Forall P s → filter P (uk_layout s) = s.
Proof.
  intros H32 Hs. unfold uk_layout. destruct (5 <? length s)%nat.
  - rewrite !filter_app, filter_cons, decide_False by done.
    rewrite filter_nil, app_nil_l.
    rewrite !filter_all by (apply Forall_take || apply Forall_drop; done).
    apply take_drop.
  - now apply filter_all.
Qed.

Lemma length_uk_layout s :
  length (uk_layout s)
  = if (5 <? length s)%nat then S (length s) else length s.
Proof.
  unfold uk_layout. destruct (Nat.ltb_spec 5 (length s)); [|done].
  rewrite !length_app, length_take, length_drop. cbn [length]. lia.
Qed.

(** ** The phone number *)

Lemma phone2_value el :
  value (FormV2.phoneInput_input el)
  = uk_layout (take 11 (keep_digits (value el))).
Proof.
  unfold FormV2.phoneInput_input, uk_layout, str_length.
  set (d := keep_digits (value el)).
  assert (Hd : (if Z.of_nat (length d) >? 11
                then slice d 0 (Some 11) else d) = take 11 d).
  { destruct (Z.gtb_spec (Z.of_nat (length d)) 11).
    - now rewrite slice_prefix.
    - rewrite take_ge; [done|lia]. }
  rewrite Hd. set (d' := take 11 d).
  rewrite slice_prefix, slice_suffix by lia.
  change (Z.to_nat 5) with 5%nat.
  destruct (Z.gtb_spec (Z.of_nat (length d')) 5),
    (Nat.ltb_spec 5 (length d')); try lia;
    destruct (Z.of_nat (length d') =? 0), (Z.of_nat (length d') <? 11);
    reflexivity.
Qed.

Lemma phone2_validity el :
  customValidity (FormV2.phoneInput_input el)
  = let n := length (keep_digits (value el)) in
    if decide (0 < n < 11)%nat
    then units "Please enter your full phone number (11 digits)."
    else [].
Proof.
  unfold FormV2.phoneInput_input, str_length.
  set (d := keep_digits (value el)).
  assert (Hd : (if Z.of_nat (length d) >? 11
                then slice d 0 (Some 11) else d) = take 11 d).
  { destruct (Z.gtb_spec (Z.of_nat (length d)) 11).
    - now rewrite slice_prefix.
    - rewrite take_ge; [done|lia]. }
  rewrite Hd. set (d' := take 11 d).
  assert (Hl : length d' = Nat.min 11 (length d)) by apply length_take.
  cbv zeta.
  destruct (Z.gtb_spec (Z.of_nat (length d')) 5);
    destruct (Z.eqb_spec (Z.of_nat (length d')) 0),
      (Z.ltb_spec (Z.of_nat (length d')) 11); case_decide;
    try reflexivity; lia.
Qed.

Lemma keep_digits_uk_layout s :
  keep_digits (uk_layout (take 11 (keep_digits s)))
  = take 11 (keep_digits s).
Proof.
  unfold keep_digits at 1. apply filter_uk_layout; [done|].
  apply Forall_take, Forall_filter_self.
Qed.

(** X9.  After the phone listener of [part_001] the field holds the first
    eleven digits that were in it and nothing else, but one space after the
    fifth digit when there are more than five: at most twelve characters. *)
Theorem phone_v2_layout el :
  let out := value (FormV2.phoneInput_input el) in
  let digits := take 11 (keep_digits (value el)) in
  keep_digits out = digits
  ∧ out = (if (5 <? length digits)%nat
           then take 5 digits ++ units " " ++ drop 5 digits else digits)
  ∧ (length out ≤ 12)%nat.
Proof.
  intros out digits. unfold out. rewrite phone2_value. fold digits.
  split_and!.
  - apply keep_digits_uk_layout.
  - reflexivity.
  - rewrite length_uk_layout.
    assert (length digits ≤ 11)%nat
      by (unfold digits; rewrite length_take; lia).
    destruct (5 <? length digits)%nat; lia.
Qed.

(** X10.  The phone listener of [part_001] is idempotent: run on the field
    it has just rewritten, it leaves the value and the validity message as
    they are. *)
Theorem phone_v2_idempotent el :
  FormV2.phoneInput_input (FormV2.phoneInput_input el)
  = FormV2.phoneInput_input el.
Proof.
  assert (Heq : ∀ a b : Field,
            value a = value b → customValidity a = customValidity b →
            a = b).
  { intros [] []; cbn; congruence. }
  apply Heq.
  - rewrite !phone2_value, keep_digits_uk_layout.
    now rewrite take_take.
  - rewrite !phone2_validity, phone2_value, keep_digits_uk_layout.
    cbv zeta. rewrite !length_take.
    repeat case_decide; try reflexivity; lia.
Qed.

(** X11.  After the phone listener of [part_001], the validity message is
    empty exactly when the field is empty or [isPhoneComplete] accepts it;
    and [isPhoneComplete] accepts it exactly when at least eleven digits
    had been typed. *)
Theorem phone_v2_validity el :
  let out := FormV2.phoneInput_input el in
  (customValidity out = []
   ↔ value out = [] ∨ FormV2.isPhoneComplete (Some out) = true)
  ∧ (FormV2.isPhoneComplete (Some out) = true
     ↔ (11 ≤ length (keep_digits (value el)))%nat).
Proof.
  intros out. unfold out, FormV2.isPhoneComplete, str_length.
  rewrite phone2_validity, phone2_value, keep_digits_uk_layout.
  cbv zeta. rewrite length_take.
  set (d := keep_digits (value el)).
  assert (Hnil : uk_layout (take 11 d) = [] ↔ length d = 0%nat).
  { split.
    - intros E. apply (f_equal length) in E.
      rewrite length_uk_layout, length_take in E.
      cbn [length] in E. destruct (5 <? _)%nat; lia.
    - intros E. apply nil_length_inv in E. now rewrite E. }
  rewrite Hnil, Z.eqb_eq. split.
  - case_decide; split; try done; lia.
  - lia.
Qed.

Lemma phone1_value el :
  value (FormV1.phoneInput_input el)
  = uk_layout (take 11 (remove_whitespace (value el))).
Proof.
  unfold FormV1.phoneInput_input, str_length.
  set (raw := remove_whitespace (value el)).
  rewrite slice_prefix, slice_suffix by lia.
  change (Z.to_nat 5) with 5%nat. change (units " ") with [32%N].
  assert (Hv : (if Z.of_nat (length raw) >? 5
                then take 5 raw ++ [32%N] ++ drop 5 raw else raw)
               = uk_layout raw).
  { unfold uk_layout.
    destruct (Z.gtb_spec (Z.of_nat (length raw)) 5),
      (Nat.ltb_spec 5 (length raw)); try lia; reflexivity. }
  rewrite Hv. cbn [value set_value].
  pose proof (length_uk_layout raw) as Hlen.
  destruct (Z.gtb_spec (Z.of_nat (length (uk_layout raw))) 11) as [Hgt|Hle].
  - rewrite slice_prefix by lia. change (Z.to_nat 12) with 12%nat.
    assert (11 ≤ length raw)%nat as Hraw
      by (destruct (5 <? length raw)%nat; lia).
    unfold uk_layout. rewrite length_take.
    destruct (Nat.ltb_spec 5 (length raw)),
      (Nat.ltb_spec 5 (Nat.min 11 (length raw))); try lia.
    rewrite take_app, length_take, take_take.
    replace (Nat.min 12 5) with 5%nat by lia.
    replace (12 - Nat.min 5 (length raw))%nat with 7%nat by lia.
    cbn [take app]. rewrite take_take. replace (Nat.min 5 11) with 5%nat by lia.
    do 2 f_equal. rewrite (take_drop_commute raw 6 5). reflexivity.
  - rewrite take_ge; [done|].
    destruct (Nat.ltb_spec 5 (length raw)); lia.
Qed.

Lemma phone1_validity el :
  customValidity (FormV1.phoneInput_input el) = customValidity el.
Proof. reflexivity. Qed.

Lemma remove_whitespace_uk_layout s :
  remove_whitespace (uk_layout (take 11 (remove_whitespace s)))
  = take 11 (remove_whitespace s).
Proof.
  unfold remove_whitespace at 1. apply filter_uk_layout; [done|].
  apply Forall_take, Forall_filter_self.
Qed.

(** X12.  After the phone listener of [script.js] the field holds the first
    eleven characters other than white space that were in it, with one
    space after the fifth when there are more than five: at most twelve
    characters.  The validity message is not touched. *)
Theorem phone_v1_layout el :
  let out := value (FormV1.phoneInput_input el) in
  let kept := take 11 (remove_whitespace (value el)) in
  remove_whitespace out = kept
  ∧ out = (if (5 <? length kept)%nat
           then take 5 kept ++ units " " ++ drop 5 kept else kept)
  ∧ (length out ≤ 12)%nat
  ∧ customValidity (FormV1.phoneInput_input el) = customValidity el.
Proof.
  intros out kept. unfold out. rewrite phone1_value. fold kept.
  split_and!.
  - apply remove_whitespace_uk_layout.
  - reflexivity.
  - rewrite length_uk_layout.
    assert (length kept ≤ 11)%nat by (unfold kept; rewrite length_take; lia).
    destruct (5 <? length kept)%nat; lia.
  - reflexivity.
Qed.

(** X13.  The phone listener of [script.js] is idempotent. *)
Theorem phone_v1_idempotent el :
  FormV1.phoneInput_input (FormV1.phoneInput_input el)
  = FormV1.phoneInput_input el.
Proof.
  assert (Heq : ∀ a b : Field,
            value a = value b → customValidity a = customValidity b →
            a = b).
  { intros [] []; cbn; congruence. }
  apply Heq; [|reflexivity].
  rewrite !phone1_value, remove_whitespace_uk_layout. now rewrite take_take.
Qed.

Lemma digit_not_space c : isDigit c = true → isWhiteSpace c = false.
Proof.
  unfold isDigit, isWhiteSpace.
  rewrite andb_true_iff, !N.leb_le. intros [H1 H2].
  rewrite (proj2 (N.leb_gt c 13)) by lia.
  rewrite (proj2 (N.leb_gt 8192 c)) by lia.
  rewrite !(proj2 (N.eqb_neq c _)) by lia.
  now rewrite andb_false_r.
Qed.

Lemma digits_or_spaces s :
  forallb (λ c, isDigit c || isWhiteSpace c) s = true →
  remove_whitespace s = keep_digits s.
Proof.
  unfold remove_whitespace, keep_digits.
  induction s as [|c s IH]; [done|]. cbn [forallb].
  intros [Hc Hs]%andb_true_iff. rewrite !filter_cons, (IH Hs).
  destruct (isDigit c) eqn:Hd.
  - rewrite (digit_not_space c Hd). now rewrite !decide_True.
  - cbn in Hc. rewrite Hc. now rewrite !decide_False.
Qed.

(** X14.  On a field that holds only digits and white space, the phone
    listeners of the two files leave the same value. *)
Theorem phone_versions_agree el :
  forallb (λ c, isDigit c || isWhiteSpace c) (value el) = true →
  value (FormV1.phoneInput_input el) = value (FormV2.phoneInput_input el).
Proof.
  intros H. now rewrite phone1_value, phone2_value, digits_or_spaces.
Qed.

Lemma phone_versions_agree_witness :
  value (FormV1.phoneInput_input (mkField (units "07123 4567890123") []))
  = value (FormV2.phoneInput_input (mkField (units "07123 4567890123") [])).
Proof.
  apply (phone_versions_agree (mkField (units "07123 4567890123") [])).
  reflexivity.
Defined.

(** ** Trimming *)

Lemma trimStart_head s c r : trimStart s = c :: r → isWhiteSpace c = false.
Proof.
  induction s as [|x s IH]; [done|]. cbn [trimStart].
  destruct (isWhiteSpace x) eqn:Hx; [exact IH|]. now intros [= <- _].
Qed.

Lemma trimStart_cons c r :
  isWhiteSpace c = false → trimStart (c :: r) = c :: r.
Proof. intros H. cbn [trimStart]. now rewrite H. Qed.

Lemma trimStart_idem s : trimStart (trimStart s) = trimStart s.
Proof.
  destruct (trimStart s) as [|c r] eqn:E; [done|].
  apply trimStart_cons. by eapply trimStart_head.
Qed.

Lemma trimStart_snoc u c v :
  isWhiteSpace c = false → trimStart (u ++ c :: v) = trimStart u ++ c :: v.
Proof.
  intros Hc. induction u as [|x u IH]; cbn [app trimStart].
  - now rewrite Hc.
  - destruct (isWhiteSpace x); [exact IH|done].
Qed.

Lemma trimEnd_cons c r :
  isWhiteSpace c = false → trimEnd (c :: r) = c :: trimEnd r.
Proof.
  intros Hc. unfold trimEnd.
  rewrite reverse_cons, trimStart_snoc, reverse_snoc by done. done.
Qed.

Lemma trimEnd_snoc s c :
  isWhiteSpace c = false → trimEnd (s ++ [c]) = s ++ [c].
Proof.
  intros Hc. unfold trimEnd.
  rewrite reverse_snoc, trimStart_cons, reverse_cons, reverse_involutive
    by done. done.
Qed.

Lemma trimEnd_idem s : trimEnd (trimEnd s) = trimEnd s.
Proof.
  unfold trimEnd. now rewrite reverse_involutive, trimStart_idem.
Qed.

Lemma trim_head s c r : trim s = c :: r → isWhiteSpace c = false.
Proof.
  unfold trim. destruct (trimStart s) as [|x t] eqn:E; [done|].
  pose proof (trimStart_head _ _ _ E) as Hx.
  rewrite trimEnd_cons by done. now intros [= <- _].
Qed.

Lemma trimStart_trim s : trimStart (trim s) = trim s.
Proof.
  destruct (trim s) as [|c r] eqn:E; [done|].
  apply trimStart_cons. by eapply trim_head.
Qed.

Lemma trim_idem s : trim (trim s) = trim s.
Proof.
  unfold trim at 1. rewrite trimStart_trim. unfold trim.
  apply trimEnd_idem.
Qed.

Lemma endsWith_at_gmail v : endsWith_at (v ++ units "gmail.com") = false.
Proof.
  unfold endsWith_at. apply bool_decide_eq_false.
  change (units "gmail.com") with (units "gmail.co" ++ [109%N]).
  now rewrite app_assoc, last_snoc.
Qed.

Lemma trim_gmail v :
  trim v = v → endsWith_at v = true →
  trim (v ++ units "gmail.com") = v ++ units "gmail.com".
Proof.
  intros Ht He. unfold endsWith_at in He. apply bool_decide_eq_true in He.
  destruct v as [|c r]; [done|].
  pose proof (trim_head _ _ _ Ht) as Hc.
  unfold trim. cbn [app]. rewrite trimStart_cons by done.
  change (c :: r ++ units "gmail.com")
    with ((c :: r) ++ units "gmail.co" ++ [109%N]).
  rewrite app_assoc. now apply trimEnd_snoc.
Qed.

(** ** The e-mail address *)

Lemma email1_keeps el :
  endsWith_at (value el) = false → FormV1.emailInput_input el = el.
Proof. intros He. unfold FormV1.emailInput_input. now rewrite He. Qed.

Lemma email1_not_at el :
  endsWith_at (value (FormV1.emailInput_input el)) = false.
Proof.
  unfold FormV1.emailInput_input.
  destruct (endsWith_at (value el)) eqn:He; [|done].
  apply endsWith_at_gmail.
Qed.

Lemma email2_facts el :
  trim (value (FormV2.emailInput_input el))
  = value (FormV2.emailInput_input el)
  ∧ endsWith_at (value (FormV2.emailInput_input el)) = false.
Proof.
  unfold FormV2.emailInput_input.
  destruct (endsWith_at (trim (value el))) eqn:He; cbn [value set_value].
  - split; [|apply endsWith_at_gmail].
    apply trim_gmail; [apply trim_idem|done].
  - split; [apply trim_idem|done].
Qed.

(** X15.  After the e-mail listener of [part_001] the value has no white
    space at either end and does not end with "@"; it is the trimmed input,
    completed by "gmail.com" when that ended with "@". *)
Theorem email_v2_output el :
  let out := value (FormV2.emailInput_input el) in
  trim out = out
  ∧ endsWith_at out = false
  ∧ out = (if endsWith_at (trim (value el))
           then trim (value el) ++ units "gmail.com" else trim (value el)).
Proof.
  intros out. destruct (email2_facts el) as [Ht He].
  split_and!; [done..|].
  unfold out, FormV2.emailInput_input.
  now destruct (endsWith_at (trim (value el))).
Qed.

(** X16.  The e-mail listeners of both files are idempotent: run on the
    field they have just rewritten, they change nothing. *)
Theorem email_idempotent el :
  FormV1.emailInput_input (FormV1.emailInput_input el)
  = FormV1.emailInput_input el
  ∧ FormV2.emailInput_input (FormV2.emailInput_input el)
    = FormV2.emailInput_input el.
Proof.
  split.
  - apply email1_keeps, email1_not_at.
  - destruct (email2_facts el) as [Ht He].
    unfold FormV2.emailInput_input at 1. rewrite Ht, He.
    now destruct (FormV2.emailInput_input el).
Qed.

(** X17.  The e-mail listener of [script.js] only ever appends: the value
    it leaves starts with the value it found, does not end with "@", and
    the field is as it found it unless the value ended with "@". *)
Theorem email_v1_output el :
  let out := FormV1.emailInput_input el in
  value el `prefix_of` value out
  ∧ endsWith_at (value out) = false
  ∧ (endsWith_at (value el) = false → out = el).
Proof.
  intros out. split_and!; [|apply email1_not_at|apply email1_keeps].
  unfold out, FormV1.emailInput_input.
  destruct (endsWith_at (value el)); cbn [value set_value]; [by eexists|done].
Qed.

(** ** The number fields *)

Lemma field_eq_value (el : Field) v :
  value el = v → set_value v el = el.
Proof. destruct el. cbn. now intros ->. Qed.

(** X18.  The number listeners of [part_001] clamp: when the value of
    [#cat-num] parses as the integer n, the value left parses as n clamped
    to [1, 99], and the field is not touched when 1 <= n < 99 or when the
    value does not parse; likewise for [#visits-per-day] with [1, 3] and
    1 <= n <= 3. *)
Theorem numbers_v2_clamp el :
  (match parseInt (value el) with
   | None => FormV2.catNumInput_input el = el
   | Some n =>
       parseInt (value (FormV2.catNumInput_input el))
       = Some (Z.max 1 (Z.min n 99))
       ∧ (1 ≤ n < 99 → FormV2.catNumInput_input el = el)
   end)
  ∧ (match parseInt (value el) with
     | None => FormV2.visitsPerDayInput_input el = el
     | Some n =>
         parseInt (value (FormV2.visitsPerDayInput_input el))
         = Some (Z.max 1 (Z.min n 3))
         ∧ (1 ≤ n ≤ 3 → FormV2.visitsPerDayInput_input el = el)
     end).
Proof.
  unfold FormV2.catNumInput_input, FormV2.visitsPerDayInput_input.
  destruct (parseInt (value el)) as [n|] eqn:Hp; [|done]. split.
  - destruct (Z.ltb_spec n 1), (Z.geb_spec n 99); try lia;
      cbn [value set_value]; (split; [|try done; lia]).
    + change (parseInt (units "1")) with (Some 1). f_equal. lia.
    + change (parseInt (units "99")) with (Some 99). f_equal. lia.
    + rewrite Hp. f_equal. lia.
  - destruct (Z.ltb_spec n 1), (Z.gtb_spec n 3); try lia;
      cbn [value set_value]; (split; [|try done; lia]).
    + change (parseInt (units "1")) with (Some 1). f_equal. lia.
    + change (parseInt (units "3")) with (Some 3). f_equal. lia.
    + rewrite Hp. f_equal. lia.
Qed.

(** X19.  The number listeners of [script.js] clamp from above only: when
    the value parses as n, the value left parses as min(n, 99) for
    [#cat-num] and min(n, 3) for [#visits-per-day], so that zero and
    negative numbers stay in the field; a value that does not parse, or
    parses below the bound, is not touched. *)
Theorem numbers_v1_clamp el :
  (match parseInt (value el) with
   | None => FormV1.catNumInput_input el = el
   | Some n =>
       parseInt (value (FormV1.catNumInput_input el)) = Some (Z.min n 99)
       ∧ (n < 99 → FormV1.catNumInput_input el = el)
   end)
  ∧ (match parseInt (value el) with
     | None => FormV1.visitsPerDayInput_input el = el
     | Some n =>
         parseInt (value (FormV1.visitsPerDayInput_input el))
         = Some (Z.min n 3)
         ∧ (n ≤ 3 → FormV1.visitsPerDayInput_input el = el)
     end).
Proof.
  unfold FormV1.catNumInput_input, FormV1.visitsPerDayInput_input.
  destruct (parseInt (value el)) as [n|] eqn:Hp; [|done]. split.
  - destruct (Z.geb_spec n 99); cbn [value set_value];
      (split; [|try done; lia]).
    + change (parseInt (units "99")) with (Some 99). f_equal. lia.
    + rewrite Hp. f_equal. lia.
  - destruct (Z.gtb_spec n 3); cbn [value set_value];
      (split; [|try done; lia]).
    + change (parseInt (units "3")) with (Some 3). f_equal. lia.
    + rewrite Hp. f_equal. lia.
Qed.

(** X20.  The four number listeners are idempotent. *)
Theorem numbers_idempotent el :
  FormV1.catNumInput_input (FormV1.catNumInput_input el)
  = FormV1.catNumInput_input el
  ∧ FormV1.visitsPerDayInput_input (FormV1.visitsPerDayInput_input el)
    = FormV1.visitsPerDayInput_input el
  ∧ FormV2.catNumInput_input (FormV2.catNumInput_input el)
    = FormV2.catNumInput_input el
  ∧ FormV2.visitsPerDayInput_input (FormV2.visitsPerDayInput_input el)
    = FormV2.visitsPerDayInput_input el.
Proof.
  assert (H99 : parseInt (units "99") = Some 99) by reflexivity.
  assert (H3 : parseInt (units "3") = Some 3) by reflexivity.
  assert (H1 : parseInt (units "1") = Some 1) by reflexivity.
  split_and!.
  - assert (Hout : FormV1.catNumInput_input el = el
                   ∨ FormV1.catNumInput_input el
                     = set_value (units "99") el).
    { unfold FormV1.catNumInput_input.
      destruct (parseInt (value el)) as [n|] eqn:Hp; [|by left].
      destruct (n >=? 99); [by right|by left]. }
    destruct Hout as [E|E]; [now rewrite !E|..]; rewrite E.
    + unfold FormV1.catNumInput_input at 1. cbn [value set_value].
      rewrite H99. reflexivity.
  - assert (Hout : FormV1.visitsPerDayInput_input el = el
                   ∨ FormV1.visitsPerDayInput_input el
                     = set_value (units "3") el).
    { unfold FormV1.visitsPerDayInput_input.
      destruct (parseInt (value el)) as [n|] eqn:Hp; [|by left].
      destruct (n >? 3); [by right|by left]. }
    destruct Hout as [E|E]; [now rewrite !E|..]; rewrite E.
    + unfold FormV1.visitsPerDayInput_input at 1. cbn [value set_value].
      rewrite H3. reflexivity.
  - assert (Hout : FormV2.catNumInput_input el = el
                   ∨ FormV2.catNumInput_input el
                     = set_value (units "1") el
                   ∨ FormV2.catNumInput_input el
                     = set_value (units "99") el).
    { unfold FormV2.catNumInput_input.
      destruct (parseInt (value el)) as [n|] eqn:Hp; [|by left].
      destruct (n <? 1), (n >=? 99); auto. }
    destruct Hout as [E|[E|E]]; [now rewrite !E|..]; rewrite E.
    + unfold FormV2.catNumInput_input at 1. cbn [value set_value].
      rewrite H1. reflexivity.
    + unfold FormV2.catNumInput_input at 1. cbn [value set_value].
      rewrite H99. reflexivity.
  - assert (Hout : FormV2.visitsPerDayInput_input el = el
                   ∨ FormV2.visitsPerDayInput_input el
                     = set_value (units "1") el
                   ∨ FormV2.visitsPerDayInput_input el
                     = set_value (units "3") el).
    { unfold FormV2.visitsPerDayInput_input.
      destruct (parseInt (value el)) as [n|] eqn:Hp; [|by left].
      destruct (n <? 1), (n >? 3); auto. }
    destruct Hout as [E|[E|E]]; [now rewrite !E|..]; rewrite E.
    + unfold FormV2.visitsPerDayInput_input at 1. cbn [value set_value].
      rewrite H1. reflexivity.
    + unfold FormV2.visitsPerDayInput_input at 1. cbn [value set_value].
      rewrite H3. reflexivity.
Qed.

(** * The check boxes *)

Lemma static_with_checked v box :
  box_static (with_checked v box) = box_static box.
Proof. reflexivity. Qed.

Lemma static_set_checked el v doc :
  box_static <$> set_checked el v doc = box_static <$> doc.
Proof. apply fmap_alter_same. intros x. apply static_with_checked. Qed.

Lemma static_length (doc doc' : list Checkbox) :
  box_static <$> doc' = box_static <$> doc → length doc' = length doc.
Proof.
  intros H. rewrite <- (length_fmap box_static doc'), H. apply length_fmap.
Qed.

Lemma static_lookup (doc doc' : list Checkbox) (el : nat) :
  box_static <$> doc' = box_static <$> doc →
  box_static <$> doc' !! el = box_static <$> doc !! el.
Proof. intros H. now rewrite <- !list_lookup_fmap, H. Qed.

Lemma getElementById_cons id box doc :
  getElementById id (box :: doc)
  = if decide (box_id box = id) then Some 0%nat
    else S <$> getElementById id doc.
Proof.
  unfold getElementById. cbn [list_find]. case_decide; [done|].
  now destruct (list_find _ doc) as [[i x]|].
Qed.

Lemma getElementById_static id doc doc' :
  box_static <$> doc' = box_static <$> doc →
  getElementById id doc' = getElementById id doc.
Proof.
  revert doc'. induction doc as [|x doc IH]; intros [|y doc'] H; try done.
  rewrite !fmap_cons in H. injection H as Hid _ _ Ht.
  rewrite !getElementById_cons, Hid, (IH doc' Ht). done.
Qed.

Lemma getElementById_Some id doc el :
  getElementById id doc = Some el →
  (el < length doc)%nat ∧ id_of doc el = id.
Proof.
  unfold getElementById, id_of.
  destruct (list_find _ doc) as [[i x]|] eqn:E; [|done].
  cbn. intros [= ->]. apply list_find_Some in E as (Hx & Hid & _).
  split; [by eapply lookup_lt_Some|]. now rewrite Hx.
Qed.

Lemma is_checked_set_checked el v doc j :
  is_checked (set_checked el v doc) j
  = if Nat.eqb j el then v && bool_decide (el < length doc)%nat
    else is_checked doc j.
Proof.
  unfold is_checked, set_checked. destruct (Nat.eqb_spec j el) as [->|Hj].
  - rewrite list_lookup_alter_eq.
    destruct (doc !! el) as [box|] eqn:E; cbn.
    + rewrite bool_decide_eq_true_2 by (by eapply lookup_lt_Some).
      now rewrite andb_true_r.
    + apply lookup_ge_None in E.
      rewrite bool_decide_eq_false_2 by lia. now rewrite andb_false_r.
  - now rewrite list_lookup_alter_ne.
Qed.

Lemma is_checked_flip el doc j :
  is_checked (alter (λ box, with_checked (negb (checked box)) box) el doc) j
  = if Nat.eqb j el
    then negb (is_checked doc el) && bool_decide (el < length doc)%nat
    else is_checked doc j.
Proof.
  unfold is_checked. destruct (Nat.eqb_spec j el) as [->|Hj].
  - rewrite list_lookup_alter_eq.
    destruct (doc !! el) as [box|] eqn:E; cbn.
    + rewrite bool_decide_eq_true_2 by (by eapply lookup_lt_Some).
      now rewrite andb_true_r.
    + apply lookup_ge_None in E.
      now rewrite bool_decide_eq_false_2 by lia.
  - now rewrite list_lookup_alter_ne.
Qed.

Lemma static_flip (el : nat) (doc : list Checkbox) :
  box_static <$> alter (λ box, with_checked (negb (checked box)) box) el doc
  = box_static <$> doc.
Proof. now apply fmap_alter_same. Qed.

Lemma static_id_of doc doc' el :
  box_static <$> doc' = box_static <$> doc → id_of doc' el = id_of doc el.
Proof.
  intros H. pose proof (static_lookup doc doc' el H) as Hl. unfold id_of.
  destruct (doc' !! el) as [x|], (doc !! el) as [y|]; cbn in *; try done.
  now injection Hl as -> _ _.
Qed.

Lemma static_only_one doc doc' el :
  box_static <$> doc' = box_static <$> doc →
  only_one doc' el = only_one doc el.
Proof.
  intros H. pose proof (static_lookup doc doc' el H) as Hl. unfold only_one.
  destruct (doc' !! el) as [x|], (doc !! el) as [y|]; cbn in *; try done.
  now injection Hl as _ _ ->.
Qed.

Lemma static_named_time_slot doc doc' el :
  box_static <$> doc' = box_static <$> doc →
  named_time_slot doc' el = named_time_slot doc el.
Proof.
  intros H. pose proof (static_lookup doc doc' el H) as Hl.
  unfold named_time_slot.
  destruct (doc' !! el) as [x|], (doc !! el) as [y|]; cbn in *; try done.
  now injection Hl as _ -> _.
Qed.

Lemma time_slot_group_static doc doc' m a e n :
  box_static <$> doc' = box_static <$> doc →
  time_slot_group doc m a e n → time_slot_group doc' m a e n.
Proof.
  intros Hs (Hm & Ha & He & Hn & Hnames). unfold time_slot_group.
  rewrite !(getElementById_static _ doc doc' Hs).
  now rewrite !(static_named_time_slot doc doc' _ Hs).
Qed.

(** The four boxes of the group are four different boxes of the
    document, with the ids the script looks for. *)
Lemma time_slot_group_distinct doc m a e n :
  time_slot_group doc m a e n →
  (m < length doc ∧ a < length doc ∧ e < length doc ∧ n < length doc)%nat
  ∧ m ≠ a ∧ m ≠ e ∧ m ≠ n ∧ a ≠ e ∧ a ≠ n ∧ e ≠ n
  ∧ id_of doc m = "morning" ∧ id_of doc a = "afternoon"
  ∧ id_of doc e = "evening" ∧ id_of doc n = "none".
Proof.
  intros (Hm & Ha & He & Hn & _).
  apply getElementById_Some in Hm as [? Hm], Ha as [? Ha], He as [? He],
    Hn as [? Hn].
  split_and!; try done; intros ->; congruence.
Qed.

Lemma length_set_checked el v doc :
  length (set_checked el v doc) = length doc.
Proof. apply length_alter. Qed.

(** ** What each listener does to the boxes *)

Lemma eqb_false (x y : nat) :
  x ≠ y → Nat.eqb x y = false ∧ Nat.eqb y x = false.
Proof. intros H. split; apply Nat.eqb_neq; congruence. Qed.

Lemma onlyOne_change_spec this doc :
  ∃ doc', onlyOne_change this doc = Returned tt doc'
    ∧ box_static <$> doc' = box_static <$> doc
    ∧ ∀ j, is_checked doc' j
           = if is_checked doc this && only_one doc j
                && negb (Nat.eqb j this)
             then false else is_checked doc j.
Proof.
  unfold onlyOne_change. destruct (is_checked doc this) eqn:Hthis.
  - eexists. split; [reflexivity|]. split.
    + apply list_eq. intros j. rewrite !list_lookup_fmap, list_lookup_imap.
      destruct (doc !! j) as [box|]; cbn; [|done].
      now destruct (_ && _).
    + intros j. unfold is_checked at 1, only_one.
      rewrite list_lookup_imap. unfold is_checked.
      destruct (doc !! j) as [box|]; cbn; [|done].
      case_bool_decide as H1; case_bool_decide as H2;
        destruct (Nat.eqb_spec j this); try done.
  - exists doc. now split_and!.
Qed.

Lemma timeSlot_change_spec doc m a e n this :
  time_slot_group doc m a e n →
  ∃ doc', timeSlot_change this doc = Returned tt doc'
    ∧ box_static <$> doc' = box_static <$> doc
    ∧ ∀ j, is_checked doc' j
           = let c := is_checked doc in
             let clear := c this && negb (String.eqb (id_of doc this) "none") in
             if c m && c a && c e
             then (if Nat.eqb j n then true
                   else if Nat.eqb j m || Nat.eqb j a || Nat.eqb j e
                   then false else c j)
             else (if Nat.eqb j n then c n && negb clear else c j).
Proof.
  intros Hg.
  pose proof (time_slot_group_distinct _ _ _ _ _ Hg)
    as ((Hlm & Hla & Hle & Hln) & [Hma _]%eqb_false & [Hme _]%eqb_false
        & [Hmn Hnm]%eqb_false & [Hae _]%eqb_false & [Han Hna]%eqb_false
        & [Hen Hne]%eqb_false & _).
  unfold timeSlot_change, mbind, Dom_bind, read, mret, Dom_ret.
  set (clear := is_checked doc this
                && negb (String.eqb (id_of doc this) "none")).
  set (doc1 := if clear then set_checked n false doc else doc).
  assert (Hs1 : box_static <$> doc1 = box_static <$> doc).
  { unfold doc1. destruct clear; [apply static_set_checked|done]. }
  assert (Hc1 : ∀ j, is_checked doc1 j
                     = if Nat.eqb j n then is_checked doc n && negb clear
                       else is_checked doc j).
  { intros j. unfold doc1. destruct clear.
    - rewrite is_checked_set_checked. destruct (Nat.eqb j n); [|done].
      now rewrite andb_false_r.
    - destruct (Nat.eqb_spec j n); [subst|done]. now rewrite andb_true_r. }
  assert (Hstep1 : (if clear then assign_checked (noneCheckbox doc) false
                    else λ doc, Returned tt doc) doc = Returned tt doc1).
  { unfold doc1, noneCheckbox. destruct Hg as (_ & _ & _ & -> & _).
    now destruct clear. }
  rewrite Hstep1.
  pose proof (time_slot_group_static doc doc1 m a e n Hs1 Hg)
    as (Hm1 & Ha1 & He1 & Hn1 & _).
  unfold timeSlots, noneCheckbox. rewrite Hm1, Ha1, He1, Hn1.
  cbn [every_checked uncheck_each assign_checked mbind Dom_bind mret Dom_ret].
  unfold mbind, Dom_bind, mret, Dom_ret. cbn [assign_checked].
  rewrite !Hc1, Hmn, Han, Hen.
  destruct (is_checked doc m), (is_checked doc a), (is_checked doc e);
    cbn [andb];
    try (exists doc1; split_and!; [done|done|];
         intros j; rewrite Hc1; reflexivity).
  eexists. split; [reflexivity|]. split.
  - now rewrite !static_set_checked.
  - intros j. rewrite !is_checked_set_checked, !length_set_checked.
    rewrite (static_length _ _ Hs1).
    rewrite !bool_decide_eq_true_2 by done. rewrite Hc1. cbn [andb].
    destruct (Nat.eqb j n), (Nat.eqb j m), (Nat.eqb j a), (Nat.eqb j e);
      done.
Qed.

Lemma none_change_spec doc m a e n this :
  time_slot_group doc m a e n →
  ∃ doc', none_change this doc = Returned tt doc'
    ∧ box_static <$> doc' = box_static <$> doc
    ∧ ∀ j, is_checked doc' j
           = if is_checked doc this
                && (Nat.eqb j m || Nat.eqb j a || Nat.eqb j e)
             then false else is_checked doc j.
Proof.
  intros Hg.
  pose proof (time_slot_group_distinct _ _ _ _ _ Hg)
    as ((Hlm & Hla & Hle & Hln) & _).
  unfold none_change. destruct (is_checked doc this).
  - destruct Hg as (Hm & Ha & He & _). unfold timeSlots.
    rewrite Hm, Ha, He.
    cbn [uncheck_each assign_checked mbind Dom_bind mret Dom_ret].
    unfold mbind, Dom_bind, mret, Dom_ret. cbn [assign_checked].
    eexists. split; [reflexivity|]. split.
    + now rewrite !static_set_checked.
    + intros j. rewrite !is_checked_set_checked, !length_set_checked.
      rewrite !bool_decide_eq_true_2 by done. cbn [andb].
      destruct (Nat.eqb j m), (Nat.eqb j a), (Nat.eqb j e); done.
  - exists doc. now split_and!.
Qed.

(** The listeners of a box, from what the box is. *)
Lemma change_listeners_spec doc m a e n el :
  time_slot_group doc m a e n →
  change_listeners doc el
  = (if only_one doc el then [OnlyOneChange] else [])
    ++ (if named_time_slot doc el then [TimeSlotChange] else [])
    ++ (if bool_decide (el = n) && bool_decide (el < length doc)%nat
        then [NoneChange] else []).
Proof.
  intros (_ & _ & _ & Hn & _). unfold change_listeners, only_one,
    named_time_slot, noneCheckbox. rewrite Hn.
  destruct (doc !! el) as [box|] eqn:E; cbn.
  - rewrite (bool_decide_eq_true_2 (el < length doc)%nat)
      by (by eapply lookup_lt_Some).
    rewrite andb_true_r. do 2 f_equal.
    case_bool_decide as H1; case_bool_decide as H2; try done; congruence.
  - apply lookup_ge_None in E.
    rewrite (bool_decide_eq_false_2 (el < length doc)%nat) by lia.
    now rewrite andb_false_r.
Qed.

Lemma user_change_spec doc m a e n el :
  time_slot_group doc m a e n →
  (el < length doc)%nat →
  ∃ doc', user_change el doc = Returned tt doc'
    ∧ box_static <$> doc' = box_static <$> doc
    ∧ ∀ j, is_checked doc' j
           = let c0 j := if Nat.eqb j el then negb (is_checked doc el)
                         else is_checked doc j in
             let c1 j := if only_one doc el && c0 el && only_one doc j
                            && negb (Nat.eqb j el)
                         then false else c0 j in
             let clear := c1 el && negb (String.eqb (id_of doc el) "none") in
             let c2 j := if negb (named_time_slot doc el) then c1 j
                         else if c1 m && c1 a && c1 e
                         then (if Nat.eqb j n then true
                               else if Nat.eqb j m || Nat.eqb j a
                                       || Nat.eqb j e
                               then false else c1 j)
                         else (if Nat.eqb j n then c1 n && negb clear
                               else c1 j) in
             if Nat.eqb el n && c2 el
                && (Nat.eqb j m || Nat.eqb j a || Nat.eqb j e)
             then false else c2 j.
Proof.
  intros Hg Hel. unfold user_change.
  rewrite (change_listeners_spec doc m a e n el Hg).
  rewrite (bool_decide_eq_true_2 (el < length doc)%nat), andb_true_r by done.
  set (doc0 := alter _ el doc).
  assert (Hs0 : box_static <$> doc0 = box_static <$> doc) by apply static_flip.
  assert (Hc0 : ∀ j, is_checked doc0 j
                     = if Nat.eqb j el then negb (is_checked doc el)
                       else is_checked doc j).
  { intros j. unfold doc0. rewrite is_checked_flip.
    rewrite bool_decide_eq_true_2 by done. now rewrite andb_true_r. }
  clearbody doc0.
  (* the .only-one listener, when attached *)
  assert (H1 : ∃ d1,
             (∀ rest, dispatch_change
                        ((if only_one doc el then [OnlyOneChange] else [])
                         ++ rest) el doc0
                      = dispatch_change rest el d1)
             ∧ box_static <$> d1 = box_static <$> doc
             ∧ ∀ j, is_checked d1 j
                    = if only_one doc el && is_checked doc0 el
                         && only_one doc j && negb (Nat.eqb j el)
                      then false else is_checked doc0 j).
  { destruct (only_one doc el) eqn:Hoo.
    - destruct (onlyOne_change_spec el doc0) as (d1 & Hr1 & Hs1 & Hc1).
      exists d1. split_and!; [|congruence|].
      + intros rest. cbn [app dispatch_change run_change]. now rewrite Hr1.
      + intros j. rewrite Hc1, (static_only_one doc doc0) by done. done.
    - exists doc0. split_and!; done. }
  destruct H1 as (d1 & Hr1 & Hs1 & Hc1). rewrite Hr1. clear Hr1.
  (* the time-slot listener, when attached *)
  assert (H2 : ∃ d2,
             (∀ rest, dispatch_change
                        ((if named_time_slot doc el
                          then [TimeSlotChange] else []) ++ rest) el d1
                      = dispatch_change rest el d2)
             ∧ box_static <$> d2 = box_static <$> doc
             ∧ ∀ j, is_checked d2 j
                    = let c := is_checked d1 in
                      let clear :=
                        c el && negb (String.eqb (id_of doc el) "none") in
                      if negb (named_time_slot doc el) then c j
                      else if c m && c a && c e
                      then (if Nat.eqb j n then true
                            else if Nat.eqb j m || Nat.eqb j a || Nat.eqb j e
                            then false else c j)
                      else (if Nat.eqb j n then c n && negb clear
                            else c j)).
  { destruct (named_time_slot doc el) eqn:Hnm.
    - destruct (timeSlot_change_spec d1 m a e n el) as (d2 & Hr2 & Hs2 & Hc2).
      { by eapply time_slot_group_static. }
      exists d2. split_and!; [|congruence|].
      + intros rest. cbn [app dispatch_change run_change]. now rewrite Hr2.
      + intros j. rewrite Hc2, (static_id_of doc d1) by done. done.
    - exists d1. split_and!; done. }
  destruct H2 as (d2 & Hr2 & Hs2 & Hc2). rewrite Hr2. clear Hr2.
  (* the listener of the none box, when the box is that one *)
  assert (H3 : ∃ d3,
             dispatch_change
               ((if bool_decide (el = n) then [NoneChange] else []) ++ [])
               el d2 = Returned tt d3
             ∧ box_static <$> d3 = box_static <$> doc
             ∧ ∀ j, is_checked d3 j
                    = if Nat.eqb el n && is_checked d2 el
                         && (Nat.eqb j m || Nat.eqb j a || Nat.eqb j e)
                      then false else is_checked d2 j).
  { case_bool_decide as Hn.
    - destruct (none_change_spec d2 m a e n el) as (d3 & Hr3 & Hs3 & Hc3).
      { by eapply time_slot_group_static. }
      exists d3. split_and!; [|congruence|].
      + cbn [app dispatch_change run_change]. now rewrite Hr3.
      + intros j. rewrite Hc3. subst el. now rewrite Nat.eqb_refl.
    - apply eqb_false in Hn as [Hn _]. rewrite Hn.
      exists d2. split_and!; done. }
  destruct H3 as (d3 & Hr3 & Hs3 & Hc3).
  rewrite app_nil_r in Hr3.
  exists d3. split_and!; [done..|].
  intros j. rewrite Hc3, !Hc2. cbv zeta. rewrite !Hc1, !Hc0. reflexivity.
Qed.

(** ** The time slots and the exclusive group *)

Lemma time_slot_group_facts doc m a e n :
  time_slot_group doc m a e n →
  String.eqb (id_of doc m) "none" = false
  ∧ String.eqb (id_of doc a) "none" = false
  ∧ String.eqb (id_of doc e) "none" = false
  ∧ String.eqb (id_of doc n) "none" = true.
Proof.
  intros Hg. pose proof (time_slot_group_distinct _ _ _ _ _ Hg)
    as (_ & _ & _ & _ & _ & _ & _ & -> & -> & -> & ->). done.
Qed.

Ltac group_facts Hg :=
  pose proof (time_slot_group_distinct _ _ _ _ _ Hg)
    as ((? & ? & ? & ?) & ?%eqb_false & ?%eqb_false & ?%eqb_false
        & ?%eqb_false & ?%eqb_false & ?%eqb_false & _);
  pose proof (time_slot_group_facts _ _ _ _ _ Hg) as (? & ? & ? & ?);
  pose proof Hg as (_ & _ & _ & _ & ? & ? & ?);
  destruct_and?.

Ltac rewrite_facts :=
  repeat match goal with
    | H : Nat.eqb _ _ = _ |- _ => rewrite !H
    | H : String.eqb _ _ = _ |- _ => rewrite !H
    | H : named_time_slot _ _ = _ |- _ => rewrite !H
    | H : only_one _ _ = _ |- _ => rewrite !H
    | H : is_checked _ _ = _ |- _ => rewrite !H
    end.

Lemma all2_spec (p : bool → bool) : all2 p = true → ∀ b, p b = true.
Proof. unfold all2. intros [H1 H2]%andb_true_iff []; done. Qed.

Lemma implb_elim (x y : bool) : implb x y = true → x = true → y = true.
Proof. now destruct x, y. Qed.

Ltac abstract_bools :=
  repeat match goal with
    | |- context [is_checked ?d ?x] => generalize (is_checked d x); intro
    | |- context [only_one ?d ?x] => generalize (only_one d x); intro
    | |- context [named_time_slot ?d ?x] =>
        generalize (named_time_slot d x); intro
    | |- context [String.eqb ?x ?y] => generalize (String.eqb x y); intro
    end.

Ltac all_bools :=
  repeat match goal with
    | b : bool |- _ =>
        revert b;
        match goal with |- ∀ x : bool, @?p x = true => apply (all2_spec p) end
    end;
  vm_compute; reflexivity.

Ltac which_box el m a e n :=
  destruct (decide (el = m)) as [->|?%eqb_false];
    [|destruct (decide (el = a)) as [->|?%eqb_false];
      [|destruct (decide (el = e)) as [->|?%eqb_false];
        [|destruct (decide (el = n)) as [->|?%eqb_false]]]];
  destruct_and?.

(** X22.  In a document with the three time slots (named "time-slot") and
    the "none" box, when "No Preference" is not checked together with a slot
    and the three slots are not all checked, a click on any box completes
    without an exception and leaves the selection in such a state. *)
Theorem selection_stays_ok doc m a e n el :
  time_slot_group doc m a e n →
  (el < length doc)%nat →
  selection_ok doc m a e n = true →
  ∃ doc', user_change el doc = Returned tt doc'
          ∧ time_slot_group doc' m a e n
          ∧ selection_ok doc' m a e n = true.
Proof.
  intros Hg Hel Hok.
  destruct (user_change_spec doc m a e n el Hg Hel) as (doc' & Hr & Hs & Hc).
  exists doc'. split; [done|]. split; [by eapply time_slot_group_static|].
  group_facts Hg. revert Hok. unfold selection_ok. rewrite !Hc. cbv zeta.
  clear Hc Hr Hs Hg. apply implb_elim.
  which_box el m a e n; rewrite ?Nat.eqb_refl; rewrite_facts;
    abstract_bools.
  all: all_bools.
Qed.

Lemma user_change_at doc m a e n el :
  time_slot_group doc m a e n →
  (el < length doc)%nat →
  ∃ doc', user_change el doc = Returned tt doc'
    ∧ ∀ j, is_checked doc' j
           = let c0 j := if Nat.eqb j el then negb (is_checked doc el)
                         else is_checked doc j in
             let c1 j := if only_one doc el && c0 el && only_one doc j
                            && negb (Nat.eqb j el)
                         then false else c0 j in
             let clear := c1 el && negb (String.eqb (id_of doc el) "none") in
             let c2 j := if negb (named_time_slot doc el) then c1 j
                         else if c1 m && c1 a && c1 e
                         then (if Nat.eqb j n then true
                               else if Nat.eqb j m || Nat.eqb j a
                                       || Nat.eqb j e
                               then false else c1 j)
                         else (if Nat.eqb j n then c1 n && negb clear
                               else c1 j) in
             if Nat.eqb el n && c2 el
                && (Nat.eqb j m || Nat.eqb j a || Nat.eqb j e)
             then false else c2 j.
Proof.
  intros Hg Hel.
  destruct (user_change_spec doc m a e n el Hg Hel) as (doc' & Hr & _ & Hc).
  by exists doc'.
Qed.

(** X23.  Checking the only slot that was still unchecked, when that slot
    is not in the [.only-one] group, unchecks the three slots and checks
    "No Preference". *)
Theorem third_slot_switches_to_none doc m a e n el :
  time_slot_group doc m a e n →
  el = m ∨ el = a ∨ el = e →
  only_one doc el = false →
  is_checked doc el = false →
  forallb (λ s, Nat.eqb s el || is_checked doc s) [m; a; e] = true →
  ∃ doc', user_change el doc = Returned tt doc'
          ∧ is_checked doc' m = false ∧ is_checked doc' a = false
          ∧ is_checked doc' e = false ∧ is_checked doc' n = true.
Proof.
  intros Hg Hwhich Hoo Hun Hothers. group_facts Hg.
  assert (Hel : (el < length doc)%nat) by (destruct Hwhich as [?|[?|?]]; subst; done).
  destruct (user_change_at doc m a e n el Hg Hel) as (doc' & Hr & Hc).
  exists doc'. split; [done|].
  assert (X : negb (is_checked doc' m) && negb (is_checked doc' a)
              && negb (is_checked doc' e) && is_checked doc' n = true).
  { revert Hothers. cbn [forallb]. rewrite !Hc. cbv zeta. clear Hc Hr Hg.
    apply implb_elim.
    destruct Hwhich as [?|[?|?]]; subst; rewrite ?Nat.eqb_refl;
      rewrite_facts;
      abstract_bools; all_bools. }
  apply andb_true_iff in X as [[[X1 X2]%andb_true_iff X3]%andb_true_iff X4].
  apply negb_true_iff in X1, X2, X3. done.
Qed.

(** X24.  Checking a slot while another slot is unchecked leaves that slot
    checked and "No Preference" unchecked; when the slot is not in the
    [.only-one] group, no other box changes. *)
Theorem slot_unchecks_none doc m a e n el :
  time_slot_group doc m a e n →
  el = m ∨ el = a ∨ el = e →
  is_checked doc el = false →
  forallb (λ s, Nat.eqb s el || is_checked doc s) [m; a; e] = false →
  ∃ doc', user_change el doc = Returned tt doc'
          ∧ is_checked doc' el = true
          ∧ is_checked doc' n = false
          ∧ (only_one doc el = false →
             ∀ s, s ≠ el → s ≠ n → is_checked doc' s = is_checked doc s).
Proof.
  intros Hg Hwhich Hun Hothers. group_facts Hg.
  assert (Hel : (el < length doc)%nat)
    by (destruct Hwhich as [?|[?|?]]; subst; done).
  destruct (user_change_at doc m a e n el Hg Hel) as (doc' & Hr & Hc).
  exists doc'. split; [done|].
  apply negb_true_iff in Hothers.
  assert (X : is_checked doc' el && negb (is_checked doc' n) = true).
  { revert Hothers. cbn [forallb]. rewrite !Hc. cbv zeta. clear Hc Hr Hg.
    apply implb_elim.
    destruct Hwhich as [?|[?|?]]; subst; rewrite ?Nat.eqb_refl;
      rewrite_facts; abstract_bools; all_bools. }
  apply andb_true_iff in X as [X1 X2%negb_true_iff].
  split_and!; [done..|].
  intros Hoo s [Hs1 Hs2]%eqb_false [Hs3 Hs4]%eqb_false.
  revert Hothers. cbn [forallb]. rewrite !Hc. cbv zeta. clear Hc Hr Hg X1 X2.
  intros Hothers. apply Bool.eqb_prop. revert Hothers. apply implb_elim.
  destruct Hwhich as [?|[?|?]]; subst; rewrite ?Nat.eqb_refl;
    rewrite_facts; abstract_bools;
    repeat match goal with
      | |- context [Nat.eqb ?x ?y] => generalize (Nat.eqb x y); intro
      end; all_bools.
Qed.

(** X25.  Checking "No Preference" leaves it checked and the three slots
    unchecked. *)
Theorem none_clears_slots doc m a e n :
  time_slot_group doc m a e n →
  is_checked doc n = false →
  ∃ doc', user_change n doc = Returned tt doc'
          ∧ is_checked doc' n = true
          ∧ is_checked doc' m = false ∧ is_checked doc' a = false
          ∧ is_checked doc' e = false.
Proof.
  intros Hg Hun. group_facts Hg.
  destruct (user_change_at doc m a e n n Hg) as (doc' & Hr & Hc); [done|].
  exists doc'. split; [done|].
  assert (X : is_checked doc' n && negb (is_checked doc' m)
              && negb (is_checked doc' a) && negb (is_checked doc' e) = true).
  { rewrite !Hc. cbv zeta. clear Hc Hr Hg.
    rewrite ?Nat.eqb_refl; rewrite_facts; abstract_bools; all_bools. }
  apply andb_true_iff in X as [[[X1 X2]%andb_true_iff X3]%andb_true_iff X4].
  apply negb_true_iff in X2, X3, X4. done.
Qed.

(** X26.  From a selection in which "No Preference" is not checked with a
    slot and the slots are not all checked, unchecking a box unchecks that
    box and changes no other box. *)
Theorem unchecking_changes_nothing_else doc m a e n el :
  time_slot_group doc m a e n →
  (el < length doc)%nat →
  selection_ok doc m a e n = true →
  is_checked doc el = true →
  ∃ doc', user_change el doc = Returned tt doc'
          ∧ is_checked doc' el = false
          ∧ ∀ j, j ≠ el → is_checked doc' j = is_checked doc j.
Proof.
  intros Hg Hel Hok Hon. group_facts Hg.
  destruct (user_change_at doc m a e n el Hg Hel) as (doc' & Hr & Hc).
  exists doc'. split; [done|].
  assert (Hall : ∀ j, is_checked doc' j
                      = if Nat.eqb j el then false else is_checked doc j).
  { intros j. revert Hok. unfold selection_ok. rewrite !Hc. cbv zeta.
    clear Hc Hr Hg. intros Hok. apply Bool.eqb_prop. revert Hok.
    apply implb_elim.
    which_box el m a e n; which_box j m a e n;
      try (destruct (decide (j = el)) as [->|?%eqb_false]; destruct_and?);
      rewrite ?Nat.eqb_refl; rewrite_facts; abstract_bools; all_bools. }
  split.
  - now rewrite Hall, Nat.eqb_refl.
  - intros j [Hj _]%eqb_false. now rewrite Hall, Hj.
Qed.

Lemma getElementById_None id doc el box :
  getElementById id doc = None → doc !! el = Some box → box_id box ≠ id.
Proof.
  unfold getElementById. destruct (list_find _ doc) eqn:E; [done|].
  intros _ Hbox. apply list_find_None in E. rewrite Forall_forall in E.
  apply E. apply list_elem_of_lookup. eauto.
Qed.

(** X27.  In a document without an element of id "none", checking a box
    named "time-slot" throws a TypeError in its change listener; the box
    stays checked. *)
Theorem missing_none_throws doc el box :
  getElementById "none" doc = None →
  doc !! el = Some box →
  box_name box = "time-slot" →
  checked box = false →
  throws (user_change el doc) = true
  ∧ is_checked (state_of (user_change el doc)) el = true.
Proof.
  intros Hnone Hbox Hname Hun.
  assert (Hel : (el < length doc)%nat) by (by eapply lookup_lt_Some).
  unfold user_change, change_listeners. rewrite Hbox, Hname.
  change (String.eqb "time-slot" "time-slot") with true.
  rewrite (bool_decide_eq_false_2 (noneCheckbox doc = Some el))
    by (unfold noneCheckbox; now rewrite Hnone).
  rewrite app_nil_r.
  set (doc0 := alter _ el doc).
  assert (Hs0 : box_static <$> doc0 = box_static <$> doc) by apply static_flip.
  assert (Hc0 : is_checked doc0 el = true).
  { unfold doc0. rewrite is_checked_flip, Nat.eqb_refl.
    rewrite bool_decide_eq_true_2 by done. unfold is_checked.
    rewrite Hbox. cbn. now rewrite Hun. }
  clearbody doc0.
  assert (Hslot : ∀ d, box_static <$> d = box_static <$> doc →
                       is_checked d el = true →
                       timeSlot_change el d = Threw TypeError d).
  { intros d Hs Hc. unfold timeSlot_change, mbind, Dom_bind, read.
    rewrite Hc. unfold noneCheckbox.
    rewrite (getElementById_static _ doc d Hs), Hnone.
    rewrite (static_id_of doc d) by done.
    assert (String.eqb (id_of doc el) "none" = false) as ->.
    { apply String.eqb_neq. unfold id_of. rewrite Hbox. cbn.
      by eapply getElementById_None. }
    reflexivity. }
  destruct (bool_decide ("only-one" ∈ box_class box)).
  - destruct (onlyOne_change_spec el doc0) as (d1 & Hr1 & Hs1 & Hc1).
    cbn [app dispatch_change run_change]. rewrite Hr1.
    rewrite Hslot; [|congruence|].
    + cbn. rewrite Hc1, Nat.eqb_refl, Hc0. now rewrite andb_false_r.
    + rewrite Hc1, Nat.eqb_refl, Hc0. now rewrite andb_false_r.
  - cbn [app dispatch_change run_change]. rewrite Hslot by done. done.
Qed.

(** X28.  For a box of the [.only-one] group that is neither named
    "time-slot" nor the "none" box: checking it unchecks every other box of
    the group and no box outside the group; unchecking it changes no other
    box. *)
Theorem only_one_exclusive doc el box :
  doc !! el = Some box →
  "only-one" ∈ box_class box →
  box_name box ≠ "time-slot" →
  noneCheckbox doc ≠ Some el →
  ∃ doc', user_change el doc = Returned tt doc'
    ∧ ∀ j, is_checked doc' j
           = if Nat.eqb j el then negb (checked box)
             else if negb (checked box) && only_one doc j then false
             else is_checked doc j.
Proof.
  intros Hbox Hclass Hname Hnone.
  assert (Hel : (el < length doc)%nat) by (by eapply lookup_lt_Some).
  unfold user_change, change_listeners. rewrite Hbox.
  rewrite bool_decide_eq_true_2 by done.
  rewrite (proj2 (String.eqb_neq _ _)) by done.
  rewrite bool_decide_eq_false_2 by done.
  cbn [app dispatch_change run_change].
  set (doc0 := alter _ el doc).
  destruct (onlyOne_change_spec el doc0) as (d1 & Hr1 & Hs1 & Hc1).
  rewrite Hr1. exists d1. split; [done|]. intros j. rewrite Hc1.
  unfold doc0. rewrite !is_checked_flip, Nat.eqb_refl.
  rewrite (static_only_one doc) by apply static_flip.
  rewrite bool_decide_eq_true_2 by done. rewrite !andb_true_r.
  assert (is_checked doc el = checked box) as ->
    by (unfold is_checked; now rewrite Hbox).
  destruct (Nat.eqb j el), (checked box), (only_one doc j); done.
Qed.

Lemma selection_stays_ok_witness :
  ∃ doc', user_change 1 (slot_form true false false false) = Returned tt doc'
          ∧ time_slot_group doc' 0 1 2 3
          ∧ selection_ok doc' 0 1 2 3 = true.
Proof.
  apply (selection_stays_ok (slot_form true false false false) 0 1 2 3 1).
  - repeat split; reflexivity.
  - cbn. lia.
  - reflexivity.
Defined.

Lemma third_slot_switches_to_none_witness :
  ∃ doc', user_change 2 (slot_form true true false false) = Returned tt doc'
          ∧ is_checked doc' 0 = false ∧ is_checked doc' 1 = false
          ∧ is_checked doc' 2 = false ∧ is_checked doc' 3 = true.
Proof.
  apply (third_slot_switches_to_none
           (slot_form true true false false) 0 1 2 3 2).
  - repeat split; reflexivity.
  - right. right. reflexivity.
  - reflexivity.
  - reflexivity.
  - reflexivity.
Defined.

Lemma slot_unchecks_none_witness :
  ∃ doc', user_change 0 (slot_form false false false true) = Returned tt doc'
          ∧ is_checked doc' 0 = true
          ∧ is_checked doc' 3 = false
          ∧ (only_one (slot_form false false false true) 0 = false →
             ∀ s, s ≠ 0%nat → s ≠ 3%nat →
                  is_checked doc' s
                  = is_checked (slot_form false false false true) s).
Proof.
  apply (slot_unchecks_none (slot_form false false false true) 0 1 2 3 0).
  - repeat split; reflexivity.
  - left. reflexivity.
  - reflexivity.
  - reflexivity.
Defined.

Lemma none_clears_slots_witness :
  ∃ doc', user_change 3 (slot_form true true false false) = Returned tt doc'
          ∧ is_checked doc' 3 = true
          ∧ is_checked doc' 0 = false ∧ is_checked doc' 1 = false
          ∧ is_checked doc' 2 = false.
Proof.
  apply (none_clears_slots (slot_form true true false false) 0 1 2 3).
  - repeat split; reflexivity.
  - reflexivity.
Defined.

Lemma unchecking_changes_nothing_else_witness :
  ∃ doc', user_change 0 (slot_form true true false false) = Returned tt doc'
          ∧ is_checked doc' 0 = false
          ∧ ∀ j, j ≠ 0%nat →
                 is_checked doc' j
                 = is_checked (slot_form true true false false) j.
Proof.
  apply (unchecking_changes_nothing_else
           (slot_form true true false false) 0 1 2 3 0).
  - repeat split; reflexivity.
  - cbn. lia.
  - reflexivity.
  - reflexivity.
Defined.

Lemma missing_none_throws_witness :
  throws (user_change 0 (take 3 (slot_form false false false false))) = true
  ∧ is_checked
      (state_of (user_change 0 (take 3 (slot_form false false false false))))
      0 = true.
Proof.
  apply (missing_none_throws (take 3 (slot_form false false false false)) 0
           (mkCheckbox "morning" "time-slot" [] false)).
  - reflexivity.
  - reflexivity.
  - reflexivity.
  - reflexivity.
Defined.

Lemma only_one_exclusive_witness :
  ∃ doc', user_change 1 choice_form = Returned tt doc'
    ∧ ∀ j, is_checked doc' j
           = if Nat.eqb j 1 then negb false
             else if negb false && only_one choice_form j then false
             else is_checked choice_form j.
Proof.
  apply (only_one_exclusive choice_form 1
           (mkCheckbox "no" "answer" ["only-one"] false)).
  - reflexivity.
  - apply list_elem_of_here.
  - discriminate.
  - discriminate.
Defined.

(** ** The postcode *)

Lemma postcode_value toUpperCase el :
  value (postcodeInput_input toUpperCase el)
  = let raw := take 7 (remove_whitespace (toUpperCase (value el))) in
    if (4 <? length raw)%nat
    then take (length raw - 3) raw ++ [32%N] ++ drop (length raw - 3) raw
    else raw.
Proof.
  unfold postcodeInput_input, str_length.
  set (raw0 := remove_whitespace (toUpperCase (value el))).
  assert (Hraw : (if Z.of_nat (length raw0) >? 7
                  then slice raw0 0 (Some 7) else raw0) = take 7 raw0).
  { destruct (Z.gtb_spec (Z.of_nat (length raw0)) 7).
    - now rewrite slice_prefix.
    - rewrite take_ge; [done|lia]. }
  rewrite Hraw. cbv zeta. set (raw := take 7 raw0).
  destruct (Z.gtb_spec (Z.of_nat (length raw)) 4),
    (Nat.ltb_spec 4 (length raw)); try lia; [|done].
  cbn [value set_value]. rewrite slice_prefix, slice_suffix by lia.
  replace (Z.to_nat (Z.of_nat (length raw) - 3)) with (length raw - 3)%nat
    by lia.
  reflexivity.
Qed.

(** X21.  After the postcode listener the field holds the first seven
    characters other than white space of the upper-cased value; when there
    are at least five of them, one space stands before the last three.  The
    value has at most eight characters, and the validity message is not
    touched.  This holds whatever [toUpperCase] does to the characters. *)
Theorem postcode_layout toUpperCase el :
  let raw := take 7 (remove_whitespace (toUpperCase (value el))) in
  let out := postcodeInput_input toUpperCase el in
  remove_whitespace (value out) = raw
  ∧ (length (value out) ≤ 8)%nat
  ∧ (if (4 <? length raw)%nat
     then ∃ a b, value out = a ++ units " " ++ b
                 ∧ length b = 3%nat ∧ raw = a ++ b
     else value out = raw)
  ∧ customValidity out = customValidity el.
Proof.
  intros raw out. unfold out. rewrite postcode_value. fold raw. cbv zeta.
  assert (Hlen : (length raw ≤ 7)%nat)
    by (unfold raw; rewrite length_take; lia).
  assert (Hws : Forall (λ c, isWhiteSpace c = false) raw)
    by (apply Forall_take, Forall_filter_self).
  assert (Hcv : customValidity (postcodeInput_input toUpperCase el)
                = customValidity el).
  { unfold postcodeInput_input. now destruct (_ >? 4). }
  destruct (Nat.ltb_spec 4 (length raw)) as [Hlt|Hge].
  - split_and!; [| |by eexists _, _; split_and!;
                       [reflexivity|rewrite length_drop; lia
                       |now rewrite take_drop]|done].
    + unfold remove_whitespace.
      rewrite !filter_app, filter_cons, decide_False by done.
      rewrite filter_nil, app_nil_l.
      rewrite !filter_all by (apply Forall_take || apply Forall_drop; done).
      apply take_drop.
    + rewrite !length_app, length_take, length_drop. cbn [length]. lia.
  - split_and!; [|lia|done|done]. now apply filter_all.
Qed.

Example postcode_example :
  value (postcodeInput_input ascii_upper (mkField (units "sw1a1aa") []))
  = units "SW1A 1AA".
Proof. reflexivity. Qed.

(** ** Trimming the text inputs before submission *)

Lemma trim_fields_lookup (l : list string) (form : gmap string Field)
  (key : string) :
  foldl (λ form id,
           match form !! id with
           | Some el => <[id := set_value (trim (value el)) el]> form
           | None => form
           end) form l !! key
  = if bool_decide (key ∈ l)
    then (λ el, set_value (trim (value el)) el) <$> form !! key
    else form !! key.
Proof.
  revert form. induction l as [|x l IH]; intros form; [done|].
  cbn [foldl]. rewrite IH. destruct (decide (key = x)) as [<-|Hx].
  - rewrite (bool_decide_eq_true_2 (key ∈ key :: l)) by now left.
    destruct (form !! key) as [el|] eqn:E.
    + rewrite lookup_insert_eq.
      destruct (bool_decide (key ∈ l)); [|done].
      cbn [fmap option_fmap option_map]. unfold set_value.
      cbn [value customValidity]. now rewrite trim_idem.
    + rewrite E. now destruct (bool_decide (key ∈ l)).
  - assert (Hin : bool_decide (key ∈ x :: l) = bool_decide (key ∈ l)).
    { apply bool_decide_ext. rewrite elem_of_cons. tauto. }
    rewrite Hin.
    destruct (form !! x); [now rewrite lookup_insert_ne|done].
Qed.

(** X29.  [sanitizeTextInputs] replaces the value of each of the five
    listed controls the form has by the trimmed value, and leaves every other
    control, and every validity message, as it is; run twice, it does what
    it does run once. *)
Theorem sanitizeTextInputs_trims form :
  (∀ id, sanitizeTextInputs form !! id
         = if bool_decide (id ∈ fieldsToTrim)
           then (λ el, mkField (trim (value el)) (customValidity el))
                <$> form !! id
           else form !! id)
  ∧ sanitizeTextInputs (sanitizeTextInputs form) = sanitizeTextInputs form.
Proof.
  assert (H1 : ∀ f id, sanitizeTextInputs f !! id
               = if bool_decide (id ∈ fieldsToTrim)
                 then (λ el, mkField (trim (value el)) (customValidity el))
                      <$> f !! id
                 else f !! id).
  { intros f id. unfold sanitizeTextInputs. apply trim_fields_lookup. }
  split; [apply H1|].
  apply map_eq. intros id. rewrite !H1.
  case_bool_decide; [|done].
  destruct (form !! id) as [el|]; [|done].
  cbn [fmap option_fmap option_map value customValidity].
  now rewrite trim_idem.
Qed.

(** ** The menu button *)

Lemma contains_toggle token l :
  DOMTokenList.contains token (classList_toggle token l)
  = negb (DOMTokenList.contains token l).
Proof.
  unfold classList_toggle.
  destruct (DOMTokenList.contains token l) eqn:E.
  - apply contains_remove.
  - apply contains_add.
Qed.

Lemma filter_other_toggle (token : string) l :
  filter (λ t, t ≠ token) (classList_toggle token l)
  = filter (λ t, t ≠ token) l.
Proof.
  unfold classList_toggle. destruct (DOMTokenList.contains token l).
  - apply filter_other_remove.
  - apply filter_other_add.
Qed.

(** X30.  A click on the menu button flips the presence of the class
    "display-none-hamburger" on the menu, and two clicks bring it back; the
    other classes of the menu, in their order, its text and its listeners
    are never changed. *)
Theorem hamburger_toggles menu :
  let hides (el : Element) :=
    DOMTokenList.contains "display-none-hamburger" (classList el) in
  let rest (el : Element) :=
    (filter (λ t, t ≠ "display-none-hamburger") (classList el),
     textContent el, clickListeners el) in
  hides (hamburgerBtn_click menu) = negb (hides menu)
  ∧ hides (hamburgerBtn_click (hamburgerBtn_click menu)) = hides menu
  ∧ rest (hamburgerBtn_click menu) = rest menu.
Proof.
  intros hides rest. unfold hides, rest, hamburgerBtn_click. cbn.
  rewrite !contains_toggle, filter_other_toggle, negb_involutive. done.
Qed.
